(** * russross/mandel: the fractal render engine, embedded and verified

    The development follows the package [mandel] (type [Parameters] with
    [Init], [Generate], [CalcPixel], [getColor] and the function [mandel])
    and, in [Module Legacy], the older single-file program whose functions
    read process-wide variables instead of a [Parameters] value.

    Numbers are modelled as the Go program has them:
    - [float64] is Rocq's primitive binary64 [float];
    - [int] is a [Z] in the signed 64-bit range, every operation written
      with its wrap-around ([Int.wrap]);
    - [uint8] is a [Z] in [0, 256).
    What Go leaves to the platform, the value of [math.Log2] and the result
    of converting an unrepresentable [float64] to [int], is a field of the
    class [GoRuntime]. *)

From Stdlib Require Import ZArith Lia Floats Zpower QArith Lqa Qpower Strings.String.
From stdpp Require Import base tactics list relations.

Local Open Scope Z_scope.

(** ** Results of calls that may panic *)

Inductive result (A : Type) : Type :=
| Ok (v : A)
| Panic (msg : string).
Arguments Ok {A} v.
Arguments Panic {A} msg.

#[global] Instance result_ret : MRet result := fun A v => Ok v.
#[global] Instance result_bind : MBind result := fun A B k r =>
  match r with
  | Ok v => k v
  | Panic msg => Panic msg
  end.

Definition is_Ok {A} (r : result A) : bool :=
  match r with Ok _ => true | Panic _ => false end.

(** ** Go's [int] on a 64-bit platform *)

Module Int.

Definition min_int : Z := - 2 ^ 63.
Definition max_int : Z := 2 ^ 63 - 1.

Definition in_range (z : Z) : Prop := min_int <= z <= max_int.
Definition in_rangeb (z : Z) : bool := (min_int <=? z) && (z <=? max_int).

(** Two's complement wrap-around of a mathematical integer. *)
Definition wrap (z : Z) : Z := (z + 2 ^ 63) mod 2 ^ 64 - 2 ^ 63.

Definition add (a b : Z) : Z := wrap (a + b).
Definition sub (a b : Z) : Z := wrap (a - b).
Definition mul (a b : Z) : Z := wrap (a * b).

(** [a / b]: truncated division; a zero divisor is a run-time panic. *)
Definition div (a b : Z) : result Z :=
  if b =? 0 then Panic "runtime error: integer divide by zero"
  else Ok (wrap (Z.quot a b)).

(** [a % b]: the remainder has the sign of the dividend. *)
Definition rem (a b : Z) : result Z :=
  if b =? 0 then Panic "runtime error: integer divide by zero"
  else Ok (Z.rem a b).

(** Conversion [uint8(z)]: the low eight bits. *)
Definition to_uint8 (z : Z) : Z := z mod 256.

End Int.

(** ** Go's [float64] *)

(** What the language leaves to the platform and to the [math] package. *)
Class GoRuntime := {
  (** [math.Log2]. *)
  Log2 : float -> float;
  (** The [int] a conversion [int(f)] yields when [f] is a NaN, an infinity
      or lies outside the range of [int]: "the conversion succeeds but the
      result value is implementation-dependent". *)
  int_unrepresentable : float -> Z
}.

Module F64.

Local Open Scope float_scope.

(** [float64(z)] for an [int] [z]: rounded to nearest, ties to even. *)
Definition of_int (z : Z) : float :=
  if (z =? Int.min_int)%Z then -0x1p63
  else if (z <? 0)%Z then - PrimFloat.of_uint63 (Uint63.of_Z (- z))
  else PrimFloat.of_uint63 (Uint63.of_Z z).

(** [float64(c)] for a [uint8] channel. *)
Definition of_uint8 (c : Z) : float := of_int c.

(** [math.IsNaN], [math.IsInf(x, 0)] and their joint negation, read off the
    IEEE 754 datum. *)
Definition is_nan (x : float) : bool :=
  match Prim2SF x with S754_nan => true | _ => false end.
Definition is_inf (x : float) : bool :=
  match Prim2SF x with S754_infinity _ => true | _ => false end.
Definition is_finite (x : float) : bool := negb (is_nan x) && negb (is_inf x).

(** The integer part of a finite float, rounded toward zero. *)
Definition trunc (x : float) : option Z :=
  match Prim2SF x with
  | S754_zero _ => Some 0%Z
  | S754_finite s m e =>
      let a := if (0 <=? e)%Z then (Z.pos m * 2 ^ e)%Z
               else Z.shiftr (Z.pos m) (- e) in
      Some (if s then (- a)%Z else a)
  | _ => None
  end.

(** Conversion [int(x)]: the fraction is discarded; a value [int] cannot
    hold gives the platform's result. *)
Definition to_int `{GoRuntime} (x : float) : Z :=
  match trunc x with
  | Some z => if Int.in_rangeb z then z else Int.wrap (int_unrepresentable x)
  | None => Int.wrap (int_unrepresentable x)
  end.

(** [math.Floor]: the greatest integer value not above [x]; zeros,
    infinities and NaN are returned unchanged. *)
Definition Floor (x : float) : float :=
  match Prim2SF x with
  | S754_finite s m e =>
      if (0 <=? e)%Z then x
      else
        let q := Z.shiftr (Z.pos m) (- e) in
        if (Z.shiftl q (- e) =? Z.pos m)%Z then x
        else if s then - of_int (q + 1) else of_int q
  | _ => x
  end.

End F64.

(** ** Colours and parameters *)

(** [color.NRGBA]: four [uint8] channels. *)
Record NRGBA := mkNRGBA { R : Z; G : Z; B : Z; A : Z }.

Definition uint8_range (c : Z) : Prop := 0 <= c < 256.

Definition wf_color (c : NRGBA) : Prop :=
  uint8_range (R c) /\ uint8_range (G c) /\ uint8_range (B c) /\ uint8_range (A c).

Record Parameters := mkParameters {
  CenterX : float;
  CenterY : float;
  Magnification : float;
  MaxIterations : Z;
  SizeX : Z;
  SizeY : Z;
  AntiAlias : Z;
  Continuous : bool;
  Palette : list NRGBA;
  InsideColor : NRGBA;
  subpixOffsets : list float
}.

(** [len(p.Palette)] and the like: a length as an [int]. *)
Definition len {A} (l : list A) : Z := Z.of_nat (length l).

(** Indexing a slice: an index outside [0, len) is a run-time panic. *)
Definition index {A} (l : list A) (i : Z) : result A :=
  if i <? 0 then Panic "runtime error: index out of range"
  else match l !! Z.to_nat i with
       | Some v => Ok v
       | None => Panic "runtime error: index out of range"
       end.

(** ** [Parameters.Init] *)

Section Init.
Local Open Scope float_scope.

(** The value stored at index [i] of the offset slice. *)
Definition subpixOffset (antiAlias i : Z) : float :=
  (0.5 + F64.of_int i) / F64.of_int antiAlias - 0.5.

(** The slice after the loop [for i := 0; i < p.AntiAlias; i++]. *)
Definition makeOffsets (antiAlias : Z) : list float :=
  subpixOffset antiAlias <$> seqZ 0 antiAlias.

Definition set_subpixOffsets (p : Parameters) (offs : list float) : Parameters :=
  mkParameters (CenterX p) (CenterY p) (Magnification p) (MaxIterations p)
    (SizeX p) (SizeY p) (AntiAlias p) (Continuous p) (Palette p)
    (InsideColor p) offs.

(** [Init] writes through its receiver and returns an error value: the
    model returns the updated parameters with [None] for [nil]. The
    offsets are stored before the palette is looked at. *)
Definition Init (p : Parameters) : Parameters * option string :=
  if (AntiAlias p <? 1)%Z then
    (p, Some "anti-aliasing level must be 1 or higher"%string)
  else
    let p' := set_subpixOffsets p (makeOffsets (AntiAlias p)) in
    if (len (Palette p') <? 1)%Z then
      (p', Some "palette must not be empty"%string)
    else (p', None).

End Init.

(** ** The escape-time evaluator [mandel] *)

Section Mandel.
Context `{GoRuntime}.
Local Open Scope float_scope.

(** [bailout := float64(4.0); if continuous { bailout = 2 << 16 }]. *)
Definition bailout (continuous : bool) : float :=
  if continuous then F64.of_int (Z.shiftl 2 16) else 4.0.

(** What the loop body returns once [a2+b2 >= bailout]. *)
Definition escape_value (continuous : bool) (iters : Z) (a2b2 : float) : float :=
  if continuous then
    let nu := Log2 (Log2 a2b2 * 0.5) in
    F64.of_int (Int.add iters 1) - nu
  else F64.of_int iters.

(** The loop [for iters := 1; iters <= maxIters; iters++] with [k] passes
    left to run, entered with the counter at [iters] and the orbit at
    [(a, b)]. Each operation is rounded on its own, as written. *)
Fixpoint mandel_loop (x y : float) (continuous : bool) (k : nat)
    (iters : Z) (a b : float) : float :=
  match k with
  | O => 0.0
  | S k' =>
      let a2 := a * a in
      let b2 := b * b in
      if bailout continuous <=? a2 + b2 then
        escape_value continuous iters (a2 + b2)
      else
        let ab := a * b in
        mandel_loop x y continuous k' (Int.add iters 1)
          (a2 - b2 + x) (ab + ab + y)
  end.

(** The counter runs over [1 .. maxIters]: [Z.to_nat maxIters] passes (none
    when [maxIters < 1]). *)
Definition mandel (maxIters : Z) (x y : float) (continuous : bool) : float :=
  mandel_loop x y continuous (Z.to_nat maxIters) 1 x y.

End Mandel.

(** ** The colour mapper [Parameters.getColor] *)

Section GetColor.
Context `{GoRuntime}.
Local Open Scope float_scope.

Definition rgb (c : NRGBA) : Z * Z * Z := (R c, G c, B c).

(** One channel of the gradient:
    [int(float64(c1.R)*(1.0-weight) + float64(c2.R)*weight)]. *)
Definition blend (c1 c2 : Z) (weight : float) : Z :=
  F64.to_int (F64.of_uint8 c1 * (1.0 - weight) + F64.of_uint8 c2 * weight).

Definition getColor (p : Parameters) (iters : float) : result (Z * Z * Z) :=
  if iters =? 0.0 then Ok (rgb (InsideColor p))
  else if negb (Continuous p) then
    i ← Int.rem (F64.to_int iters) (len (Palette p));
    c ← index (Palette p) i;
    Ok (rgb c)
  else
    let aa := F64.to_int (F64.Floor iters) in
    let bb := Int.add (F64.to_int (F64.Floor iters)) 1 in
    let '(aa, bb) := if (aa <? 1)%Z then (1, 2)%Z else (aa, bb) in
    let weight := iters - F64.Floor iters in
    i1 ← Int.rem (Int.sub aa 1) (len (Palette p));
    c1 ← index (Palette p) i1;
    i2 ← Int.rem (Int.sub bb 1) (len (Palette p));
    c2 ← index (Palette p) i2;
    Ok (blend (R c1) (R c2) weight,
        blend (G c1) (G c2) weight,
        blend (B c1) (B c2) weight).

End GetColor.

(** ** The pixel sampler [Parameters.CalcPixel] *)

Section CalcPixel.
Context `{GoRuntime}.
Local Open Scope float_scope.

Definition minsize (p : Parameters) : Z :=
  if (SizeY p <? SizeX p)%Z then SizeY p else SizeX p.

(** The plane coordinates of one sample. *)
Definition plane_x (p : Parameters) (col : Z) (xoffset : float) : float :=
  CenterX p
  + (F64.of_int (Int.sub col (Z.quot (SizeX p) 2)) + xoffset)
    / (Magnification p * F64.of_int (Int.sub (minsize p) 1)).

Definition plane_y (p : Parameters) (row : Z) (yoffset : float) : float :=
  CenterY p
  - (F64.of_int (Int.sub row (Z.quot (SizeY p) 2)) - yoffset)
    / (Magnification p * F64.of_int (Int.sub (minsize p) 1)).

(** Evaluator, then colour mapper, at one sample. *)
Definition sampleColor (p : Parameters) (col row : Z)
    (xoffset yoffset : float) : result (Z * Z * Z) :=
  getColor p
    (mandel (MaxIterations p) (plane_x p col xoffset) (plane_y p row yoffset)
       (Continuous p)).

Definition accumulate (acc s : Z * Z * Z) : Z * Z * Z :=
  let '(r, g, b) := acc in
  let '(rs, gs, bs) := s in
  (Int.add r rs, Int.add g gs, Int.add b bs).

(** The inner loop [for _, xoffset := range p.subpixOffsets]. *)
Fixpoint loop_x (p : Parameters) (col row : Z) (yoffset : float)
    (xs : list float) (acc : Z * Z * Z) : result (Z * Z * Z) :=
  match xs with
  | [] => Ok acc
  | xoffset :: xs' =>
      s ← sampleColor p col row xoffset yoffset;
      loop_x p col row yoffset xs' (accumulate acc s)
  end.

(** The outer loop [for _, yoffset := range p.subpixOffsets]. *)
Fixpoint loop_y (p : Parameters) (col row : Z) (ys : list float)
    (acc : Z * Z * Z) : result (Z * Z * Z) :=
  match ys with
  | [] => Ok acc
  | yoffset :: ys' =>
      acc' ← loop_x p col row yoffset (subpixOffsets p) acc;
      loop_y p col row ys' acc'
  end.

Definition CalcPixel (p : Parameters) (col row : Z) : result NRGBA :=
  if negb (len (subpixOffsets p) =? AntiAlias p)%Z then
    Panic "CalcPixel cannot be called before Init"
  else
    sums ← loop_y p col row (subpixOffsets p) (0, 0, 0)%Z;
    let '(r, g, b) := sums in
    let aa := Int.mul (AntiAlias p) (AntiAlias p) in
    r' ← Int.div r aa;
    g' ← Int.div g aa;
    b' ← Int.div b aa;
    Ok (mkNRGBA (Int.to_uint8 r') (Int.to_uint8 g') (Int.to_uint8 b') 255).

End CalcPixel.

(** ** The canvas: [image.NRGBA] *)

(** [image.Rectangle], with [image.Rect] putting the corners in order. *)
Record Rectangle := mkRectangle { minX : Z; minY : Z; maxX : Z; maxY : Z }.

Definition Rect (x0 y0 x1 y1 : Z) : Rectangle :=
  let '(x0, x1) := if x1 <? x0 then (x1, x0) else (x0, x1) in
  let '(y0, y1) := if y1 <? y0 then (y1, y0) else (y0, y1) in
  mkRectangle x0 y0 x1 y1.

Definition Dx (r : Rectangle) : Z := maxX r - minX r.
Definition Dy (r : Rectangle) : Z := maxY r - minY r.

(** [(x, y) In r]. *)
Definition In_rect (x y : Z) (r : Rectangle) : bool :=
  (minX r <=? x) && (x <? maxX r) && (minY r <=? y) && (y <? maxY r).

(** The pixel buffer holds the rows one after the other; the four bytes of a
    pixel are kept together as one [NRGBA]. *)
Record Canvas := mkCanvas { bounds : Rectangle; Pix : list NRGBA }.

Definition transparent : NRGBA := mkNRGBA 0 0 0 0.

(** [image.NewNRGBA]: a zeroed buffer; it panics when the byte count
    [4·width·height] does not fit an [int]. *)
Definition NewNRGBA (r : Rectangle) : result Canvas :=
  if Int.max_int <? 4 * Dx r * Dy r then
    Panic "image: NewNRGBA Rectangle has huge or negative dimensions"
  else Ok (mkCanvas r (replicate (Z.to_nat (Dx r * Dy r)) transparent)).

(** [PixOffset], counted in pixels. *)
Definition PixOffset (c : Canvas) (x y : Z) : Z :=
  (y - minY (bounds c)) * Dx (bounds c) + (x - minX (bounds c)).

(** [canvas.Set(x, y, col)]: points outside the bounds are ignored. *)
Definition Canvas_Set (c : Canvas) (x y : Z) (col : NRGBA) : Canvas :=
  if In_rect x y (bounds c) then
    mkCanvas (bounds c) (<[Z.to_nat (PixOffset c x y) := col]> (Pix c))
  else c.

(** [canvas.NRGBAAt(x, y)]. *)
Definition Canvas_At (c : Canvas) (x y : Z) : NRGBA :=
  if In_rect x y (bounds c) then
    default transparent (Pix c !! Z.to_nat (PixOffset c x y))
  else transparent.

(** ** The scheduler [Parameters.Generate] *)

(** What travels on [pixelch]. *)
Record pixel := mkPixel { pixel_x : Z; pixel_y : Z; pixel_color : NRGBA }.

(** Where a row worker stands. *)
Inductive worker :=
| WReceive                 (** at [for row := range rows], waiting for a row *)
| WColumn (row col : Z)    (** at the test [col < p.SizeX] of the inner loop *)
| WSignal                  (** [rows] was closed: about to send on [done] *)
| WExit.                   (** the goroutine has ended *)

(** Where the goroutine that writes the canvas stands. *)
Inductive writer :=
| AReceive                 (** at [for pix := range pixelch] *)
| ASignal                  (** [pixelch] was closed and drained: about to send on [done] *)
| AExit.

(** Where the calling goroutine stands. *)
Inductive caller :=
| MFeed (row : Z)          (** at the test [row < p.SizeY] of the feeding loop *)
| MWait (i : Z)            (** at the test [i < fanout] of the waiting loop *)
| MLast                    (** at the final [<-done] *)
| MReturned.               (** [return canvas] *)

(** The goroutines, the two channels that carry data, and the canvas. The
    channels [rows] and [done] have no buffer: a value passes when sender
    and receiver meet, so they hold nothing between steps; [pixelch] has a
    buffer of [p.SizeX] pixels. *)
Record state := mkState {
  st_caller : caller;
  st_workers : list worker;
  st_writer : writer;
  rows_closed : bool;
  pixelch : list pixel;
  pixelch_closed : bool;
  canvas : Canvas
}.

(** The state once [Generate] has passed its check, made the channels,
    started the goroutines and allocated the canvas. [make(chan pixel, n)]
    panics for a negative [n]. *)
Definition Generate_start (p : Parameters) (fanout : nat) : result state :=
  if negb (len (subpixOffsets p) =? AntiAlias p) then
    Panic "Generate cannot be called before Init"
  else if SizeX p <? 0 then Panic "makechan: size out of range"
  else
    c ← NewNRGBA (Rect 0 0 (SizeX p) (SizeY p));
    Ok (mkState (MFeed 0) (replicate fanout WReceive) AReceive false [] false c).

Definition set_caller (s : state) (m : caller) : state :=
  mkState m (st_workers s) (st_writer s) (rows_closed s) (pixelch s)
    (pixelch_closed s) (canvas s).

Definition set_worker (s : state) (i : nat) (w : worker) : state :=
  mkState (st_caller s) (<[i := w]> (st_workers s)) (st_writer s)
    (rows_closed s) (pixelch s) (pixelch_closed s) (canvas s).

Definition set_writer (s : state) (a : writer) : state :=
  mkState (st_caller s) (st_workers s) a (rows_closed s) (pixelch s)
    (pixelch_closed s) (canvas s).

Definition close_rows (s : state) : state :=
  mkState (st_caller s) (st_workers s) (st_writer s) true (pixelch s)
    (pixelch_closed s) (canvas s).

Definition close_pixelch (s : state) : state :=
  mkState (st_caller s) (st_workers s) (st_writer s) (rows_closed s)
    (pixelch s) true (canvas s).

Definition send_pixel (s : state) (px : pixel) : state :=
  mkState (st_caller s) (st_workers s) (st_writer s) (rows_closed s)
    (pixelch s ++ [px]) (pixelch_closed s) (canvas s).

(** The writer takes the oldest pixel of the buffer and stores it. *)
Definition write_pixel (s : state) (px : pixel) (rest : list pixel) : state :=
  mkState (st_caller s) (st_workers s) (st_writer s) (rows_closed s) rest
    (pixelch_closed s)
    (Canvas_Set (canvas s) (pixel_x px) (pixel_y px) (pixel_color px)).

(** The caller receives one value from [done], where it stands at a
    receive: inside the waiting loop, or at the final [<-done]. *)
Definition caller_received (fanout : nat) (m : caller) : option caller :=
  match m with
  | MWait i => if i <? Z.of_nat fanout then Some (MWait (Int.add i 1)) else None
  | MLast => Some MReturned
  | _ => None
  end.

Section Scheduler.
Context `{GoRuntime}.

(** One step of one goroutine, or one meeting of two on a channel without
    buffer; the scheduler may pick any step that is enabled. *)
Inductive step (p : Parameters) (fanout : nat) : state -> state -> Prop :=
| step_feed s row i :
    st_caller s = MFeed row -> row < SizeY p ->
    st_workers s !! i = Some WReceive ->
    step p fanout s
      (set_worker (set_caller s (MFeed (Int.add row 1))) i (WColumn row 0))
| step_close_rows s row :
    st_caller s = MFeed row -> ~ row < SizeY p ->
    step p fanout s (set_caller (close_rows s) (MWait 0))
| step_pixel s i row col c :
    st_workers s !! i = Some (WColumn row col) -> col < SizeX p ->
    CalcPixel p col row = Ok c ->
    len (pixelch s) < SizeX p ->
    step p fanout s
      (set_worker (send_pixel s (mkPixel col row c)) i
         (WColumn row (Int.add col 1)))
| step_row_done s i row col :
    st_workers s !! i = Some (WColumn row col) -> ~ col < SizeX p ->
    step p fanout s (set_worker s i WReceive)
| step_rows_closed s i :
    st_workers s !! i = Some WReceive -> rows_closed s = true ->
    step p fanout s (set_worker s i WSignal)
| step_worker_done s i m :
    st_workers s !! i = Some WSignal ->
    caller_received fanout (st_caller s) = Some m ->
    step p fanout s (set_worker (set_caller s m) i WExit)
| step_close_pixelch s i :
    st_caller s = MWait i -> ~ i < Z.of_nat fanout ->
    step p fanout s (set_caller (close_pixelch s) MLast)
| step_write s px rest :
    st_writer s = AReceive -> pixelch s = px :: rest ->
    step p fanout s (write_pixel s px rest)
| step_pixelch_closed s :
    st_writer s = AReceive -> pixelch s = [] -> pixelch_closed s = true ->
    step p fanout s (set_writer s ASignal)
| step_writer_done s m :
    st_writer s = ASignal ->
    caller_received fanout (st_caller s) = Some m ->
    step p fanout s (set_writer (set_caller s m) AExit).

(** A worker is about to call [CalcPixel] and the call panics: the panic is
    in a goroutine of its own and ends the program. *)
Definition crashes (p : Parameters) (s : state) : Prop :=
  exists i row col msg,
    st_workers s !! i = Some (WColumn row col) /\ col < SizeX p
    /\ CalcPixel p col row = Panic msg.

(** [Generate] can reach [s], under some schedule. *)
Definition reachable (p : Parameters) (fanout : nat) (s : state) : Prop :=
  exists s0, Generate_start p fanout = Ok s0 /\ rtc (step p fanout) s0 s.

(** [Generate] can return [c]. *)
Definition returns (p : Parameters) (fanout : nat) (c : Canvas) : Prop :=
  exists s, reachable p fanout s /\ st_caller s = MReturned /\ canvas s = c.

(** The colour [CalcPixel] gives, for use where it is known not to panic. *)
Definition pixel_color_at (p : Parameters) (col row : Z) : NRGBA :=
  match CalcPixel p col row with
  | Ok c => c
  | Panic _ => transparent
  end.

(** The image the specification asks for: the pixel at [(col, row)] is the
    sampler's colour. *)
Definition rendered (p : Parameters) : Canvas :=
  mkCanvas (mkRectangle 0 0 (SizeX p) (SizeY p))
    ((fun k => pixel_color_at p (k mod SizeX p) (k / SizeX p))
       <$> seqZ 0 (SizeX p * SizeY p)).

End Scheduler.

(** ** The single-file program

    The older program keeps the iteration bound, the antialiasing level, the
    mode, the palette and the offsets in package variables and has no inside
    colour: its functions are embedded with the variables as a record. *)

Module Legacy.

Record Globals := mkGlobals {
  iterations : Z;
  antialias : Z;
  continuous : bool;
  palette : list NRGBA;
  subpixOffsets : list float
}.

Section Functions.
Context `{GoRuntime}.
Local Open Scope float_scope.

(** The offsets as [main] fills them, after its check [antialias < 1]. *)
Definition offsets (antialias : Z) : list float :=
  (fun i => (0.5 + F64.of_int i) / F64.of_int antialias - 0.5) <$> seqZ 0 antialias.

Fixpoint mandel_loop (g : Globals) (x y : float) (k : nat) (iters : Z)
    (a b : float) : float :=
  match k with
  | O => 0.0
  | S k' =>
      let bailout := if continuous g then F64.of_int (Z.shiftl 2 16) else 4.0 in
      let a2 := a * a in
      let b2 := b * b in
      if bailout <=? a2 + b2 then
        if continuous g then
          let nu := Log2 (Log2 (a2 + b2) * 0.5) in
          F64.of_int (Int.add iters 1) - nu
        else F64.of_int iters
      else
        let ab := a * b in
        mandel_loop g x y k' (Int.add iters 1) (a2 - b2 + x) (ab + ab + y)
  end.

Definition mandel (g : Globals) (x y : float) : float :=
  mandel_loop g x y (Z.to_nat (iterations g)) 1 x y.

(** The named results [r, g, b] are zero at the bare [return]. *)
Definition getColor (g : Globals) (iters : float) : result (Z * Z * Z) :=
  if iters =? 0.0 then Ok (0, 0, 0)%Z
  else if negb (continuous g) then
    i ← Int.rem (F64.to_int iters) (len (palette g));
    c ← index (palette g) i;
    Ok (R c, G c, B c)
  else
    let aa := F64.to_int (F64.Floor iters) in
    let bb := Int.add (F64.to_int (F64.Floor iters)) 1 in
    let '(aa, bb) := if (aa <? 1)%Z then (1, 2)%Z else (aa, bb) in
    let weight := iters - F64.Floor iters in
    i1 ← Int.rem (Int.sub aa 1) (len (palette g));
    c1 ← index (palette g) i1;
    i2 ← Int.rem (Int.sub bb 1) (len (palette g));
    c2 ← index (palette g) i2;
    Ok (F64.to_int (F64.of_uint8 (R c1) * (1.0 - weight) + F64.of_uint8 (R c2) * weight),
        F64.to_int (F64.of_uint8 (G c1) * (1.0 - weight) + F64.of_uint8 (G c2) * weight),
        F64.to_int (F64.of_uint8 (B c1) * (1.0 - weight) + F64.of_uint8 (B c2) * weight)).

Fixpoint loop_x (g : Globals) (col row sizeX sizeY : Z)
    (centerX centerY magnification : float) (minsize : Z) (yoffset : float)
    (xs : list float) (acc : Z * Z * Z) : result (Z * Z * Z) :=
  match xs with
  | [] => Ok acc
  | xoffset :: xs' =>
      let x := centerX
               + (F64.of_int (Int.sub col (Z.quot sizeX 2)) + xoffset)
                 / (magnification * F64.of_int (Int.sub minsize 1)) in
      let y := centerY
               - (F64.of_int (Int.sub row (Z.quot sizeY 2)) - yoffset)
                 / (magnification * F64.of_int (Int.sub minsize 1)) in
      s ← getColor g (mandel g x y);
      let '(r0, g0, b0) := acc in
      let '(rs, gs, bs) := s in
      loop_x g col row sizeX sizeY centerX centerY magnification minsize yoffset
        xs' (Int.add r0 rs, Int.add g0 gs, Int.add b0 bs)
  end.

Fixpoint loop_y (g : Globals) (col row sizeX sizeY : Z)
    (centerX centerY magnification : float) (minsize : Z)
    (ys : list float) (acc : Z * Z * Z) : result (Z * Z * Z) :=
  match ys with
  | [] => Ok acc
  | yoffset :: ys' =>
      acc' ← loop_x g col row sizeX sizeY centerX centerY magnification minsize
               yoffset (subpixOffsets g) acc;
      loop_y g col row sizeX sizeY centerX centerY magnification minsize ys' acc'
  end.

Definition calcPixel (g : Globals) (col row sizeX sizeY : Z)
    (centerX centerY magnification : float) : result NRGBA :=
  let minsize := if (sizeY <? sizeX)%Z then sizeY else sizeX in
  sums ← loop_y g col row sizeX sizeY centerX centerY magnification minsize
           (subpixOffsets g) (0, 0, 0)%Z;
  let '(r, g0, b) := sums in
  let aa := Int.mul (antialias g) (antialias g) in
  r' ← Int.div r aa;
  g' ← Int.div g0 aa;
  b' ← Int.div b aa;
  Ok (mkNRGBA (Int.to_uint8 r') (Int.to_uint8 g') (Int.to_uint8 b') 255).

End Functions.

(** The package's parameters that stand for a state of the program: the
    inside colour is black. *)
Definition as_Parameters (g : Globals) (sizeX sizeY : Z)
    (centerX centerY magnification : float) : Parameters :=
  mkParameters centerX centerY magnification (iterations g) sizeX sizeY
    (antialias g) (continuous g) (palette g) (mkNRGBA 0 0 0 255)
    (subpixOffsets g).

End Legacy.

(** ** The command: loading the palette and preparing the parameters *)

Module Command.

(** The calls of [log.Fatalf] and [log.Fatal], each of which ends the
    program. *)
Inductive fatal :=
| FlagAntiAlias                  (** "Anti-aliasing level must be 1 or higher" *)
| ReadPalette (filename : string)(** "Error reading palette file %s: %v" *)
| ParsePalette                   (** "Error parsing palette JSON data: %v" *)
| EmptyPalette                   (** "Palette must have at least color" *)
| ColorLength (c : list Z)       (** "... each color must have exactly 4 elements ...: found %v" *)
| InitError (msg : string).      (** [log.Fatal(err)] for the error of [Init] *)

Inductive run (A : Type) : Type :=
| Returns (v : A)
| Exits (f : fatal).
Arguments Returns {A} v.
Arguments Exits {A} f.

#[global] Instance run_bind : MBind run := fun A B k r =>
  match r with
  | Returns v => k v
  | Exits f => Exits f
  end.

(** What the command reads from outside: the built-in colour table, which
    is declared in another file of the package, the file system, and
    [json.Unmarshal] into a [[][]uint8]. *)
Class Files := {
  defaultColors : list (list Z);
  ReadFile : string -> option string;
  Unmarshal : string -> option (list (list Z))
}.

(** The loop [for _, c := range colors], appending to [palette]. *)
Fixpoint appendColors (colors : list (list Z)) (palette : list NRGBA)
    : run (list NRGBA) :=
  match colors with
  | [] => Returns palette
  | c :: rest =>
      match c with
      | [c0; c1; c2; c3] => appendColors rest (palette ++ [mkNRGBA c0 c1 c2 c3])
      | _ => Exits (ColorLength c)
      end
  end.

Section Load.
Context `{Files}.

(** The colours before conversion: the built-in table for an empty file
    name, else the parsed file, which must hold at least one colour. *)
Definition readColors (filename : string) : run (list (list Z)) :=
  if String.eqb filename "" then Returns defaultColors
  else
    match ReadFile filename with
    | None => Exits (ReadPalette filename)
    | Some raw =>
        match Unmarshal raw with
        | None => Exits ParsePalette
        | Some colors =>
            if len colors <? 1 then Exits EmptyPalette else Returns colors
        end
    end.

(** [loadPalette] of the command: it returns the palette. *)
Definition loadPalette (filename : string) : run (list NRGBA) :=
  colors ← readColors filename; appendColors colors [].

(** [loadPalette] of the single-file program: it appends to the package
    variable [palette]. *)
Definition loadPalette_global (filename : string) (palette : list NRGBA)
    : run (list NRGBA) :=
  colors ← readColors filename; appendColors colors palette.

Definition set_Palette (p : Parameters) (pal : list NRGBA) : Parameters :=
  mkParameters (CenterX p) (CenterY p) (Magnification p) (MaxIterations p)
    (SizeX p) (SizeY p) (AntiAlias p) (Continuous p) pal (InsideColor p)
    (subpixOffsets p).

(** [main] from the parsed flags to the call of [Generate]: the check of the
    antialiasing level, the palette, [Init]. *)
Definition prepare (flags : Parameters) (palettefile : string) : run Parameters :=
  if AntiAlias flags <? 1 then Exits FlagAntiAlias
  else
    palette ← loadPalette palettefile;
    match Init (set_Palette flags palette) with
    | (_, Some err) => Exits (InitError err)
    | (p, None) => Returns p
    end.

End Load.

(** The colour a four-element entry stands for. *)
Definition color_of (c : list Z) : option NRGBA :=
  match c with
  | [c0; c1; c2; c3] => Some (mkNRGBA c0 c1 c2 c3)
  | _ => None
  end.

End Command.

(** ** The program with four fixed samples

    An earlier single-file program has a switch for the antialiasing, not a
    level: a pixel is one sample at its centre, or the mean of four samples
    a quarter of a pixel off the centre. Its [getColor] and [mandel] are,
    letter for letter, those of the later single-file program, and read the
    package variables [iterations], [continuous] and [palette] only. *)

Module FourSamples.

Record Globals := mkGlobals {
  iterations : Z;
  antialias : bool;
  continuous : bool;
  palette : list NRGBA
}.

(** The package variables that [getColor] and [mandel] read. *)
Definition variables (g : Globals) : Legacy.Globals :=
  Legacy.mkGlobals (iterations g) (if antialias g then 2 else 1) (continuous g)
    (palette g) [].

Section Functions.
Context `{GoRuntime}.
Local Open Scope float_scope.

Definition mandel (g : Globals) (x y : float) : float :=
  Legacy.mandel (variables g) x y.

Definition getColor (g : Globals) (iters : float) : result (Z * Z * Z) :=
  Legacy.getColor (variables g) iters.

Definition calcPixel (g : Globals) (col row sizeX sizeY : Z)
    (centerX centerY magnification : float) : result NRGBA :=
  let minsize := if (sizeY <? sizeX)%Z then sizeY else sizeX in
  if negb (antialias g) then
    let x := centerX
             + F64.of_int (Int.sub col (Z.quot sizeX 2))
               / (magnification * F64.of_int (Int.sub minsize 1)) in
    let y := centerY
             - F64.of_int (Int.sub row (Z.quot sizeY 2))
               / (magnification * F64.of_int (Int.sub minsize 1)) in
    '(r, g0, b) ← getColor g (mandel g x y);
    Ok (mkNRGBA (Int.to_uint8 r) (Int.to_uint8 g0) (Int.to_uint8 b) 255)
  else
    let x1 := centerX
              + (F64.of_int (Int.sub col (Z.quot sizeX 2)) - 0.25)
                / (magnification * F64.of_int (Int.sub minsize 1)) in
    let y1 := centerY
              - (F64.of_int (Int.sub row (Z.quot sizeY 2)) + 0.25)
                / (magnification * F64.of_int (Int.sub minsize 1)) in
    '(r1, g1, b1) ← getColor g (mandel g x1 y1);
    let x2 := centerX
              + (F64.of_int (Int.sub col (Z.quot sizeX 2)) + 0.25)
                / (magnification * F64.of_int (Int.sub minsize 1)) in
    let y2 := centerY
              - (F64.of_int (Int.sub row (Z.quot sizeY 2)) + 0.25)
                / (magnification * F64.of_int (Int.sub minsize 1)) in
    '(r2, g2, b2) ← getColor g (mandel g x2 y2);
    let x3 := centerX
              + (F64.of_int (Int.sub col (Z.quot sizeX 2)) - 0.25)
                / (magnification * F64.of_int (Int.sub minsize 1)) in
    let y3 := centerY
              - (F64.of_int (Int.sub row (Z.quot sizeY 2)) - 0.25)
                / (magnification * F64.of_int (Int.sub minsize 1)) in
    '(r3, g3, b3) ← getColor g (mandel g x3 y3);
    let x4 := centerX
              + (F64.of_int (Int.sub col (Z.quot sizeX 2)) + 0.25)
                / (magnification * F64.of_int (Int.sub minsize 1)) in
    let y4 := centerY
              - (F64.of_int (Int.sub row (Z.quot sizeY 2)) - 0.25)
                / (magnification * F64.of_int (Int.sub minsize 1)) in
    '(r4, g4, b4) ← getColor g (mandel g x4 y4);
    r ← Int.div (Int.add (Int.add (Int.add r1 r2) r3) r4) 4;
    g' ← Int.div (Int.add (Int.add (Int.add g1 g2) g3) g4) 4;
    b ← Int.div (Int.add (Int.add (Int.add b1 b2) b3) b4) 4;
    Ok (mkNRGBA (Int.to_uint8 r) (Int.to_uint8 g') (Int.to_uint8 b) 255).

End Functions.

(** The antialiasing level of the package that the switch stands for. *)
Definition level (g : Globals) : Z := if antialias g then 2 else 1.

(** The package's parameters that stand for a state of the program, with
    the offsets [Init] stores for the level; the inside colour is black. *)
Definition as_Parameters (g : Globals) (sizeX sizeY : Z)
    (centerX centerY magnification : float) : Parameters :=
  mkParameters centerX centerY magnification (iterations g) sizeX sizeY
    (level g) (continuous g) (palette g) (mkNRGBA 0 0 0 255)
    (makeOffsets (level g)).

End FourSamples.

(** ** The program that fills the canvas row by row

    The oldest program keeps the size of a pixel and of a subpixel step in
    package variables beside the iteration bound and the two switches; the
    row workers write the shared canvas themselves. The body of
    [getColorAtPoint] after its first line is, letter for letter,
    [getColor] of the single-file program, and [mandel] is the same. *)

Module RowProgram.

Record Globals := mkGlobals {
  pixelSize : float;
  subpixelSize : float;
  iterations : Z;
  antialias : bool;
  continuous : bool;
  palette : list NRGBA
}.

(** The package variables that [getColorAtPoint] and [mandel] read. *)
Definition variables (g : Globals) : Legacy.Globals :=
  Legacy.mkGlobals (iterations g) (if antialias g then 2 else 1) (continuous g)
    (palette g) [].

Section Functions.
Context `{GoRuntime}.
Local Open Scope float_scope.

Definition mandel (g : Globals) (x y : float) : float :=
  Legacy.mandel (variables g) x y.

(** [iters := mandel(x, y)], then the colour of [iters]. *)
Definition getColorAtPoint (g : Globals) (x y : float) : result (Z * Z * Z) :=
  Legacy.getColor (variables g) (mandel g x y).

Definition calcPixel (g : Globals) (x y : float) : result NRGBA :=
  if negb (antialias g) then
    '(r, g0, b) ← getColorAtPoint g x y;
    Ok (mkNRGBA (Int.to_uint8 r) (Int.to_uint8 g0) (Int.to_uint8 b) 255)
  else
    '(r1, g1, b1) ← getColorAtPoint g (x - subpixelSize g) (y + subpixelSize g);
    '(r2, g2, b2) ← getColorAtPoint g (x + subpixelSize g) (y + subpixelSize g);
    '(r3, g3, b3) ← getColorAtPoint g (x - subpixelSize g) (y - subpixelSize g);
    '(r4, g4, b4) ← getColorAtPoint g (x + subpixelSize g) (y - subpixelSize g);
    r ← Int.div (Int.add (Int.add (Int.add r1 r2) r3) r4) 4;
    g' ← Int.div (Int.add (Int.add (Int.add g1 g2) g3) g4) 4;
    b ← Int.div (Int.add (Int.add (Int.add b1 b2) b3) b4) 4;
    Ok (mkNRGBA (Int.to_uint8 r) (Int.to_uint8 g') (Int.to_uint8 b) 255).

(** The loop [for col := 0; col < sizeX; col++] of [calcRow] with [k]
    passes left, the counter at [col] and the abscissa at [x]. *)
Fixpoint calcRow_loop (g : Globals) (k : nat) (col : Z) (canvas : Canvas)
    (x y : float) (row : Z) : result Canvas :=
  match k with
  | O => Ok canvas
  | S k' =>
      pixel ← calcPixel g x y;
      calcRow_loop g k' (Int.add col 1) (Canvas_Set canvas col row pixel)
        (x + pixelSize g) y row
  end.

(** [calcRow]: [sizeX] is the right edge of the canvas; the canvas is
    written in place, so a panic leaves the pixels set so far. *)
Definition calcRow (g : Globals) (canvas : Canvas) (x y : float) (row : Z)
    : result Canvas :=
  let sizeX := maxX (bounds canvas) in
  calcRow_loop g (Z.to_nat sizeX) 0 canvas x y row.

(** The abscissa at column [col] of a row that starts at [x]: [col]
    additions of the pixel size, each rounded. *)
Definition abscissa (g : Globals) (x : float) (col : Z) : float :=
  Nat.iter (Z.to_nat col) (fun x => x + pixelSize g) x.

End Functions.

End RowProgram.

(** The body of a row worker of the program that fills the canvas row by
    row, and rows worked one after the other. *)

Module RowWorkers.

Section Functions.
Context `{GoRuntime}.
Local Open Scope float_scope.

(** [xstart], [ystart] and the call of [calcRow] for one [row] received;
    [-sizeX/2] negates before it divides. *)
Definition workRow (g : RowProgram.Globals) (sizeX sizeY : Z)
    (centerX centerY : float) (canvas : Canvas) (row : Z) : result Canvas :=
  let xstart := centerX
                + F64.of_int (Z.quot (Int.wrap (- sizeX)) 2)
                  * RowProgram.pixelSize g in
  let ystart := centerY
                - F64.of_int (Int.sub row (Z.quot sizeY 2))
                  * RowProgram.pixelSize g in
  RowProgram.calcRow g canvas xstart ystart row.

(** The rows in the order in which they are worked. *)
Fixpoint workRows (g : RowProgram.Globals) (sizeX sizeY : Z)
    (centerX centerY : float) (rows : list Z) (canvas : Canvas)
    : result Canvas :=
  match rows with
  | [] => Ok canvas
  | row :: rest =>
      canvas' ← workRow g sizeX sizeY centerX centerY canvas row;
      workRows g sizeX sizeY centerX centerY rest canvas'
  end.

End Functions.

End RowWorkers.

(** ** [main] of the single-file program, up to the workers

    The check of the antialiasing level, the offsets, the palette: the
    package variables as the workers find them. *)

Module SingleFile.
Import Command.

Section Main.
Context `{Files}.

Definition prepare (iterations antialias : Z) (continuous : bool)
    (palettefile : string) : run Legacy.Globals :=
  if antialias <? 1 then Exits FlagAntiAlias
  else
    let subpixOffsets := Legacy.offsets antialias in
    palette ← loadPalette_global palettefile [];
    Returns (Legacy.mkGlobals iterations antialias continuous palette
               subpixOffsets).

End Main.

End SingleFile.

(** * Properties *)

(** ** Facts on [int] arithmetic *)

Module IntFacts.
Import Int.

Lemma wrap_id z : in_range z -> wrap z = z.
Proof.
  unfold in_range, wrap, min_int, max_int. intros H.
  rewrite Z.mod_small; lia.
Qed.

Lemma wrap_range z : in_range (wrap z).
Proof.
  unfold in_range, wrap, min_int, max_int.
  pose proof (Z.mod_pos_bound (z + 2 ^ 63) (2 ^ 64) ltac:(lia)). lia.
Qed.

Lemma in_rangeb_spec z : in_rangeb z = true <-> in_range z.
Proof. unfold in_rangeb, in_range. rewrite andb_true_iff. lia. Qed.

Lemma to_uint8_id z : 0 <= z < 256 -> to_uint8 z = z.
Proof. intros H. unfold to_uint8. apply Z.mod_small; lia. Qed.

Lemma add_id a b : in_range (a + b) -> add a b = a + b.
Proof. apply wrap_id. Qed.

Lemma sub_id a b : in_range (a - b) -> sub a b = a - b.
Proof. apply wrap_id. Qed.

Lemma mul_id a b : in_range (a * b) -> mul a b = a * b.
Proof. apply wrap_id. Qed.

(** Wrapping is a ring morphism onto the residues: a wrapped sum may be
    wrapped at any stage. *)
Lemma wrap_add_wrap a b : wrap (wrap a + b) = wrap (a + b).
Proof.
  unfold wrap.
  replace ((a + 2 ^ 63) mod 2 ^ 64 - 2 ^ 63 + b + 2 ^ 63)
    with ((a + 2 ^ 63) mod 2 ^ 64 + b) by lia.
  rewrite Zplus_mod_idemp_l. f_equal. f_equal. lia.
Qed.

Lemma rem_nonneg a b : 0 <= a -> 0 < b -> rem a b = Ok (a mod b).
Proof.
  intros Ha Hb. unfold rem.
  destruct (b =? 0) eqn:E; [lia|].
  by rewrite Z.rem_mod_nonneg by lia.
Qed.

Lemma div_pos a b : in_range a -> 0 < b -> div a b = Ok (Z.quot a b).
Proof.
  intros Ha Hb. unfold div.
  destruct (b =? 0) eqn:E; [lia|]. f_equal. apply wrap_id.
  unfold in_range, min_int, max_int in *.
  destruct (Z_le_gt_dec 0 a).
  - pose proof (Z.quot_pos a b ltac:(lia) ltac:(lia)).
    pose proof (Z.quot_le_upper_bound a b a ltac:(lia) ltac:(nia)). lia.
  - pose proof (Z.quot_opp_l a b ltac:(lia)) as Hopp.
    pose proof (Z.quot_pos (- a) b ltac:(lia) ltac:(lia)).
    pose proof (Z.quot_le_upper_bound (- a) b (- a) ltac:(lia) ltac:(nia)). lia.
Qed.

End IntFacts.

(** ** Facts on [float64] conversions *)

Module F64Facts.
Import F64.

Lemma digits2_pos_bounds m :
  2 ^ (Z.pos (digits2_pos m) - 1) <= Z.pos m < 2 ^ Z.pos (digits2_pos m).
Proof.
  induction m as [m IH | m IH |]; cbn [digits2_pos].
  - rewrite Pos2Z.inj_succ.
    replace (Z.succ (Z.pos (digits2_pos m)) - 1)
      with (Z.succ (Z.pos (digits2_pos m) - 1)) by lia.
    rewrite !Z.pow_succ_r by lia. lia.
  - rewrite Pos2Z.inj_succ.
    replace (Z.succ (Z.pos (digits2_pos m)) - 1)
      with (Z.succ (Z.pos (digits2_pos m) - 1)) by lia.
    rewrite !Z.pow_succ_r by lia. lia.
  - simpl. lia.
Qed.

Lemma digits2_pos_shift k m :
  digits2_pos (shift_pos k m) = (digits2_pos m + k)%positive.
Proof.
  unfold shift_pos. revert m.
  induction k as [|k IH] using Pos.peano_ind; intros m.
  - simpl. lia.
  - rewrite Pos.iter_succ. cbn [digits2_pos]. rewrite IH. lia.
Qed.

Lemma digits2_pos_le_53 m : Z.pos m < 2 ^ 53 -> Z.pos (digits2_pos m) <= 53.
Proof.
  intros Hm. pose proof (digits2_pos_bounds m) as [Hlo _].
  destruct (Z_le_gt_dec (Z.pos (digits2_pos m)) 53) as [|Hgt]; [done|].
  assert (2 ^ 53 <= 2 ^ (Z.pos (digits2_pos m) - 1))
    by (apply Z.pow_le_mono_r; lia).
  lia.
Qed.

(** A mantissa of exactly 53 digits needs no rounding. *)
Lemma binary_round_aux_53 s m e :
  Z.pos (digits2_pos m) = 53 -> -1074 <= e <= 971 ->
  binary_round_aux prec emax s (Z.pos m) e loc_Exact = S754_finite s m e.
Proof.
  intros Hd He. unfold binary_round_aux, shr_fexp, fexp, emin, Zdigits2.
  rewrite Hd.
  replace (Z.max (53 + e - prec) (3 - emax - prec) - e) with 0
    by (unfold prec, emax; lia).
  cbn [shr shr_record_of_loc shr_m loc_of_shr_record round_nearest_even Zdigits2].
  rewrite Hd.
  replace (Z.max (53 + e - prec) (3 - emax - prec) - e) with 0
    by (unfold prec, emax; lia).
  cbn [shr shr_record_of_loc shr_m].
  replace (e <=? emax - prec) with true; [done|].
  symmetry. apply Z.leb_le. unfold prec, emax. lia.
Qed.

(** Integers below [2^53] convert without rounding: the float is the integer
    scaled to a 53-digit mantissa. *)
Lemma Prim2SF_of_uint63 m :
  Z.pos m < 2 ^ 53 ->
  exists m' e,
    Prim2SF (PrimFloat.of_uint63 (Uint63.of_Z (Z.pos m))) = S754_finite false m' e
    /\ -52 <= e <= 0 /\ Z.pos m' = Z.pos m * 2 ^ (- e).
Proof.
  intros Hm.
  rewrite of_uint63_spec, Uint63.of_Z_spec.
  rewrite Z.mod_small by (change Uint63Axioms.wB with (2 ^ 63); lia).
  pose proof (digits2_pos_le_53 m Hm) as Hd.
  unfold binary_normalize, binary_round, shl_align, fexp, emin.
  replace (Z.max (Z.pos (digits2_pos m) + 0 - prec) (3 - emax - prec) - 0)
    with (Z.pos (digits2_pos m) - 53) by (unfold prec, emax; lia).
  destruct (Z.pos (digits2_pos m) - 53) as [|k|k] eqn:Hk; [| lia |].
  - exists m, 0. rewrite binary_round_aux_53 by lia. split; [done|]. simpl. lia.
  - exists (shift_pos k m), (Z.neg k).
    replace (Z.max (Z.pos (digits2_pos m) + 0 - prec) (3 - emax - prec))
      with (Z.neg k) by (unfold prec, emax; lia).
    fold (shift_pos k m).
    rewrite binary_round_aux_53.
    + split; [done|]. split; [lia|].
      rewrite shift_pos_correct, Zpower_pos_nat, Zpower_nat_Z.
      rewrite positive_nat_Z. change (- Z.neg k) with (Z.pos k). ring.
    + rewrite digits2_pos_shift. lia.
    + lia.
Qed.

Lemma of_int_pos z :
  1 <= z < 2 ^ 53 -> of_int z = PrimFloat.of_uint63 (Uint63.of_Z z).
Proof.
  intros Hz. unfold of_int.
  destruct (z =? Int.min_int) eqn:E1; [unfold Int.min_int in E1; lia|].
  destruct (z <? 0) eqn:E2; [lia | done].
Qed.

(** [int(float64(z)) = z] before the fraction is dropped. *)
Lemma trunc_of_int z : 0 <= z < 2 ^ 53 -> trunc (of_int z) = Some z.
Proof.
  intros Hz. destruct z as [|m|m]; [done | | lia].
  rewrite of_int_pos by lia. unfold trunc.
  destruct (Prim2SF_of_uint63 m ltac:(lia)) as (m' & e & -> & He & Hm').
  f_equal. destruct (0 <=? e) eqn:E.
  - assert (e = 0) as -> by lia. simpl in Hm'. lia.
  - rewrite Z.shiftr_div_pow2 by lia. rewrite Hm'.
    apply Z.div_mul. apply Z.pow_nonzero; lia.
Qed.

Lemma to_int_of_int `{GoRuntime} z : 0 <= z < 2 ^ 53 -> to_int (of_int z) = z.
Proof.
  intros Hz. unfold to_int. rewrite trunc_of_int by done.
  replace (Int.in_rangeb z) with true; [done|].
  symmetry. apply IntFacts.in_rangeb_spec.
  unfold Int.in_range, Int.min_int, Int.max_int. lia.
Qed.

(** A positive count is never mistaken for the sentinel. *)
Lemma of_int_nonzero z : 1 <= z < 2 ^ 53 -> (of_int z =? 0)%float = false.
Proof.
  intros Hz. destruct z as [|m|m]; [lia | | lia].
  rewrite of_int_pos by lia. rewrite FloatAxioms.eqb_spec.
  destruct (Prim2SF_of_uint63 m ltac:(lia)) as (m' & e & -> & _ & _).
  reflexivity.
Qed.

(** A float whose integer part is not zero is not the sentinel. *)
Lemma trunc_nonzero x z : trunc x = Some z -> z <> 0 -> (x =? 0)%float = false.
Proof.
  intros Ht Hz. rewrite FloatAxioms.eqb_spec. unfold trunc in Ht.
  destruct (Prim2SF x) as [s | s | | s m e]; simplify_eq.
  by destruct s.
Qed.

End F64Facts.

(** ** The evaluator, discrete mode *)

Section MandelSpec.
Context `{GoRuntime}.
Local Open Scope float_scope.

(** The recurrence as the specification words it: [a' = a² − b² + x],
    [b' = 2ab + y], the double product taken as [ab + ab]. *)
Definition orbit_step (x y : float) (z : float * float) : float * float :=
  let '(a, b) := z in (a * a - b * b + x, a * b + a * b + y).

(** The orbit when iteration [n + 1] begins; it starts at [(x, y)]. *)
Definition orbit (x y : float) (n : nat) : float * float :=
  Nat.iter n (orbit_step x y) (x, y).

(** [|z|²] has reached the bailout. *)
Definition exceeds (bail : float) (z : float * float) : bool :=
  let '(a, b) := z in bail <=? a * a + b * b.

(** [|z|²] as the loop computes it. *)
Definition norm2 (z : float * float) : float :=
  let '(a, b) := z in a * a + b * b.

Lemma orbit_S x y n : orbit x y (S n) = orbit_step x y (orbit x y n).
Proof. reflexivity. Qed.

Lemma iter_S_shift {X} (f : X -> X) n z :
  Nat.iter (S n) f z = Nat.iter n f (f z).
Proof. induction n as [|n IH]; [done|]. simpl in *. by rewrite IH. Qed.

(** The loop from an arbitrary point of the orbit: it stops at the first of
    the next [k] points that reaches the bailout. *)
Lemma mandel_loop_first x y c k : forall iters z j,
  (j < k)%nat ->
  exceeds (bailout c) (Nat.iter j (orbit_step x y) z) = true ->
  (forall i, (i < j)%nat ->
     exceeds (bailout c) (Nat.iter i (orbit_step x y) z) = false) ->
  Int.in_range (iters + Z.of_nat j) -> Int.in_range iters ->
  mandel_loop x y c k iters (fst z) (snd z)
  = escape_value c (iters + Z.of_nat j)
      (norm2 (Nat.iter j (orbit_step x y) z)).
Proof.
  induction k as [|k IH]; intros iters [a b] j Hj Hex Hbefore Hr Hr0; [lia|].
  destruct j as [|j].
  - simpl in *. rewrite Hex. by rewrite Z.add_0_r.
  - cbn [mandel_loop fst snd].
    pose proof (Hbefore 0%nat ltac:(lia)) as H0. simpl in H0. rewrite H0.
    assert (Hadd : Int.add iters 1 = (iters + 1)%Z).
    { apply IntFacts.wrap_id. unfold Int.in_range in *. lia. }
    rewrite Hadd, iter_S_shift. rewrite iter_S_shift in Hex.
    replace (iters + Z.of_nat (S j))%Z with (iters + 1 + Z.of_nat j)%Z by lia.
    apply (IH (iters + 1)%Z (orbit_step x y (a, b)) j).
    + lia.
    + exact Hex.
    + intros i Hi. specialize (Hbefore (S i) ltac:(lia)).
      by rewrite iter_S_shift in Hbefore.
    + unfold Int.in_range in *. lia.
    + unfold Int.in_range in *. lia.
Qed.

(** No point among the next [k] reaches the bailout: the loop runs out and
    the function returns [0.0]. *)
Lemma mandel_loop_none x y c k : forall iters z,
  (forall i, (i < k)%nat ->
     exceeds (bailout c) (Nat.iter i (orbit_step x y) z) = false) ->
  mandel_loop x y c k iters (fst z) (snd z) = 0.
Proof.
  induction k as [|k IH]; intros iters [a b] Hnone; [done|].
  cbn [mandel_loop fst snd].
  pose proof (Hnone 0%nat ltac:(lia)) as H0. simpl in H0. rewrite H0.
  apply (IH _ (orbit_step x y (a, b))).
  intros i Hi. specialize (Hnone (S i) ltac:(lia)).
  by rewrite iter_S_shift in Hnone.
Qed.

Lemma mandel_first x y c maxIters n :
  1 <= n <= maxIters -> maxIters < Int.max_int ->
  exceeds (bailout c) (orbit x y (Z.to_nat (n - 1))) = true ->
  (forall m, 1 <= m < n ->
     exceeds (bailout c) (orbit x y (Z.to_nat (m - 1))) = false) ->
  mandel maxIters x y c
  = escape_value c n (norm2 (orbit x y (Z.to_nat (n - 1)))).
Proof.
  intros Hn Hmax Hex Hbefore. unfold mandel.
  rewrite (mandel_loop_first x y c _ 1 (x, y) (Z.to_nat (n - 1))).
  - f_equal. lia.
  - lia.
  - exact Hex.
  - intros i Hi. specialize (Hbefore (Z.of_nat i + 1)%Z ltac:(lia)).
    by replace (Z.to_nat (Z.of_nat i + 1 - 1)) with i in Hbefore by lia.
  - unfold Int.in_range, Int.min_int, Int.max_int in *. lia.
  - unfold Int.in_range, Int.min_int, Int.max_int. lia.
Qed.

Lemma mandel_none x y c maxIters :
  (forall n, 1 <= n <= maxIters ->
     exceeds (bailout c) (orbit x y (Z.to_nat (n - 1))) = false) ->
  mandel maxIters x y c = 0.
Proof.
  intros Hnone. unfold mandel.
  apply (mandel_loop_none x y c _ 1 (x, y)).
  intros i Hi. specialize (Hnone (Z.of_nat i + 1)%Z ltac:(lia)).
  by replace (Z.to_nat (Z.of_nat i + 1 - 1)) with i in Hnone by lia.
Qed.

(** In discrete mode the result is the sentinel or a count in
    [1 .. maxIters]. *)
Lemma mandel_loop_discrete_range x y k : forall iters a b,
  Int.in_range iters -> Int.in_range (iters + Z.of_nat k) ->
  mandel_loop x y false k iters a b = 0
  \/ exists n, (iters <= n < iters + Z.of_nat k)%Z
              /\ mandel_loop x y false k iters a b = F64.of_int n.
Proof.
  induction k as [|k IH]; intros iters a b Hr Hr'; [by left|].
  cbn [mandel_loop].
  destruct (bailout false <=? a * a + b * b).
  - right. exists iters. split; [lia | done].
  - assert (Hadd : Int.add iters 1 = (iters + 1)%Z).
    { apply IntFacts.wrap_id. unfold Int.in_range in *. lia. }
    rewrite Hadd.
    destruct (IH (iters + 1)%Z (a * a - b * b + x) (a * b + a * b + y))
      as [H0 | (n & Hn & Hv)].
    + unfold Int.in_range in *. lia.
    + unfold Int.in_range in *. lia.
    + by left.
    + right. exists n. split; [lia | done].
Qed.

Lemma mandel_discrete_range x y maxIters :
  1 <= maxIters < Int.max_int ->
  mandel maxIters x y false = 0
  \/ exists n, (1 <= n <= maxIters)%Z /\ mandel maxIters x y false = F64.of_int n.
Proof.
  intros Hmax.
  destruct (mandel_loop_discrete_range x y (Z.to_nat maxIters) 1 x y)
    as [H0 | (n & Hn & Hv)].
  - unfold Int.in_range, Int.min_int, Int.max_int. lia.
  - unfold Int.in_range, Int.min_int, Int.max_int in *. lia.
  - by left.
  - right. exists n. split; [lia | exact Hv].
Qed.

End MandelSpec.

(** A runtime for the worked examples: conversions of unrepresentable values
    give the smallest [int], as the amd64 conversion instruction does, and
    [Log2] is exact on powers of two and rounds down to a whole number
    elsewhere. The theorems hold for every runtime; this one only lets the
    examples compute. *)
Module Example.

Local Open Scope float_scope.

Definition Log2_floor (x : float) : float :=
  match Prim2SF x with
  | S754_zero _ => neg_infinity
  | S754_finite false m e => F64.of_int (Z.log2 (Z.pos m) + e)
  | S754_finite true _ _ => nan
  | S754_infinity false => infinity
  | _ => nan
  end.

#[export] Instance runtime : GoRuntime := {|
  Log2 := Log2_floor;
  int_unrepresentable := fun _ => Int.min_int
|}.

Definition black : NRGBA := mkNRGBA 0 0 0 255.
Definition white : NRGBA := mkNRGBA 255 255 255 255.
Definition red : NRGBA := mkNRGBA 255 0 0 255.
Definition navy : NRGBA := mkNRGBA 0 0 128 255.

(** An uninitialised parameter set: 64 by 48 pixels around [-0.75]. *)
Definition params (antiAlias : Z) (continuous : bool) : Parameters :=
  mkParameters (-0.75) 0 0.5 50 64 48 antiAlias continuous
    [red; white; navy] black [].

End Example.

Section MandelClaims.
Context `{GoRuntime}.

(** C1. Discrete mode: [mandel] follows the recurrence [a' = a² − b² + x],
    [b' = 2ab + y] from [(x, y)] and returns the 1-based number of the first
    iteration at which [|z|²] has reached the bailout 4.0; when none of the
    [maxIters] iterations does it returns the sentinel 0; the result is
    always 0 or a count in [1 .. maxIters]; a point with [x² + y² >= 4]
    gives 1; and with [maxIters = 1] the result is 0 or 1, never more. *)
Theorem mandel_discrete_count (x y : float) (maxIters : Z) :
  1 <= maxIters < Int.max_int ->
  (forall n, 1 <= n <= maxIters ->
     exceeds 4%float (orbit x y (Z.to_nat (n - 1))) = true ->
     (forall m, 1 <= m < n -> exceeds 4%float (orbit x y (Z.to_nat (m - 1))) = false) ->
     mandel maxIters x y false = F64.of_int n)
  /\ ((forall n, 1 <= n <= maxIters ->
        exceeds 4%float (orbit x y (Z.to_nat (n - 1))) = false) ->
      mandel maxIters x y false = 0%float)
  /\ (mandel maxIters x y false = 0%float
      \/ exists n, 1 <= n <= maxIters /\ mandel maxIters x y false = F64.of_int n)
  /\ ((4 <=? x * x + y * y)%float = true -> mandel maxIters x y false = 1%float)
  /\ (maxIters = 1 ->
      mandel maxIters x y false = 0%float \/ mandel maxIters x y false = 1%float).
Proof.
  intros Hmax.
  pose proof (mandel_discrete_range x y maxIters Hmax) as Hrange.
  split; [|split; [|split; [|split]]].
  - intros n Hn Hex Hbefore.
    by rewrite (mandel_first x y false maxIters n Hn (proj2 Hmax) Hex Hbefore).
  - exact (mandel_none x y false maxIters).
  - exact Hrange.
  - intros Hesc. unfold mandel.
    destruct (Z.to_nat maxIters) as [|k] eqn:Hk; [lia|].
    cbn [mandel_loop bailout]. by rewrite Hesc.
  - intros ->. destruct Hrange as [H0 | (n & Hn & Hv)]; [by left|].
    right. by replace n with 1%Z in Hv by lia.
Qed.

End MandelClaims.

(** The point [(2, 0)] lies on the bailout circle and escapes at once. *)
Lemma mandel_discrete_count_witness :
  mandel (H := Example.runtime) 10 2 0 false = 1%float.
Proof.
  pose proof (mandel_discrete_count (H := Example.runtime) 2 0 10
                ltac:(unfold Int.max_int; lia)) as (_ & _ & _ & Hesc & _).
  apply Hesc. reflexivity.
Defined.


(** ** The colour mapper *)

Section GetColorSpec.
Context `{GoRuntime}.

Lemma len_pos {X} (l : list X) : l <> [] -> 0 < len l.
Proof. destruct l; [done|]. intros _. unfold len. simpl. lia. Qed.

Lemma index_lookup {X} (l : list X) i c :
  0 <= i -> l !! Z.to_nat i = Some c -> index l i = Ok c.
Proof.
  intros Hi Hl. unfold index.
  destruct (i <? 0) eqn:E; [lia|]. by rewrite Hl.
Qed.

(** An index reduced modulo the length always names an element. *)
Lemma lookup_mod {X} (l : list X) m :
  l <> [] -> exists c, l !! Z.to_nat (m mod len l) = Some c.
Proof.
  intros Hl. pose proof (len_pos l Hl) as Hlen.
  pose proof (Z.mod_pos_bound m (len l) Hlen) as Hm.
  apply lookup_lt_is_Some_2. unfold len in *. lia.
Qed.

(** The palette entry at [m % len(p.Palette)] for a non-negative [m]. *)
Lemma palette_entry (pal : list NRGBA) m c :
  0 <= m -> pal <> [] -> pal !! Z.to_nat (m mod len pal) = Some c ->
  (i ← Int.rem m (len pal); index pal i) = Ok c.
Proof.
  intros Hm Hpal Hc. pose proof (len_pos pal Hpal) as Hlen.
  rewrite IntFacts.rem_nonneg by lia. cbn [mbind result_bind].
  apply index_lookup; [|done].
  pose proof (Z.mod_pos_bound m (len pal) Hlen). lia.
Qed.

Lemma to_int_trunc x z :
  F64.trunc x = Some z -> Int.in_range z -> F64.to_int x = z.
Proof.
  intros Hx Hz. unfold F64.to_int. rewrite Hx.
  by apply IntFacts.in_rangeb_spec in Hz as ->.
Qed.

Lemma getColor_discrete_at p iters m c :
  Continuous p = false -> Palette p <> [] ->
  F64.trunc iters = Some m -> 1 <= m <= Int.max_int ->
  Palette p !! Z.to_nat (m mod len (Palette p)) = Some c ->
  getColor p iters = Ok (R c, G c, B c).
Proof.
  intros Hc Hpal Ht Hm Hlook. unfold getColor.
  rewrite (F64Facts.trunc_nonzero iters m Ht) by lia.
  rewrite Hc. cbn [negb].
  rewrite (to_int_trunc iters m Ht)
    by (unfold Int.in_range, Int.min_int, Int.max_int in *; lia).
  pose proof (palette_entry (Palette p) m c ltac:(lia) Hpal Hlook) as He.
  destruct (Int.rem m (len (Palette p))) as [i|msg]; cbn [mbind result_bind] in *;
    [|done].
  by rewrite He.
Qed.

(** C6. The sentinel 0, positive or negative zero, maps to the inside
    colour whatever the palette and the mode are. *)
Theorem getColor_sentinel (p : Parameters) :
  getColor p 0%float
  = Ok (R (InsideColor p), G (InsideColor p), B (InsideColor p))
  /\ getColor p (-0)%float
     = Ok (R (InsideColor p), G (InsideColor p), B (InsideColor p)).
Proof. split; reflexivity. Qed.

(** C5. Discrete mode with a non-empty palette: an escape value whose integer
    part [m] is at least 1 is mapped to the palette entry at index
    [m mod length]; an iteration count [n] as the evaluator returns it,
    [float64(n)], is mapped to the entry at [n mod length] with no further
    reduction; a palette of one colour gives that colour for every count. *)
Theorem getColor_discrete (p : Parameters) :
  Continuous p = false -> Palette p <> [] ->
  (forall iters m,
     F64.trunc iters = Some m -> 1 <= m <= Int.max_int ->
     exists c, Palette p !! Z.to_nat (m mod len (Palette p)) = Some c
               /\ getColor p iters = Ok (R c, G c, B c))
  /\ (forall n, 1 <= n < 2 ^ 53 ->
      exists c, Palette p !! Z.to_nat (n mod len (Palette p)) = Some c
                /\ getColor p (F64.of_int n) = Ok (R c, G c, B c))
  /\ (forall c n, Palette p = [c] -> 1 <= n < 2 ^ 53 ->
      getColor p (F64.of_int n) = Ok (R c, G c, B c)).
Proof.
  intros Hc Hpal.
  assert (Hgen : forall iters m,
     F64.trunc iters = Some m -> 1 <= m <= Int.max_int ->
     exists c, Palette p !! Z.to_nat (m mod len (Palette p)) = Some c
               /\ getColor p iters = Ok (R c, G c, B c)).
  { intros iters m Ht Hm.
    destruct (lookup_mod (Palette p) m Hpal) as [c Hlook].
    exists c. split; [done|]. by apply (getColor_discrete_at p iters m c). }
  assert (Hcount : forall n, 1 <= n < 2 ^ 53 ->
      exists c, Palette p !! Z.to_nat (n mod len (Palette p)) = Some c
                /\ getColor p (F64.of_int n) = Ok (R c, G c, B c)).
  { intros n Hn. apply Hgen.
    - apply F64Facts.trunc_of_int. lia.
    - unfold Int.max_int. lia. }
  split; [exact Hgen | split; [exact Hcount|]].
  intros c n Hone Hn. destruct (Hcount n Hn) as (c' & Hlook & ->).
  rewrite Hone in Hlook. unfold len in Hlook. simpl in Hlook.
  rewrite Z.mod_1_r in Hlook. simpl in Hlook. by simplify_eq.
Qed.

End GetColorSpec.

(** Three colours, count 7: index [7 mod 3 = 1], the white entry. *)
Lemma getColor_discrete_witness :
  getColor (H := Example.runtime) (Example.params 1 false) (F64.of_int 7)
  = Ok (255, 255, 255).
Proof.
  pose proof (getColor_discrete (H := Example.runtime) (Example.params 1 false)
                eq_refl ltac:(done)) as (_ & Hcount & _).
  destruct (Hcount 7 ltac:(lia)) as (c & Hlook & ->).
  vm_compute in Hlook. by simplify_eq.
Defined.

Section GetColorContinuous.
Context `{GoRuntime}.

(** The gradient between two palette entries. *)
Lemma getColor_continuous_at p iters f i1 i2 c1 c2 :
  Continuous p = true -> Palette p <> [] ->
  (iters =? 0)%float = false ->
  F64.trunc (F64.Floor iters) = Some f -> Int.min_int <= f < Int.max_int ->
  (i1, i2) = (if f <? 1 then (0, 1) else (f - 1, f)) ->
  Palette p !! Z.to_nat (i1 mod len (Palette p)) = Some c1 ->
  Palette p !! Z.to_nat (i2 mod len (Palette p)) = Some c2 ->
  getColor p iters
  = Ok (blend (R c1) (R c2) (iters - F64.Floor iters),
        blend (G c1) (G c2) (iters - F64.Floor iters),
        blend (B c1) (B c2) (iters - F64.Floor iters)).
Proof.
  intros Hc Hpal Hnz Ht Hf Hidx Hl1 Hl2. unfold getColor.
  rewrite Hnz, Hc. cbn [negb].
  rewrite (to_int_trunc _ f Ht) by (unfold Int.in_range; lia).
  rewrite (IntFacts.add_id f 1) by (unfold Int.in_range; lia).
  assert (Hsub : forall a, 1 <= a <= Int.max_int -> Int.sub a 1 = a - 1).
  { intros a Ha. apply IntFacts.sub_id.
    unfold Int.in_range, Int.min_int, Int.max_int in *. lia. }
  destruct (f <? 1) eqn:Ef; simplify_eq.
  - rewrite !Hsub by (unfold Int.max_int; lia).
    change (2 - 1) with 1. change (1 - 1) with 0.
    pose proof (palette_entry (Palette p) 0 c1 ltac:(lia) Hpal Hl1) as He1.
    pose proof (palette_entry (Palette p) 1 c2 ltac:(lia) Hpal Hl2) as He2.
    destruct (Int.rem 0 (len (Palette p))) as [j1|]; cbn [mbind result_bind] in *;
      [rewrite He1 | done].
    destruct (Int.rem 1 (len (Palette p))) as [j2|]; cbn [mbind result_bind] in *;
      [by rewrite He2 | done].
  - rewrite !Hsub by lia. replace (f + 1 - 1) with f by lia.
    pose proof (palette_entry (Palette p) (f - 1) c1 ltac:(lia) Hpal Hl1) as He1.
    pose proof (palette_entry (Palette p) f c2 ltac:(lia) Hpal Hl2) as He2.
    destruct (Int.rem (f - 1) (len (Palette p))) as [j1|];
      cbn [mbind result_bind] in *; [rewrite He1 | done].
    destruct (Int.rem f (len (Palette p))) as [j2|];
      cbn [mbind result_bind] in *; [by rewrite He2 | done].
Qed.

Lemma to_int_in_range x : Int.in_range (F64.to_int x).
Proof.
  unfold F64.to_int.
  destruct (F64.trunc x) as [z|]; [|apply IntFacts.wrap_range].
  destruct (Int.in_rangeb z) eqn:E; [|apply IntFacts.wrap_range].
  by apply IntFacts.in_rangeb_spec.
Qed.

(** The two entries and the gradient for the [int] [f] that the conversion
    of the floor yields, whatever it is. *)
Lemma getColor_continuous_any p iters c1 c2 :
  Continuous p = true -> Palette p <> [] ->
  (iters =? 0)%float = false ->
  let f := F64.to_int (F64.Floor iters) in
  Palette p !! Z.to_nat ((if f <? 1 then 0 else f - 1) mod len (Palette p))
  = Some c1 ->
  Palette p !! Z.to_nat ((if f <? 1 then 1 else f) mod len (Palette p))
  = Some c2 ->
  getColor p iters
  = Ok (blend (R c1) (R c2) (iters - F64.Floor iters),
        blend (G c1) (G c2) (iters - F64.Floor iters),
        blend (B c1) (B c2) (iters - F64.Floor iters)).
Proof.
  intros Hc Hpal Hnz f Hl1 Hl2. unfold getColor. rewrite Hnz, Hc. cbn [negb].
  pose proof (to_int_in_range (F64.Floor iters)) as Hr. fold f in Hr |- *.
  assert (Hpair : forall a b, 0 <= a -> 0 <= b ->
    Palette p !! Z.to_nat (a mod len (Palette p)) = Some c1 ->
    Palette p !! Z.to_nat (b mod len (Palette p)) = Some c2 ->
    (i1 ← Int.rem a (len (Palette p));
     c1 ← index (Palette p) i1;
     i2 ← Int.rem b (len (Palette p));
     c2 ← index (Palette p) i2;
     Ok (blend (R c1) (R c2) (iters - F64.Floor iters),
         blend (G c1) (G c2) (iters - F64.Floor iters),
         blend (B c1) (B c2) (iters - F64.Floor iters)))
    = Ok (blend (R c1) (R c2) (iters - F64.Floor iters),
          blend (G c1) (G c2) (iters - F64.Floor iters),
          blend (B c1) (B c2) (iters - F64.Floor iters))).
  { intros a b Ha Hb Ha1 Hb2.
    pose proof (palette_entry (Palette p) a c1 Ha Hpal Ha1) as He1.
    pose proof (palette_entry (Palette p) b c2 Hb Hpal Hb2) as He2.
    destruct (Int.rem a (len (Palette p))) as [j1|];
      cbn [mbind result_bind] in *; [rewrite He1 | done].
    destruct (Int.rem b (len (Palette p))) as [j2|];
      cbn [mbind result_bind] in *; [by rewrite He2 | done]. }
  destruct (f <? 1) eqn:Ef.
  - apply (Hpair 0 1); [lia | lia | done | done].
  - apply Z.ltb_ge in Ef.
    assert (Int.sub f 1 = f - 1) as ->.
    { apply IntFacts.sub_id. unfold Int.in_range, Int.min_int in *. lia. }
    assert (Int.sub (Int.add f 1) 1 = f) as ->.
    { unfold Int.sub, Int.add.
      change (Int.wrap (f + 1) - 1) with (Int.wrap (f + 1) + -1).
      rewrite IntFacts.wrap_add_wrap.
      replace (f + 1 + -1) with f by lia. by apply IntFacts.wrap_id. }
    apply Hpair; [lia | lia | done | done].
Qed.

(** A NaN or an infinity is its own floor, and the weight is NaN. *)
Lemma weight_nonfinite iters :
  F64.is_finite iters = false ->
  F64.Floor iters = iters /\ F64.is_nan (iters - F64.Floor iters) = true.
Proof.
  intros Hfin.
  assert (Hfloor : F64.Floor iters = iters).
  { unfold F64.Floor, F64.is_finite, F64.is_nan, F64.is_inf in *.
    by destruct (Prim2SF iters). }
  split; [done|]. rewrite Hfloor.
  unfold F64.is_finite, F64.is_nan, F64.is_inf in *. rewrite sub_spec.
  by destruct (Prim2SF iters) as [[] | [] | | [] ? ?].
Qed.

(** With a NaN weight the value converted is NaN, and the channel is what
    the platform makes of it. *)
Lemma blend_nan c1 c2 w :
  F64.is_nan w = true -> blend c1 c2 w = Int.wrap (int_unrepresentable nan).
Proof.
  intros Hw. unfold blend.
  assert (Hnan : (F64.of_uint8 c1 * (1 - w) + F64.of_uint8 c2 * w)%float = nan).
  { apply Prim2SF_inj. rewrite add_spec, !mul_spec, sub_spec.
    unfold F64.is_nan in Hw.
    destruct (Prim2SF w); try done.
    change (Prim2SF 1) with (S754_finite false 4503599627370496 (-52)).
    by destruct (Prim2SF (F64.of_uint8 c1)) as [[] | [] | | [] ? ?],
               (Prim2SF (F64.of_uint8 c2)) as [[] | [] | | [] ? ?]. }
  rewrite Hnan. reflexivity.
Qed.

(** C4, as the code has it. Continuous mode with a non-empty palette, for
    every escape value that is not the sentinel. With [f = int(floor(iters))]
    the two palette entries are those at [(f - 1) mod length] and
    [f mod length], the pair [(0, 1)] replacing [(f - 1, f)] before the
    modulus when [f < 1]; each channel is [c1·(1 − w) + c2·w] with
    [w = iters − floor(iters)], computed on its own and converted by [int],
    which drops the fraction. For a finite value whose floor fits an [int],
    [f] is that floor. For a NaN or an infinity the weight is NaN and every
    channel is [int(NaN)], the platform's choice and no gradient. *)
Theorem getColor_continuous (p : Parameters) (iters : float) :
  Continuous p = true -> Palette p <> [] ->
  (iters =? 0)%float = false ->
  let n := len (Palette p) in
  let f := F64.to_int (F64.Floor iters) in
  let w := (iters - F64.Floor iters)%float in
  let lerp c1 c2 :=
    F64.to_int (F64.of_uint8 c1 * (1 - w) + F64.of_uint8 c2 * w)%float in
  (exists c1 c2,
     Palette p !! Z.to_nat ((if f <? 1 then 0 else f - 1) mod n) = Some c1
     /\ Palette p !! Z.to_nat ((if f <? 1 then 1 else f) mod n) = Some c2
     /\ getColor p iters
        = Ok (lerp (R c1) (R c2), lerp (G c1) (G c2), lerp (B c1) (B c2)))
  /\ (forall z, F64.trunc (F64.Floor iters) = Some z -> Int.in_range z -> f = z)
  /\ (forall v z, F64.trunc v = Some z -> Int.in_range z -> F64.to_int v = z)
  /\ (F64.is_finite iters = false ->
      F64.Floor iters = iters /\ F64.is_nan w = true
      /\ f = Int.wrap (int_unrepresentable iters)
      /\ forall c1 c2, lerp c1 c2 = Int.wrap (int_unrepresentable nan)).
Proof.
  intros Hc Hpal Hnz n f w lerp.
  split; [|split; [|split]].
  - destruct (lookup_mod (Palette p) (if f <? 1 then 0 else f - 1) Hpal)
      as [c1 Hl1].
    destruct (lookup_mod (Palette p) (if f <? 1 then 1 else f) Hpal)
      as [c2 Hl2].
    exists c1, c2. split; [done|]. split; [done|].
    by apply getColor_continuous_any.
  - intros z Hz Hr. by apply to_int_trunc.
  - apply to_int_trunc.
  - intros Hfin. destruct (weight_nonfinite iters Hfin) as [Hfloor Hw].
    split; [done|]. split; [done|]. split.
    + unfold f. rewrite Hfloor. unfold F64.to_int, F64.trunc.
      unfold F64.is_finite, F64.is_nan, F64.is_inf in Hfin.
      by destruct (Prim2SF iters).
    + intros c1 c2. by apply blend_nan.
Qed.

End GetColorContinuous.

(** Escape value 4.25 over red, white, navy: entries [3 mod 3 = 0] and
    [4 mod 3 = 1], weight 0.25; green is [0·0.75 + 255·0.25 = 63.75], stored
    as 63. *)
Lemma getColor_continuous_witness :
  getColor (H := Example.runtime) (Example.params 1 true) 4.25%float
  = Ok (255, 63, 63).
Proof.
  pose proof (getColor_continuous (H := Example.runtime)
                (Example.params 1 true) 4.25%float eq_refl ltac:(done) eq_refl)
    as ((c1 & c2 & Hl1 & Hl2 & ->) & _).
  vm_compute in Hl1, Hl2. simplify_eq. reflexivity.
Defined.

(** The escape value −∞, which the evaluator returns for an infinite
    coordinate ([|z|²] is +∞ at the first iteration, and so are both
    logarithms): the weight [−∞ − (−∞)] is NaN, and where [int(NaN)] is the
    least [int], as on amd64, every channel is [-9223372036854775808],
    which lies between no two colours. *)
Lemma getColor_continuous_infinite_counterexample :
  mandel (H := Example.runtime) 50 infinity 0 true = neg_infinity
  /\ F64.is_nan (neg_infinity - F64.Floor neg_infinity)%float = true
  /\ getColor (H := Example.runtime) (Example.params 1 true) neg_infinity
     = Ok (-9223372036854775808, -9223372036854775808, -9223372036854775808).
Proof. repeat split; reflexivity. Qed.

(** Below 1 the pair of entries is clamped to the first two. *)
Example getColor_continuous_clamped :
  getColor (H := Example.runtime) (Example.params 1 true) (-2.5)%float
  = getColor (H := Example.runtime) (Example.params 1 true) 1.5%float.
Proof. reflexivity. Qed.

(** ** The evaluator, continuous mode *)

Section MandelContinuous.
Context `{GoRuntime}.

(** C2, as the code has it. Continuous mode: the bailout is the constant
    [2 << 16 = 131072 = 2^17]; when [|z|²] first reaches it, at iteration
    [n], the result is [n + 1 − log2(log2(|z|²)·0.5)]; when none of the
    [maxIters] iterations reaches it the result is the sentinel 0. *)
Theorem mandel_continuous_value (x y : float) (maxIters : Z) :
  1 <= maxIters < Int.max_int ->
  bailout true = 131072%float
  /\ (forall n, 1 <= n <= maxIters ->
      exceeds 131072 (orbit x y (Z.to_nat (n - 1))) = true ->
      (forall m, 1 <= m < n ->
         exceeds 131072 (orbit x y (Z.to_nat (m - 1))) = false) ->
      mandel maxIters x y true
      = (F64.of_int (n + 1)
         - Log2 (Log2 (norm2 (orbit x y (Z.to_nat (n - 1)))) * 0.5))%float)
  /\ ((forall n, 1 <= n <= maxIters ->
         exceeds 131072 (orbit x y (Z.to_nat (n - 1))) = false) ->
      mandel maxIters x y true = 0%float).
Proof.
  intros Hmax. split; [reflexivity|]. split.
  - intros n Hn Hex Hbefore.
    rewrite (mandel_first x y true maxIters n Hn (proj2 Hmax) Hex Hbefore).
    unfold escape_value. rewrite IntFacts.add_id; [done|].
    unfold Int.in_range, Int.min_int, Int.max_int in *. lia.
  - exact (mandel_none x y true maxIters).
Qed.

End MandelContinuous.

(** The point [(512, 0)]: [|z|² = 2^18] reaches the bailout at iteration 1,
    and the result is [2 − log2(18·0.5)], 2 − 3 with the example runtime's
    whole-number logarithm. *)
Lemma mandel_continuous_value_witness :
  mandel (H := Example.runtime) 10 512 0 true = (-1)%float.
Proof.
  pose proof (mandel_continuous_value (H := Example.runtime) 512 0 10
                ltac:(unfold Int.max_int; lia)) as (_ & Hesc & _).
  rewrite (Hesc 1 ltac:(lia) eq_refl ltac:(lia)). reflexivity.
Defined.

(** C2, as the claim words it, fails: the bailout is not [2^16 = 65536]. At
    [(300, 0)] with one iteration allowed, [|z|² = 90000] exceeds [2^16], so
    the claim has the evaluator return [1 + 1 − log2(log2(90000)/2)], which
    is not zero; the evaluator returns the sentinel 0, because 90000 is below
    the actual bailout 131072. *)
Lemma mandel_continuous_bailout_counterexample :
  (bailout true =? 65536)%float = false
  /\ bailout true = 131072%float
  /\ exceeds 65536 (orbit 300 0 0) = true
  /\ exceeds (bailout true) (orbit 300 0 0) = false
  /\ mandel (H := Example.runtime) 1 300 0 true = 0%float
  /\ (escape_value (H := Example.runtime) true 1 (norm2 (orbit 300 0 0)) =? 0)%float
     = false.
Proof. repeat split; reflexivity. Qed.

(** ** The pixel sampler *)

(** The invariants of the data model. *)
Record Valid (p : Parameters) : Prop := {
  valid_antialias : 1 <= AntiAlias p;
  valid_palette : Palette p <> [];
  valid_iterations : 1 <= MaxIterations p;
  valid_width : 1 <= SizeX p;
  valid_height : 1 <= SizeY p;
  valid_magnification : (0 <? Magnification p)%float = true
}.

(** What the types and the machine add: channels are [uint8], the sizes are
    [int], iteration counts convert to [float64] without rounding, and the
    [AntiAlias]² samples of one pixel can be counted and summed in an
    [int]. *)
Record Limits (p : Parameters) : Prop := {
  limit_antialias : AntiAlias p <= 2 ^ 24;
  limit_iterations : MaxIterations p < 2 ^ 53;
  limit_width : SizeX p <= Int.max_int;
  limit_height : SizeY p <= Int.max_int;
  limit_palette : Forall wf_color (Palette p);
  limit_inside : wf_color (InsideColor p)
}.

(** [Init] has run: the offsets are those derived from [AntiAlias]. *)
Definition Initialised (p : Parameters) : Prop :=
  subpixOffsets p = makeOffsets (AntiAlias p).

(** The pairs [(xoffset, yoffset)] in the order the nested loops visit them:
    the full cross product, rows of equal [yoffset] first. *)
Definition cross (offs : list float) : list (float * float) :=
  yoffset ← offs; xoffset ← offs; [(xoffset, yoffset)].

Definition Zsum (l : list Z) : Z := foldr Z.add 0 l.

Definition chanR (s : Z * Z * Z) : Z := s.1.1.
Definition chanG (s : Z * Z * Z) : Z := s.1.2.
Definition chanB (s : Z * Z * Z) : Z := s.2.

Definition channels_in (lo hi : Z) (s : Z * Z * Z) : Prop :=
  lo <= chanR s <= hi /\ lo <= chanG s <= hi /\ lo <= chanB s <= hi.

Section CalcPixelSpec.
Context `{GoRuntime}.

Lemma to_int_range x : Int.in_range (F64.to_int x).
Proof.
  unfold F64.to_int.
  destruct (F64.trunc x) as [z|]; [|apply IntFacts.wrap_range].
  destruct (Int.in_rangeb z) eqn:E; [|apply IntFacts.wrap_range].
  by apply IntFacts.in_rangeb_spec.
Qed.

Lemma makeOffsets_length aa : length (makeOffsets aa) = Z.to_nat aa.
Proof. unfold makeOffsets. by rewrite length_fmap, length_seqZ. Qed.

Lemma cross_row_length (inner : list float) (yoffset : float) :
  length (xoffset ← inner; [(xoffset, yoffset)]) = length inner.
Proof.
  induction inner as [|i inner IH]; [done|].
  cbn [mbind list_bind] in *. rewrite length_app, IH. done.
Qed.

Lemma cross_rows_length (ys inner : list float) :
  length (yoffset ← ys; xoffset ← inner; [(xoffset, yoffset)])
  = (length ys * length inner)%nat.
Proof.
  induction ys as [|yo ys IH]; [done|].
  cbn [mbind list_bind]. rewrite length_app.
  cbn [mbind] in IH. rewrite IH.
  pose proof (cross_row_length inner yo) as Hrow. cbn [mbind] in Hrow.
  rewrite Hrow. simpl. lia.
Qed.

Lemma cross_length (offs : list float) :
  length (cross offs) = (length offs * length offs)%nat.
Proof. apply cross_rows_length. Qed.

(** The accumulators after a run of samples: wrapped sums. *)
Lemma foldl_accumulate ss : forall r g b,
  Int.in_range r -> Int.in_range g -> Int.in_range b ->
  foldl accumulate (r, g, b) ss
  = (Int.wrap (r + Zsum (chanR <$> ss)),
     Int.wrap (g + Zsum (chanG <$> ss)),
     Int.wrap (b + Zsum (chanB <$> ss))).
Proof.
  induction ss as [|[[rs gs] bs] ss IH]; intros r g b Hr Hg Hb.
  - simpl. rewrite !Z.add_0_r. by rewrite !IntFacts.wrap_id.
  - cbn [foldl accumulate]. rewrite IH by apply IntFacts.wrap_range.
    unfold Int.add. rewrite !IntFacts.wrap_add_wrap.
    cbn [fmap list_fmap Zsum foldr chanR chanG chanB fst snd].
    by rewrite !Z.add_assoc.
Qed.

Lemma loop_x_ok p col row yoffset xs : forall ss acc,
  Forall2 (fun xoffset s => sampleColor p col row xoffset yoffset = Ok s) xs ss ->
  loop_x p col row yoffset xs acc = Ok (foldl accumulate acc ss).
Proof.
  induction xs as [|xo xs IH]; intros ss acc Hss.
  - by apply Forall2_nil_inv_l in Hss as ->.
  - apply Forall2_cons_inv_l in Hss as (s & ss' & Hs & Hss' & ->).
    cbn [loop_x]. rewrite Hs. cbn [mbind result_bind foldl]. by apply IH.
Qed.

Lemma loop_y_ok p col row ys : forall ss acc,
  Forall2 (fun o s => sampleColor p col row o.1 o.2 = Ok s)
    (yoffset ← ys; xoffset ← subpixOffsets p; [(xoffset, yoffset)]) ss ->
  loop_y p col row ys acc = Ok (foldl accumulate acc ss).
Proof.
  induction ys as [|yo ys IH]; intros ss acc Hss.
  - by apply Forall2_nil_inv_l in Hss as ->.
  - cbn [mbind list_bind] in Hss.
    apply Forall2_app_inv_l in Hss as (ss1 & ss2 & Hss1 & Hss2 & ->).
    cbn [loop_y].
    rewrite (loop_x_ok p col row yo (subpixOffsets p) ss1 acc).
    + cbn [mbind result_bind]. rewrite foldl_app. by apply IH.
    + clear -Hss1. revert ss1 Hss1.
      induction (subpixOffsets p) as [|xo xs IHx]; intros ss1 Hss1.
      * apply Forall2_nil_inv_l in Hss1 as ->. constructor.
      * cbn [mbind list_bind] in Hss1. simpl in Hss1.
        apply Forall2_cons_inv_l in Hss1 as (s & ss' & Hs & Hss' & ->).
        constructor; [exact Hs | by apply IHx].
Qed.

Lemma Forall2_total {X Y} (P : X -> Y -> Prop) (l : list X) :
  (forall a, exists b, P a b) -> exists l', Forall2 P l l'.
Proof.
  intros Htot. induction l as [|a l [l' IH]]; [by exists []|].
  destruct (Htot a) as [b Hb]. exists (b :: l'). by constructor.
Qed.

(** In continuous mode the clamp keeps both indices inside the palette: the
    mapper returns for every escape value. *)
Lemma getColor_continuous_total p iters :
  Continuous p = true -> Palette p <> [] -> wf_color (InsideColor p) ->
  exists s, getColor p iters = Ok s
            /\ Int.in_range (chanR s) /\ Int.in_range (chanG s)
            /\ Int.in_range (chanB s).
Proof.
  intros Hc Hpal Hin. unfold getColor.
  destruct (iters =? 0)%float.
  { eexists. split; [done|]. destruct Hin as (HR & HG & HB & _).
    unfold chanR, chanG, chanB, rgb, uint8_range, Int.in_range, Int.min_int,
      Int.max_int in *. simpl. lia. }
  rewrite Hc. cbn [negb].
  pose proof (to_int_range (F64.Floor iters)) as Hr.
  set (f := F64.to_int (F64.Floor iters)) in *.
  assert (Hpair : forall a b, 0 <= a -> 0 <= b ->
    exists s,
      (i1 ← Int.rem a (len (Palette p));
       c1 ← index (Palette p) i1;
       i2 ← Int.rem b (len (Palette p));
       c2 ← index (Palette p) i2;
       Ok (blend (R c1) (R c2) (iters - F64.Floor iters),
           blend (G c1) (G c2) (iters - F64.Floor iters),
           blend (B c1) (B c2) (iters - F64.Floor iters))) = Ok s
      /\ Int.in_range (chanR s) /\ Int.in_range (chanG s)
      /\ Int.in_range (chanB s)).
  { intros a b Ha Hb.
    destruct (lookup_mod (Palette p) a Hpal) as [c1 Hl1].
    destruct (lookup_mod (Palette p) b Hpal) as [c2 Hl2].
    pose proof (palette_entry (Palette p) a c1 Ha Hpal Hl1) as He1.
    pose proof (palette_entry (Palette p) b c2 Hb Hpal Hl2) as He2.
    destruct (Int.rem a (len (Palette p))) as [j1|]; cbn [mbind result_bind] in *;
      [rewrite He1 | done].
    destruct (Int.rem b (len (Palette p))) as [j2|]; cbn [mbind result_bind] in *;
      [rewrite He2 | done].
    eexists. split; [done|].
    unfold chanR, chanG, chanB, blend. simpl. repeat split; apply to_int_range. }
  destruct (f <? 1) eqn:Ef.
  - apply (Hpair 0 1); lia.
  - assert (Int.sub f 1 = f - 1) as ->.
    { apply IntFacts.sub_id. unfold Int.in_range, Int.min_int in *. lia. }
    assert (Int.sub (Int.add f 1) 1 = f) as ->.
    { unfold Int.sub, Int.add.
      change (Int.wrap (f + 1) - 1) with (Int.wrap (f + 1) + -1).
      rewrite IntFacts.wrap_add_wrap.
      replace (f + 1 + -1) with f by lia. by apply IntFacts.wrap_id. }
    apply Hpair; lia.
Qed.

(** In discrete mode the evaluator's result is the sentinel or an exact
    count, and the mapper returns a palette or inside colour. *)
Lemma getColor_discrete_total p iters :
  Continuous p = false -> Palette p <> [] ->
  Forall wf_color (Palette p) -> wf_color (InsideColor p) ->
  iters = 0%float \/ (exists n, 1 <= n < 2 ^ 53 /\ iters = F64.of_int n) ->
  exists s, getColor p iters = Ok s /\ channels_in 0 255 s.
Proof.
  intros Hc Hpal Hwf Hin [-> | (n & Hn & ->)].
  - eexists. split; [reflexivity|].
    destruct Hin as (HR & HG & HB & _).
    unfold channels_in, chanR, chanG, chanB, uint8_range in *. simpl. lia.
  - destruct (lookup_mod (Palette p) n Hpal) as [c Hl].
    exists (R c, G c, B c). split.
    + apply (getColor_discrete_at p _ n c); try done.
      * apply F64Facts.trunc_of_int. lia.
      * unfold Int.max_int. lia.
    + apply list_elem_of_lookup_2 in Hl.
      rewrite Forall_forall in Hwf. destruct (Hwf c Hl) as (HR & HG & HB & _).
      unfold channels_in, chanR, chanG, chanB, uint8_range in *. simpl. lia.
Qed.

(** Under the invariants every sample gets a colour. *)
Lemma sampleColor_total p col row xoffset yoffset :
  Valid p -> Limits p ->
  exists s, sampleColor p col row xoffset yoffset = Ok s
            /\ Int.in_range (chanR s) /\ Int.in_range (chanG s)
            /\ Int.in_range (chanB s)
            /\ (Continuous p = false -> channels_in 0 255 s).
Proof.
  intros Hv Hl. unfold sampleColor.
  destruct (Continuous p) eqn:Hc.
  - destruct (getColor_continuous_total p
                (mandel (MaxIterations p) (plane_x p col xoffset)
                   (plane_y p row yoffset) true) Hc
                (valid_palette p Hv) (limit_inside p Hl)) as (s & Hs & Hr).
    exists s. split; [done|]. by destruct Hr as (? & ? & ?).
  - destruct (getColor_discrete_total p
                (mandel (MaxIterations p) (plane_x p col xoffset)
                   (plane_y p row yoffset) false) Hc
                (valid_palette p Hv) (limit_palette p Hl) (limit_inside p Hl))
      as (s & Hs & Hr).
    + destruct (mandel_discrete_range (plane_x p col xoffset)
                  (plane_y p row yoffset) (MaxIterations p))
        as [H0 | (n & Hn & Hval)].
      * pose proof (valid_iterations p Hv). pose proof (limit_iterations p Hl).
        unfold Int.max_int. lia.
      * by left.
      * right. exists n. split; [|done].
        pose proof (limit_iterations p Hl). lia.
    + exists s. split; [done|].
      unfold channels_in, Int.in_range, Int.min_int, Int.max_int in *.
      repeat split; try lia.
Qed.

End CalcPixelSpec.

Section CalcPixelClaims.
Context `{GoRuntime}.

Lemma minsize_min p : minsize p = Z.min (SizeX p) (SizeY p).
Proof. unfold minsize. destruct (SizeY p <? SizeX p) eqn:E; lia. Qed.

(** For a pixel of the image no [int] operation of the coordinate
    conversion wraps. *)
Lemma plane_x_formula p col xoffset :
  1 <= SizeX p <= Int.max_int -> 1 <= SizeY p -> 0 <= col < SizeX p ->
  plane_x p col xoffset
  = (CenterX p
     + (F64.of_int (col - SizeX p ÷ 2) + xoffset)
       / (Magnification p * F64.of_int (Z.min (SizeX p) (SizeY p) - 1)))%float.
Proof.
  intros Hx Hy Hcol. unfold plane_x. rewrite minsize_min.
  pose proof (Z.quot_pos (SizeX p) 2 ltac:(lia) ltac:(lia)).
  pose proof (Z.quot_le_upper_bound (SizeX p) 2 (SizeX p) ltac:(lia) ltac:(lia)).
  rewrite !IntFacts.sub_id; [done | |];
    unfold Int.in_range, Int.min_int, Int.max_int in *; lia.
Qed.

Lemma plane_y_formula p row yoffset :
  1 <= SizeX p -> 1 <= SizeY p <= Int.max_int -> 0 <= row < SizeY p ->
  plane_y p row yoffset
  = (CenterY p
     - (F64.of_int (row - SizeY p ÷ 2) - yoffset)
       / (Magnification p * F64.of_int (Z.min (SizeX p) (SizeY p) - 1)))%float.
Proof.
  intros Hx Hy Hrow. unfold plane_y. rewrite minsize_min.
  pose proof (Z.quot_pos (SizeY p) 2 ltac:(lia) ltac:(lia)).
  pose proof (Z.quot_le_upper_bound (SizeY p) 2 (SizeY p) ltac:(lia) ltac:(lia)).
  rewrite !IntFacts.sub_id; [done | |];
    unfold Int.in_range, Int.min_int, Int.max_int in *; lia.
Qed.

Lemma Zsum_bounds (l : list Z) hi :
  Forall (fun z => 0 <= z <= hi) l -> 0 <= Zsum l <= hi * Z.of_nat (length l).
Proof.
  induction 1 as [|z l Hz _ IH]; [simpl; lia|].
  cbn [Zsum foldr length] in *. fold (Zsum l). lia.
Qed.

(** One averaged channel of a discrete-mode pixel is computed without any
    wrap-around and fits a [uint8]. *)
Lemma average_exact (l : list Z) (n : Z) :
  Forall (fun z => 0 <= z <= 255) l -> Z.of_nat (length l) = n ->
  1 <= n <= 2 ^ 48 ->
  Int.to_uint8 (Int.wrap (Zsum l) ÷ n) = Zsum l ÷ n.
Proof.
  intros Hl Hlen Hn. pose proof (Zsum_bounds l 255 Hl) as Hs. rewrite Hlen in Hs.
  rewrite IntFacts.wrap_id
    by (unfold Int.in_range, Int.min_int, Int.max_int; lia).
  apply IntFacts.to_uint8_id.
  pose proof (Z.quot_pos (Zsum l) n ltac:(lia) ltac:(lia)).
  pose proof (Z.quot_le_upper_bound (Zsum l) n 255 ltac:(lia) ltac:(lia)). lia.
Qed.

(** The sampler, once every sample of the cross product has a colour. *)
Lemma CalcPixel_of_samples p col row ss :
  len (subpixOffsets p) = AntiAlias p -> 1 <= AntiAlias p <= 2 ^ 24 ->
  Forall2 (fun o s => sampleColor p col row o.1 o.2 = Ok s)
    (cross (subpixOffsets p)) ss ->
  CalcPixel p col row
  = Ok (mkNRGBA
          (Int.to_uint8 (Int.wrap (Zsum (chanR <$> ss)) ÷ (AntiAlias p * AntiAlias p)))
          (Int.to_uint8 (Int.wrap (Zsum (chanG <$> ss)) ÷ (AntiAlias p * AntiAlias p)))
          (Int.to_uint8 (Int.wrap (Zsum (chanB <$> ss)) ÷ (AntiAlias p * AntiAlias p)))
          255).
Proof.
  intros Hlen Haa Hss. unfold CalcPixel.
  rewrite Hlen, Z.eqb_refl. cbn [negb].
  rewrite (loop_y_ok p col row (subpixOffsets p) ss (0, 0, 0) Hss).
  rewrite foldl_accumulate
    by (unfold Int.in_range, Int.min_int, Int.max_int; lia).
  cbn [mbind result_bind]. rewrite !Z.add_0_l.
  assert (Hsq : 1 <= AntiAlias p * AntiAlias p <= 2 ^ 48) by nia.
  rewrite IntFacts.mul_id
    by (unfold Int.in_range, Int.min_int, Int.max_int; lia).
  rewrite !IntFacts.div_pos by (apply IntFacts.wrap_range || lia).
  reflexivity.
Qed.

End CalcPixelClaims.

(** The plane coordinates of a sample as the specification writes them, with
    [width/2] the integer quotient and [minDimension] the smaller size. *)
Definition spec_x (p : Parameters) (col : Z) (xOffset : float) : float :=
  (CenterX p
   + (F64.of_int (col - SizeX p ÷ 2) + xOffset)
     / (Magnification p * F64.of_int (Z.min (SizeX p) (SizeY p) - 1)))%float.

Definition spec_y (p : Parameters) (row : Z) (yOffset : float) : float :=
  (CenterY p
   - (F64.of_int (row - SizeY p ÷ 2) - yOffset)
     / (Magnification p * F64.of_int (Z.min (SizeX p) (SizeY p) - 1)))%float.

(** One sample: the evaluator, then the colour mapper. *)
Definition spec_sample `{GoRuntime} (p : Parameters) (col row : Z)
    (xOffset yOffset : float) : result (Z * Z * Z) :=
  getColor p
    (mandel (MaxIterations p) (spec_x p col xOffset) (spec_y p row yOffset)
       (Continuous p)).

(** The colour a pixel gets from channel sums over [n] samples. *)
Definition averaged (ss : list (Z * Z * Z)) (n : Z) : NRGBA :=
  mkNRGBA (Zsum (chanR <$> ss) ÷ n) (Zsum (chanG <$> ss) ÷ n)
    (Zsum (chanB <$> ss) ÷ n) 255.

(** The same with the conversions the code applies: the [int] sums wrap and
    [uint8] keeps the low eight bits of each quotient. *)
Definition averaged_wrapped (ss : list (Z * Z * Z)) (n : Z) : NRGBA :=
  mkNRGBA (Int.to_uint8 (Int.wrap (Zsum (chanR <$> ss)) ÷ n))
    (Int.to_uint8 (Int.wrap (Zsum (chanG <$> ss)) ÷ n))
    (Int.to_uint8 (Int.wrap (Zsum (chanB <$> ss)) ÷ n)) 255.

Section CalcPixelTheorems.
Context `{GoRuntime}.

Lemma sampleColor_spec p col row xoffset yoffset :
  Valid p -> Limits p -> 0 <= col < SizeX p -> 0 <= row < SizeY p ->
  sampleColor p col row xoffset yoffset = spec_sample p col row xoffset yoffset.
Proof.
  intros Hv Hl Hcol Hrow. unfold sampleColor, spec_sample, spec_x, spec_y.
  pose proof (valid_width p Hv). pose proof (valid_height p Hv).
  pose proof (limit_width p Hl). pose proof (limit_height p Hl).
  rewrite plane_x_formula, plane_y_formula by lia. done.
Qed.

Lemma Initialised_len p :
  Initialised p -> 1 <= AntiAlias p -> len (subpixOffsets p) = AntiAlias p.
Proof.
  intros Hi Haa. unfold len. rewrite Hi, makeOffsets_length. lia.
Qed.

(** The samples of a pixel, each with the facts the averaging needs. *)
Lemma samples_exist p col row :
  Valid p -> Limits p -> Initialised p ->
  0 <= col < SizeX p -> 0 <= row < SizeY p ->
  exists ss,
    Forall2 (fun o s => sampleColor p col row o.1 o.2 = Ok s)
      (cross (subpixOffsets p)) ss
    /\ Forall2 (fun o s => spec_sample p col row o.1 o.2 = Ok s)
      (cross (subpixOffsets p)) ss
    /\ Z.of_nat (length ss) = AntiAlias p * AntiAlias p
    /\ Forall (fun s => Int.in_range (chanR s) /\ Int.in_range (chanG s)
                        /\ Int.in_range (chanB s)) ss
    /\ (Continuous p = false -> Forall (channels_in 0 255) ss).
Proof.
  intros Hv Hl Hi Hcol Hrow.
  destruct (Forall2_total
    (fun (o : float * float) s =>
       sampleColor p col row o.1 o.2 = Ok s
       /\ Int.in_range (chanR s) /\ Int.in_range (chanG s)
       /\ Int.in_range (chanB s)
       /\ (Continuous p = false -> channels_in 0 255 s))
    (cross (subpixOffsets p))) as [ss Hss].
  { intros [xo yo]. apply sampleColor_total; done. }
  exists ss. split; [|split; [|split; [|split]]].
  - eapply Forall2_impl; [exact Hss|]. by intros o s (? & _).
  - eapply Forall2_impl; [exact Hss|]. intros o s (Hs & _).
    by rewrite <- (sampleColor_spec p col row o.1 o.2).
  - rewrite <- (Forall2_length _ _ _ Hss), cross_length.
    pose proof (Initialised_len p Hi (valid_antialias p Hv)) as Hlen.
    unfold len in Hlen. rewrite Nat2Z.inj_mul, Hlen. done.
  - apply (Forall2_Forall_r _ _ _ _ Hss). apply Forall_forall.
    by intros o _ s (_ & ? & ? & ? & _).
  - intros Hc. apply (Forall2_Forall_r _ _ _ _ Hss). apply Forall_forall.
    intros o _ s (_ & _ & _ & _ & Hch). by apply Hch.
Qed.

End CalcPixelTheorems.

Section CalcPixelMain.
Context `{GoRuntime}.

(** C3. For a pixel of an initialised, valid parameter set the sampler
    evaluates every pair of the [AntiAlias]² cross product of offsets at
    [x = centerX + (col − width/2 + xOffset) / (magnification·(minDimension − 1))],
    [y = centerY − (row − height/2 − yOffset) / (magnification·(minDimension − 1))],
    sums the three channels, divides each sum by [AntiAlias]² with the
    quotient truncated, and returns the colour with alpha 255. The [int]
    sums and the [uint8] conversion are the identity in discrete mode. With
    [AntiAlias = 1] the result is the colour of the one sample at offset
    zero. *)
Theorem CalcPixel_average (p : Parameters) (col row : Z) :
  Valid p -> Limits p -> Initialised p ->
  0 <= col < SizeX p -> 0 <= row < SizeY p ->
  exists samples : list (Z * Z * Z),
    Forall2 (fun o s => spec_sample p col row o.1 o.2 = Ok s)
      (cross (subpixOffsets p)) samples
    /\ Z.of_nat (length samples) = AntiAlias p * AntiAlias p
    /\ CalcPixel p col row
       = Ok (averaged_wrapped samples (AntiAlias p * AntiAlias p))
    /\ (Continuous p = false ->
        CalcPixel p col row = Ok (averaged samples (AntiAlias p * AntiAlias p)))
    /\ (AntiAlias p = 1 ->
        exists s, spec_sample p col row 0 0 = Ok s
          /\ CalcPixel p col row
             = Ok (mkNRGBA (Int.to_uint8 (chanR s)) (Int.to_uint8 (chanG s))
                     (Int.to_uint8 (chanB s)) 255)
          /\ (Continuous p = false ->
              CalcPixel p col row = Ok (mkNRGBA (chanR s) (chanG s) (chanB s) 255))).
Proof.
  intros Hv Hl Hi Hcol Hrow.
  destruct (samples_exist p col row Hv Hl Hi Hcol Hrow)
    as (ss & Hcode & Hspec & Hlen & Hrange & Hdisc).
  pose proof (valid_antialias p Hv) as Haa1.
  pose proof (limit_antialias p Hl) as Haa2.
  pose proof (CalcPixel_of_samples p col row ss
                (Initialised_len p Hi Haa1) ltac:(lia) Hcode) as Hcalc.
  fold (averaged_wrapped ss (AntiAlias p * AntiAlias p)) in Hcalc.
  assert (Hsq : 1 <= AntiAlias p * AntiAlias p <= 2 ^ 48) by nia.
  assert (Hexact : Continuous p = false ->
            averaged_wrapped ss (AntiAlias p * AntiAlias p)
            = averaged ss (AntiAlias p * AntiAlias p)).
  { intros Hc. specialize (Hdisc Hc). unfold averaged_wrapped, averaged.
    rewrite !average_exact; try done; try (by rewrite length_fmap).
    - apply Forall_fmap. eapply Forall_impl; [exact Hdisc|].
      by intros s (_ & _ & ?).
    - apply Forall_fmap. eapply Forall_impl; [exact Hdisc|].
      by intros s (_ & ? & _).
    - apply Forall_fmap. eapply Forall_impl; [exact Hdisc|].
      by intros s (? & _). }
  exists ss. split; [done|]. split; [done|]. split; [done|].
  split; [intros Hc; by rewrite Hcalc, Hexact|].
  intros Hone.
  assert (Hoffs : subpixOffsets p = [0%float]) by (by rewrite Hi, Hone).
  rewrite Hoffs in Hspec. unfold cross in Hspec. cbn [mbind list_bind app] in Hspec.
  apply Forall2_cons_inv_l in Hspec as (s & ss' & Hs & Hnil & ->).
  apply Forall2_nil_inv_l in Hnil as ->.
  exists s. split; [exact Hs|].
  apply Forall_cons_1 in Hrange as [(HR & HG & HB) _].
  assert (Hsingle : averaged_wrapped [s] (AntiAlias p * AntiAlias p)
            = mkNRGBA (Int.to_uint8 (chanR s)) (Int.to_uint8 (chanG s))
                (Int.to_uint8 (chanB s)) 255).
  { unfold averaged_wrapped. rewrite Hone. cbn [fmap list_fmap Zsum foldr].
    rewrite !Z.add_0_r, !IntFacts.wrap_id by done.
    change (1 * 1) with 1. by rewrite !Z.quot_1_r. }
  split; [by rewrite Hcalc, Hsingle|].
  intros Hc. rewrite Hcalc, Hsingle.
  specialize (Hdisc Hc). apply Forall_cons_1 in Hdisc as [(HR' & HG' & HB') _].
  by rewrite !IntFacts.to_uint8_id by lia.
Qed.

End CalcPixelMain.

(** A 64 by 48 image sampled on a 2 by 2 grid, initialised. *)
Definition example_initialised : Parameters :=
  (Init (Example.params 2 false)).1.

Lemma example_initialised_ok :
  Valid example_initialised /\ Limits example_initialised
  /\ Initialised example_initialised.
Proof.
  split; [|split].
  - split; try done; vm_compute; congruence.
  - split; try (vm_compute; congruence).
    + repeat constructor; vm_compute; congruence.
    + repeat constructor; vm_compute; congruence.
  - reflexivity.
Qed.

Lemma CalcPixel_average_witness :
  is_Ok (CalcPixel (H := Example.runtime) example_initialised 10 10) = true.
Proof.
  destruct example_initialised_ok as (Hv & Hl & Hi).
  destruct (CalcPixel_average (H := Example.runtime) example_initialised 10 10
              Hv Hl Hi ltac:(by vm_compute) ltac:(by vm_compute))
    as (ss & _ & _ & -> & _).
  reflexivity.
Defined.

Section CalcPixelTotal.
Context `{GoRuntime}.

(** Under the invariants the sampler returns a colour for every pixel. *)
Lemma CalcPixel_total p col row :
  Valid p -> Limits p -> Initialised p ->
  0 <= col < SizeX p -> 0 <= row < SizeY p ->
  exists c, CalcPixel p col row = Ok c.
Proof.
  intros Hv Hl Hi Hcol Hrow.
  destruct (samples_exist p col row Hv Hl Hi Hcol Hrow) as (ss & Hcode & _).
  eexists.
  apply (CalcPixel_of_samples p col row ss); [|  | exact Hcode].
  - apply Initialised_len; [done | apply (valid_antialias p Hv)].
  - pose proof (valid_antialias p Hv). pose proof (limit_antialias p Hl). lia.
Qed.

End CalcPixelTotal.

(** ** Degenerate images: a dimension of one pixel *)

Module F64Class.
Import F64.

(** A positive finite float, seen as an IEEE 754 datum. *)
Lemma positive_finite x :
  (0 <? x)%float = true -> is_finite x = true ->
  exists m e, Prim2SF x = S754_finite false m e.
Proof.
  rewrite ltb_spec. unfold is_finite, is_nan, is_inf.
  change (Prim2SF 0) with (S754_zero false).
  destruct (Prim2SF x) as [s | s | | s m e]; try done.
  destruct s; [done|]. intros _ _. by exists m, e.
Qed.

(** A positive float times [+0] is [+0] when finite and NaN when infinite. *)
Lemma positive_times_zero x :
  (0 <? x)%float = true ->
  Prim2SF (x * 0)%float = S754_zero false \/ Prim2SF (x * 0)%float = S754_nan.
Proof.
  rewrite ltb_spec, mul_spec.
  change (Prim2SF 0) with (S754_zero false).
  destruct (Prim2SF x) as [s | s | | s m e]; try done.
  - destruct s; [done|]. by right.
  - destruct s; [done|]. by left.
Qed.

(** Adding anything to the quotient by such a product is never finite. *)
Lemma add_div_zero_nonfinite c n d :
  Prim2SF d = S754_zero false \/ Prim2SF d = S754_nan ->
  is_finite (c + n / d)%float = false.
Proof.
  intros Hd. unfold is_finite, is_nan, is_inf.
  rewrite add_spec, div_spec.
  destruct Hd as [-> | ->];
    destruct (Prim2SF c) as [[] | [] | | [] ? ?];
    destruct (Prim2SF n) as [[] | [] | | [] ? ?]; reflexivity.
Qed.

Lemma sub_div_zero_nonfinite c n d :
  Prim2SF d = S754_zero false \/ Prim2SF d = S754_nan ->
  is_finite (c - n / d)%float = false.
Proof.
  intros Hd. unfold is_finite, is_nan, is_inf.
  rewrite sub_spec, div_spec.
  destruct Hd as [-> | ->];
    destruct (Prim2SF c) as [[] | [] | | [] ? ?];
    destruct (Prim2SF n) as [[] | [] | | [] ? ?]; reflexivity.
Qed.

(** A zero numerator over [+0] is NaN, and so is the coordinate. *)
Lemma add_zero_div_zero_nan c n d :
  Prim2SF d = S754_zero false -> (n =? 0)%float = true ->
  is_nan (c + n / d)%float = true.
Proof.
  intros Hd. rewrite FloatAxioms.eqb_spec. unfold is_nan.
  rewrite add_spec, div_spec, Hd.
  change (Prim2SF 0) with (S754_zero false).
  destruct (Prim2SF c) as [[] | [] | | [] ? ?];
    destruct (Prim2SF n) as [[] | [] | | [] ? ?]; done.
Qed.

(** A finite non-zero numerator over [+0] is an infinity, and a finite
    centre plus an infinity is that infinity. *)
Lemma add_nonzero_div_zero_inf c n d :
  Prim2SF d = S754_zero false -> is_finite c = true -> is_finite n = true ->
  (n =? 0)%float = false ->
  is_inf (c + n / d)%float = true.
Proof.
  intros Hd. rewrite FloatAxioms.eqb_spec. unfold is_finite, is_nan, is_inf.
  rewrite add_spec, div_spec, Hd.
  change (Prim2SF 0) with (S754_zero false).
  destruct (Prim2SF c) as [[] | [] | | [] ? ?];
    destruct (Prim2SF n) as [[] | [] | | [] ? ?]; done.
Qed.

(** The same for the ordinate, which subtracts the quotient. *)
Lemma sub_zero_div_zero_nan c n d :
  Prim2SF d = S754_zero false -> (n =? 0)%float = true ->
  is_nan (c - n / d)%float = true.
Proof.
  intros Hd. rewrite FloatAxioms.eqb_spec. unfold is_nan.
  rewrite sub_spec, div_spec, Hd.
  change (Prim2SF 0) with (S754_zero false).
  destruct (Prim2SF c) as [[] | [] | | [] ? ?];
    destruct (Prim2SF n) as [[] | [] | | [] ? ?]; done.
Qed.

Lemma sub_nonzero_div_zero_inf c n d :
  Prim2SF d = S754_zero false -> is_finite c = true -> is_finite n = true ->
  (n =? 0)%float = false ->
  is_inf (c - n / d)%float = true.
Proof.
  intros Hd. rewrite FloatAxioms.eqb_spec. unfold is_finite, is_nan, is_inf.
  rewrite sub_spec, div_spec, Hd.
  change (Prim2SF 0) with (S754_zero false).
  destruct (Prim2SF c) as [[] | [] | | [] ? ?];
    destruct (Prim2SF n) as [[] | [] | | [] ? ?]; done.
Qed.

Lemma zero_of_Prim2SF x : Prim2SF x = S754_zero false -> x = 0%float.
Proof. intros Hx. by rewrite <- (SF2Prim_Prim2SF x), Hx. Qed.

End F64Class.

Section Degenerate.
Context `{GoRuntime}.

(** C10. When the smaller image dimension is 1 the denominator
    [magnification·(minDimension − 1)] that [CalcPixel] divides by is zero
    (for a finite magnification), and every sample coordinate that
    [CalcPixel] computes, abscissa and ordinate, for every offset, is
    non-finite: NaN when the numerator is zero, an infinity when numerator
    and centre are finite and the numerator is not zero; and [CalcPixel]
    still returns a colour. The coordinates are those of the code,
    [plane_x] and [plane_y], which for a pixel of the image are the
    specification's. *)
Theorem CalcPixel_degenerate (p : Parameters) (col row : Z) :
  Valid p -> Limits p -> Initialised p ->
  Z.min (SizeX p) (SizeY p) = 1 ->
  0 <= col < SizeX p -> 0 <= row < SizeY p ->
  let denominator :=
    (Magnification p * F64.of_int (Int.sub (minsize p) 1))%float in
  let numerator_x xOffset :=
    (F64.of_int (Int.sub col (SizeX p ÷ 2)) + xOffset)%float in
  let numerator_y yOffset :=
    (F64.of_int (Int.sub row (SizeY p ÷ 2)) - yOffset)%float in
  (forall xOffset,
     plane_x p col xOffset
     = (CenterX p + numerator_x xOffset / denominator)%float
     /\ plane_x p col xOffset = spec_x p col xOffset)
  /\ (forall yOffset,
        plane_y p row yOffset
        = (CenterY p - numerator_y yOffset / denominator)%float
        /\ plane_y p row yOffset = spec_y p row yOffset)
  /\ (F64.is_finite (Magnification p) = true -> denominator = 0%float)
  /\ (forall xOffset, F64.is_finite (plane_x p col xOffset) = false)
  /\ (forall yOffset, F64.is_finite (plane_y p row yOffset) = false)
  /\ (forall xOffset,
        F64.is_finite (Magnification p) = true ->
        (numerator_x xOffset =? 0)%float = true ->
        F64.is_nan (plane_x p col xOffset) = true)
  /\ (forall yOffset,
        F64.is_finite (Magnification p) = true ->
        (numerator_y yOffset =? 0)%float = true ->
        F64.is_nan (plane_y p row yOffset) = true)
  /\ (forall xOffset,
        F64.is_finite (Magnification p) = true ->
        F64.is_finite (CenterX p) = true ->
        F64.is_finite (numerator_x xOffset) = true ->
        (numerator_x xOffset =? 0)%float = false ->
        F64.is_inf (plane_x p col xOffset) = true)
  /\ (forall yOffset,
        F64.is_finite (Magnification p) = true ->
        F64.is_finite (CenterY p) = true ->
        F64.is_finite (numerator_y yOffset) = true ->
        (numerator_y yOffset =? 0)%float = false ->
        F64.is_inf (plane_y p row yOffset) = true)
  /\ exists c, CalcPixel p col row = Ok c.
Proof.
  intros Hv Hl Hi Hmin Hcol Hrow denominator numerator_x numerator_y.
  pose proof (valid_magnification p Hv) as Hmag.
  pose proof (valid_width p Hv) as Hw. pose proof (valid_height p Hv) as Hh.
  pose proof (limit_width p Hl) as Hlw. pose proof (limit_height p Hl) as Hlh.
  assert (Hden : denominator = (Magnification p * 0)%float).
  { unfold denominator. by rewrite minsize_min, Hmin. }
  pose proof (F64Class.positive_times_zero _ Hmag) as Hcases.
  rewrite <- Hden in Hcases.
  assert (Hzero : F64.is_finite (Magnification p) = true ->
            Prim2SF denominator = S754_zero false).
  { intros Hfin. rewrite Hden, mul_spec.
    destruct (F64Class.positive_finite _ Hmag Hfin) as (m & e & ->).
    reflexivity. }
  assert (Hx : forall xo,
            plane_x p col xo
            = (CenterX p + numerator_x xo / denominator)%float) by done.
  assert (Hy : forall yo,
            plane_y p row yo
            = (CenterY p - numerator_y yo / denominator)%float) by done.
  split; [|split; [|split; [|split; [|split; [|split; [|split; [|split;
    [|split]]]]]]]].
  - intros xo. split; [done|].
    unfold spec_x. by apply plane_x_formula.
  - intros yo. split; [done|].
    unfold spec_y. by apply plane_y_formula.
  - intros Hfin. apply F64Class.zero_of_Prim2SF. by apply Hzero.
  - intros xo. rewrite Hx. by apply F64Class.add_div_zero_nonfinite.
  - intros yo. rewrite Hy. by apply F64Class.sub_div_zero_nonfinite.
  - intros xo Hfin Hnum. rewrite Hx.
    apply F64Class.add_zero_div_zero_nan; [|done]. by apply Hzero.
  - intros yo Hfin Hnum. rewrite Hy.
    apply F64Class.sub_zero_div_zero_nan; [|done]. by apply Hzero.
  - intros xo Hfin Hc Hn Hnz. rewrite Hx.
    apply F64Class.add_nonzero_div_zero_inf; try done. by apply Hzero.
  - intros yo Hfin Hc Hn Hnz. rewrite Hy.
    apply F64Class.sub_nonzero_div_zero_inf; try done. by apply Hzero.
  - by apply CalcPixel_total.
Qed.

End Degenerate.

(** A single pixel, no antialiasing: the coordinates are NaN, the evaluator
    never sees an escape and the pixel gets the inside colour. *)
Definition example_single_pixel : Parameters :=
  (Init (mkParameters (-0.75) 0 0.5 50 1 1 1 false
           [Example.red; Example.white; Example.navy] Example.black [])).1.

Lemma example_single_pixel_ok :
  Valid example_single_pixel /\ Limits example_single_pixel
  /\ Initialised example_single_pixel.
Proof.
  split; [|split].
  - split; try done; vm_compute; congruence.
  - split; try (vm_compute; congruence).
    + repeat constructor; vm_compute; congruence.
    + repeat constructor; vm_compute; congruence.
  - reflexivity.
Qed.

Lemma CalcPixel_degenerate_witness :
  F64.is_nan (plane_x example_single_pixel 0 0) = true
  /\ F64.is_nan (plane_y example_single_pixel 0 0) = true
  /\ CalcPixel (H := Example.runtime) example_single_pixel 0 0
     = Ok (mkNRGBA 0 0 0 255).
Proof.
  destruct example_single_pixel_ok as (Hv & Hl & Hi).
  destruct (CalcPixel_degenerate (H := Example.runtime) example_single_pixel 0 0
              Hv Hl Hi eq_refl ltac:(by vm_compute) ltac:(by vm_compute))
    as (_ & _ & _ & _ & _ & Hnanx & Hnany & _).
  split; [by apply Hnanx | split; [by apply Hnany | reflexivity]].
Defined.

(** ** The derived subpixel offsets *)

(** The offset formula [(0.5 + i)/antiAlias − 0.5] read in exact rational
    arithmetic: the value the [float64] computation rounds. *)
Definition offsetQ (antiAlias i : Z) : Q :=
  ((1 # 2) + inject_Z i) / inject_Z antiAlias - (1 # 2).

(** Checks on a computed offset slice. *)
Definition inside_half (o : float) : bool := ((-0.5 <? o) && (o <? 0.5))%float.

Fixpoint increasing (l : list float) : bool :=
  match l with
  | a :: (b :: _) as t => (a <? b)%float && increasing t
  | _ => true
  end.

(** The differences of consecutive elements. *)
Definition spacings (l : list float) : list float :=
  zip_with (fun a b => (b - a)%float) l (tail l).

Section Offsets.

Lemma offsetQ_bounds aa i :
  0 <= i < aa -> (- (1 # 2) < offsetQ aa i /\ offsetQ aa i < 1 # 2)%Q.
Proof.
  intros Hi. unfold offsetQ.
  assert (Ha : (0 < inject_Z aa)%Q) by (rewrite <- (Zlt_Qlt 0); lia).
  assert (Hi0 : (0 <= inject_Z i)%Q) by (rewrite <- (Zle_Qle 0); lia).
  assert (Hi1 : (inject_Z i + inject_Z 1 <= inject_Z aa)%Q).
  { rewrite <- inject_Z_plus, <- Zle_Qle. lia. }
  change (inject_Z 1) with 1%Q in Hi1.
  assert (Hlo : (0 < ((1 # 2) + inject_Z i) / inject_Z aa)%Q).
  { apply Qlt_shift_div_l; [done|]. lra. }
  assert (Hhi : (((1 # 2) + inject_Z i) / inject_Z aa < 1)%Q).
  { apply Qlt_shift_div_r; [done|]. lra. }
  split; lra.
Qed.

Lemma offsetQ_spacing aa i :
  1 <= aa -> (offsetQ aa (i + 1) - offsetQ aa i == 1 / inject_Z aa)%Q.
Proof.
  intros Ha. unfold offsetQ. rewrite inject_Z_plus.
  assert (Hne : ~ (inject_Z aa == 0)%Q).
  { unfold Qeq. simpl. lia. }
  field. exact Hne.
Qed.

Lemma makeOffsets_lookup aa i :
  0 <= i < aa -> makeOffsets aa !! Z.to_nat i = Some (subpixOffset aa i).
Proof.
  intros Hi. unfold makeOffsets. rewrite list_lookup_fmap.
  rewrite (lookup_seqZ_lt 0 aa (Z.to_nat i)) by lia. simpl. f_equal. f_equal. lia.
Qed.

Lemma Init_subpixOffsets p :
  1 <= AntiAlias p -> subpixOffsets (Init p).1 = makeOffsets (AntiAlias p).
Proof.
  intros Haa. unfold Init.
  destruct (AntiAlias p <? 1) eqn:E; [lia|].
  by destruct (len _ <? 1).
Qed.

End Offsets.

(** ** Rounding in [float64], from the IEEE 754 specification

    What the division, the addition and the subtraction of the offset
    formula do to their exact results: the mantissa is cut to 53 digits and
    the last digit may go up by one. *)

Module Rounding.

(** *** Shifting the mantissa to the right *)

Lemma iter_pos_nat {A} (f : A -> A) p : forall x,
  SpecFloat.iter_pos f p x = Nat.iter (Pos.to_nat p) f x.
Proof.
  induction p as [p IH | p IH |]; intros x; cbn [SpecFloat.iter_pos].
  - rewrite !IH. rewrite Pos2Nat.inj_xI.
    replace (S (2 * Pos.to_nat p)) with (Pos.to_nat p + (Pos.to_nat p + 1))%nat
      by lia.
    rewrite !Nat.iter_add. simpl. done.
  - rewrite !IH. rewrite Pos2Nat.inj_xO.
    replace (2 * Pos.to_nat p)%nat with (Pos.to_nat p + Pos.to_nat p)%nat by lia.
    by rewrite Nat.iter_add.
  - done.
Qed.

Lemma shr_1_half mrs :
  0 <= shr_m mrs -> shr_m (shr_1 mrs) = shr_m mrs / 2.
Proof.
  destruct mrs as [m r s]. cbn [shr_m shr_1]. intros Hm.
  destruct m as [|[p|p|]|p]; cbn [shr_m]; try lia.
  - done.
  - apply (Z.div_unique _ _ _ 1); lia.
  - apply (Z.div_unique _ _ _ 0); lia.
  - done.
Qed.

Lemma shr_iter_div k : forall mrs,
  0 <= shr_m mrs ->
  shr_m (Nat.iter k shr_1 mrs) = shr_m mrs / 2 ^ Z.of_nat k.
Proof.
  induction k as [|k IH]; intros mrs Hm.
  - simpl. by rewrite Z.div_1_r.
  - rewrite Nat.iter_succ, shr_1_half.
    + rewrite IH by done. rewrite Nat2Z.inj_succ, Z.pow_succ_r by lia.
      rewrite Z.div_div by lia. f_equal. lia.
    + rewrite IH by done. apply Z.div_pos; lia.
Qed.

(** The mantissa [shr] leaves is the quotient by the power of two. *)
Lemma shr_div mrs e n :
  0 <= shr_m mrs -> 0 <= n ->
  shr_m (shr mrs e n).1 = shr_m mrs / 2 ^ n /\ (shr mrs e n).2 = e + n.
Proof.
  intros Hm Hn. unfold shr. destruct n as [|p|p]; [| |lia].
  - simpl. rewrite Z.div_1_r. split; [done | lia].
  - cbn [fst snd]. rewrite iter_pos_nat, shr_iter_div by done.
    by rewrite positive_nat_Z.
Qed.

Lemma shr_m_of_loc m l : shr_m (shr_record_of_loc m l) = m.
Proof. by destruct l as [|[]]. Qed.

Lemma round_nearest_even_cases m l :
  round_nearest_even m l = m \/ round_nearest_even m l = m + 1.
Proof.
  unfold round_nearest_even. destruct l as [|[]]; auto.
  destruct (Z.even m); auto.
Qed.

(** *** The number of digits *)

Lemma digits2_pos_unique m k :
  2 ^ (k - 1) <= Z.pos m < 2 ^ k -> Z.pos (digits2_pos m) = k.
Proof.
  intros [Hlo Hhi]. pose proof (F64Facts.digits2_pos_bounds m) as [Hlo' Hhi'].
  assert (0 < k).
  { destruct k as [|k|k]; [change (2 ^ 0) with 1 in Hhi; lia | lia |].
    rewrite Z.pow_neg_r in Hhi by lia. lia. }
  destruct (Z.lt_trichotomy (Z.pos (digits2_pos m)) k) as [Hlt | [Heq | Hgt]].
  - assert (2 ^ Z.pos (digits2_pos m) <= 2 ^ (k - 1))
      by (apply Z.pow_le_mono_r; lia).
    lia.
  - done.
  - assert (2 ^ k <= 2 ^ (Z.pos (digits2_pos m) - 1))
      by (apply Z.pow_le_mono_r; lia).
    lia.
Qed.

(** *** [binary_round_aux] on a mantissa of at least 53 digits

    With [n] the digits beyond 53, the result has the mantissa
    [mx / 2^n] or the next integer, at the exponent [ex + n]; when the
    next integer is [2^53] the result is [2^52] one exponent higher. *)
Lemma binary_round_aux_bracket sx mx ex lx :
  let d := Z.pos (digits2_pos mx) in
  let n := d - 53 in
  53 <= d -> -1074 <= ex + n -> ex + n + 1 <= 971 ->
  exists m e mr,
    binary_round_aux prec emax sx (Z.pos mx) ex lx = S754_finite sx m e
    /\ Z.pos (digits2_pos m) = 53
    /\ (mr = Z.pos mx / 2 ^ n \/ mr = Z.pos mx / 2 ^ n + 1)
    /\ ((e = ex + n /\ Z.pos m = mr) \/ (e = ex + n + 1 /\ 2 * Z.pos m = mr))
    /\ 2 ^ 52 <= Z.pos mx / 2 ^ n < 2 ^ 53.
Proof.
  intros d n Hd Hlo Hhi.
  pose proof (F64Facts.digits2_pos_bounds mx) as [Hmlo Hmhi]. fold d in Hmlo, Hmhi.
  assert (Hpow : 2 ^ d = 2 ^ 53 * 2 ^ n).
  { rewrite <- Z.pow_add_r by lia. f_equal. lia. }
  assert (Hpow' : 2 ^ (d - 1) = 2 ^ 52 * 2 ^ n).
  { rewrite <- Z.pow_add_r by lia. f_equal. lia. }
  assert (Hn : 0 < 2 ^ n) by (apply Z.pow_pos_nonneg; lia).
  assert (Hmt : 2 ^ 52 <= Z.pos mx / 2 ^ n < 2 ^ 53).
  { split.
    - apply Z.div_le_lower_bound; lia.
    - apply Z.div_lt_upper_bound; lia. }
  unfold binary_round_aux, shr_fexp.
  assert (Hshift : fexp prec emax (Zdigits2 (Z.pos mx) + ex) - ex = n).
  { unfold fexp, emin, Zdigits2, prec, emax. fold d. lia. }
  rewrite Hshift.
  destruct (shr_div (shr_record_of_loc (Z.pos mx) lx) ex n) as [Hm1 He1];
    [rewrite shr_m_of_loc; lia | lia |].
  rewrite shr_m_of_loc in Hm1.
  destruct (shr (shr_record_of_loc (Z.pos mx) lx) ex n) as [mrs1 e1].
  cbn [fst snd] in Hm1, He1. subst e1.
  set (mr := round_nearest_even (shr_m mrs1) (loc_of_shr_record mrs1)).
  assert (Hmr : mr = Z.pos mx / 2 ^ n \/ mr = Z.pos mx / 2 ^ n + 1).
  { unfold mr. rewrite <- Hm1. apply round_nearest_even_cases. }
  assert (Hmrpos : 2 ^ 52 <= mr <= 2 ^ 53) by lia.
  destruct mr as [|pr|pr] eqn:Emr; [lia | | lia].
  destruct (Z_lt_le_dec (Z.pos pr) (2 ^ 53)) as [Hsmall | Hbig].
  - assert (Hdr : Z.pos (digits2_pos pr) = 53)
      by (apply digits2_pos_unique; lia).
    assert (Hshift2 : fexp prec emax (Zdigits2 (Z.pos pr) + (ex + n)) - (ex + n) = 0).
    { unfold fexp, emin, Zdigits2, prec, emax. rewrite Hdr. lia. }
    rewrite Hshift2. cbn [shr shr_record_of_loc shr_m].
    replace (ex + n <=? emax - prec) with true
      by (symmetry; apply Z.leb_le; unfold emax, prec; lia).
    exists pr, (ex + n), (Z.pos pr).
    split; [done|]. split; [done|]. split; [done|]. split; [|done].
    left. done.
  - assert (Hpr : Z.pos pr = 2 ^ 53) by lia.
    assert (Hdr : Z.pos (digits2_pos pr) = 54)
      by (apply digits2_pos_unique; lia).
    assert (Hshift2 : fexp prec emax (Zdigits2 (Z.pos pr) + (ex + n)) - (ex + n) = 1).
    { unfold fexp, emin, Zdigits2, prec, emax. rewrite Hdr. lia. }
    rewrite Hshift2.
    assert (Hpr' : pr = 9007199254740992%positive) by lia.
    subst pr. cbn [shr shr_record_of_loc shr_m SpecFloat.iter_pos shr_1].
    replace (ex + n + 1 <=? emax - prec) with true
      by (symmetry; apply Z.leb_le; unfold emax, prec; lia).
    exists 4503599627370496%positive, (ex + n + 1), (2 ^ 53).
    split; [done|]. split; [done|]. split; [lia|]. split; [|done].
    right. done.
Qed.

(** *** The value of a float, as a rational *)

Definition pow2 (e : Z) : Q := (2 ^ e)%Q.

Definition SF2Q (x : spec_float) : Q :=
  match x with
  | S754_finite s m e =>
      ((if s then - inject_Z (Z.pos m) else inject_Z (Z.pos m)) * pow2 e)%Q
  | _ => 0%Q
  end.

(** The relative error of one rounding is at most [2^-52]. *)
Definition eps : Q := 1 # 4503599627370496.

Lemma pow2_pos e : (0 < pow2 e)%Q.
Proof. apply Qpower_0_lt. reflexivity. Qed.

Lemma pow2_add a b : (pow2 (a + b) == pow2 a * pow2 b)%Q.
Proof. apply Qpower_plus. discriminate. Qed.

Lemma pow2_Z n : 0 <= n -> (pow2 n == inject_Z (2 ^ n))%Q.
Proof. intros Hn. unfold pow2. by rewrite Zpower_Qpower. Qed.

Lemma pow2_le a b : a <= b -> (pow2 a <= pow2 b)%Q.
Proof. intros Hab. apply Qpower_le_compat_l; [done|]. discriminate. Qed.

Lemma pow2_lt a b : a < b -> (pow2 a < pow2 b)%Q.
Proof. intros Hab. apply Qpower_lt_compat_l; [done|]. reflexivity. Qed.

Lemma pow2_lt_inv a b : (pow2 a < pow2 b)%Q -> a < b.
Proof. intros Hab. apply (Qpower_lt_compat_l_inv 2); [done|]. reflexivity. Qed.

Lemma scale_shift z e n :
  0 <= n -> (inject_Z (z * 2 ^ n) * pow2 e == inject_Z z * pow2 (e + n))%Q.
Proof.
  intros Hn. rewrite inject_Z_mult, pow2_add, <- pow2_Z by done. ring.
Qed.

Lemma scale_le z1 z2 e :
  z1 <= z2 -> (inject_Z z1 * pow2 e <= inject_Z z2 * pow2 e)%Q.
Proof.
  intros Hz. apply Qmult_le_compat_r; [by rewrite <- Zle_Qle|].
  apply Qlt_le_weak, pow2_pos.
Qed.

(** A result of rounding a positive value [v]: a normal float of the sign
    [s] whose magnitude is within the relative error of [v]. *)
Definition rounds_to (r : spec_float) (s : bool) (v : Q) : Prop :=
  exists m e,
    r = S754_finite s m e /\ Z.pos (digits2_pos m) = 53
    /\ (v * (1 - eps) <= inject_Z (Z.pos m) * pow2 e <= v * (1 + eps))%Q.

Lemma rounds_to_aux sx mx ex lx (v : Q) :
  let d := Z.pos (digits2_pos mx) in
  53 <= d -> -1074 <= ex + (d - 53) -> ex + (d - 53) + 1 <= 971 ->
  (inject_Z (Z.pos mx) * pow2 ex <= v)%Q ->
  (v <= inject_Z (Z.pos mx + 1) * pow2 ex)%Q ->
  rounds_to (binary_round_aux prec emax sx (Z.pos mx) ex lx) sx v.
Proof.
  intros d Hd Hlo Hhi Hv1 Hv2.
  destruct (binary_round_aux_bracket sx mx ex lx Hd Hlo Hhi)
    as (m & e & mr & Hr & Hdm & Hmr & He & Hmt).
  fold d in Hmr, He, Hmt. set (n := d - 53) in *.
  set (mt := Z.pos mx / 2 ^ n) in *.
  exists m, e. split; [done|]. split; [done|].
  assert (Hn : 0 < 2 ^ n) by (apply Z.pow_pos_nonneg; lia).
  set (U := pow2 (ex + n)).
  assert (HU : (0 < U)%Q) by apply pow2_pos.
  assert (Hlow : (inject_Z mt * U <= inject_Z (Z.pos mx) * pow2 ex)%Q).
  { unfold U. rewrite <- scale_shift by lia. apply scale_le.
    unfold mt. rewrite Z.mul_comm. apply Z.mul_div_le. lia. }
  assert (Hupp : (inject_Z (Z.pos mx + 1) * pow2 ex <= (inject_Z mt + 1) * U)%Q).
  { change 1%Q with (inject_Z 1). rewrite <- (inject_Z_plus mt 1).
    unfold U. rewrite <- scale_shift by lia. apply scale_le.
    pose proof (Z.mod_pos_bound (Z.pos mx) (2 ^ n) Hn).
    pose proof (Z.div_mod (Z.pos mx) (2 ^ n) ltac:(lia)) as Hdm'.
    fold mt in Hdm'. lia. }
  assert (HR : (inject_Z (Z.pos m) * pow2 e == inject_Z mr * U)%Q).
  { destruct He as [[-> ->] | [-> H2]]; [done|].
    rewrite <- H2. unfold U.
    rewrite inject_Z_mult, (pow2_add (ex + n) 1).
    change (pow2 1) with 2%Q. change (inject_Z 2) with 2%Q. ring. }
  assert (Hbig : (inject_Z (2 ^ 52) * U <= inject_Z mt * U)%Q).
  { apply Qmult_le_compat_r; [rewrite <- Zle_Qle; lia | lra]. }
  change (inject_Z (2 ^ 52)) with (4503599627370496 # 1)%Q in Hbig.
  rewrite HR.
  assert (Hv2' : (v <= (inject_Z mt + 1) * U)%Q) by (eapply Qle_trans; eauto).
  unfold eps.
  destruct Hmr as [-> | ->].
  - split; lra.
  - rewrite inject_Z_plus. change (inject_Z 1) with 1%Q. split; lra.
Qed.

(** *** Rounding an exact value *)

Lemma digits2_pos_ge m k : 2 ^ k <= Z.pos m -> k + 1 <= Z.pos (digits2_pos m).
Proof.
  intros Hm. pose proof (F64Facts.digits2_pos_bounds m) as [_ Hhi].
  destruct (Z_lt_le_dec k (Z.pos (digits2_pos m))) as [|Hle]; [lia|].
  assert (2 ^ Z.pos (digits2_pos m) <= 2 ^ k) by (apply Z.pow_le_mono_r; lia).
  lia.
Qed.

Lemma digits2_pos_le m k :
  0 <= k -> Z.pos m < 2 ^ k -> Z.pos (digits2_pos m) <= k.
Proof.
  intros Hk Hm. pose proof (F64Facts.digits2_pos_bounds m) as [Hlo _].
  destruct (Z_le_gt_dec (Z.pos (digits2_pos m)) k) as [|Hgt]; [done|].
  assert (2 ^ k <= 2 ^ (Z.pos (digits2_pos m) - 1))
    by (apply Z.pow_le_mono_r; lia).
  lia.
Qed.

Lemma shl_align_spec mx ex ex' :
  ex' <= ex ->
  Z.pos (shl_align mx ex ex').1 = Z.pos mx * 2 ^ (ex - ex')
  /\ (shl_align mx ex ex').2 = ex'.
Proof.
  intros Hle. unfold shl_align.
  destruct (ex' - ex) as [|d|d] eqn:Ed; [| lia |]; cbn [fst snd].
  - assert (ex = ex') as -> by lia. rewrite Z.sub_diag. simpl. split; lia.
  - fold (shift_pos d mx). rewrite shift_pos_correct, Zpower_pos_nat, Zpower_nat_Z.
    rewrite positive_nat_Z. replace (ex - ex') with (Z.pos d) by lia.
    split; [lia | done].
Qed.

Lemma shl_align_id mx ex ex' : ex <= ex' -> shl_align mx ex ex' = (mx, ex).
Proof.
  intros Hle. unfold shl_align.
  destruct (ex' - ex) as [|d|d] eqn:Ed; [done | done | lia].
Qed.

Lemma rounds_to_exact s m e :
  Z.pos (digits2_pos m) = 53 ->
  rounds_to (S754_finite s m e) s (inject_Z (Z.pos m) * pow2 e).
Proof.
  intros Hd. exists m, e. split; [done|]. split; [done|].
  assert (0 < inject_Z (Z.pos m) * pow2 e)%Q.
  { apply Qmult_lt_0_compat; [by rewrite <- (Zlt_Qlt 0) | apply pow2_pos]. }
  unfold eps. split; lra.
Qed.

Lemma rounds_to_proper r s v v' : (v == v')%Q -> rounds_to r s v -> rounds_to r s v'.
Proof.
  intros Hv (m & e & Hr & Hd & Hb). exists m, e. split; [done|]. split; [done|].
  by rewrite <- Hv.
Qed.

(** [binary_round] of the exact value [mx·2^ex]. *)
Lemma rounds_to_round sx mx ex :
  let d := Z.pos (digits2_pos mx) in
  -1074 <= d + ex - 53 -> d + ex - 53 + 1 <= 971 ->
  rounds_to (binary_round prec emax sx mx ex) sx (inject_Z (Z.pos mx) * pow2 ex).
Proof.
  intros d Hlo Hhi. unfold binary_round.
  assert (Ht : fexp prec emax (Z.pos (digits2_pos mx) + ex) = d + ex - 53).
  { unfold fexp, emin, prec, emax. fold d. lia. }
  rewrite Ht.
  destruct (Z_lt_le_dec d 53) as [Hsmall | Hbig].
  - destruct (shl_align_spec mx ex (d + ex - 53) ltac:(lia)) as [Hm He].
    destruct (shl_align mx ex (d + ex - 53)) as [mz ez]. cbn [fst snd] in Hm, He.
    subst ez. replace (ex - (d + ex - 53)) with (53 - d) in Hm by lia.
    assert (Hdz : Z.pos (digits2_pos mz) = 53).
    { apply digits2_pos_unique. rewrite Hm.
      pose proof (F64Facts.digits2_pos_bounds mx) as [Hlo' Hhi']. fold d in Hlo', Hhi'.
      assert (Hd0 : 0 < d) by (unfold d; lia).
      assert (H52 : 2 ^ (53 - 1) = 2 ^ (d - 1) * 2 ^ (53 - d)).
      { rewrite <- Z.pow_add_r by lia. f_equal. lia. }
      assert (H53 : 2 ^ 53 = 2 ^ d * 2 ^ (53 - d)).
      { rewrite <- Z.pow_add_r by lia. f_equal. lia. }
      assert (0 < 2 ^ (53 - d)) by (apply Z.pow_pos_nonneg; lia).
      rewrite H52, H53. nia. }
    rewrite F64Facts.binary_round_aux_53 by (done || lia).
    eapply rounds_to_proper; [|by apply rounds_to_exact].
    rewrite Hm, scale_shift by lia.
    replace (d + ex - 53 + (53 - d)) with ex by lia. reflexivity.
  - rewrite shl_align_id by lia.
    apply rounds_to_aux; fold d; try lia.
    + apply Qle_refl.
    + apply scale_le. lia.
Qed.

(** *** The operations on positive normal floats *)

Section Operations.
Variables (mx : positive) (ex : Z) (my : positive) (ey : Z).
Hypothesis Hdx : Z.pos (digits2_pos mx) = 53.
Hypothesis Hdy : Z.pos (digits2_pos my) = 53.

Let vx : Q := (inject_Z (Z.pos mx) * pow2 ex)%Q.
Let vy : Q := (inject_Z (Z.pos my) * pow2 ey)%Q.

Lemma aligned_values :
  let ez := Z.min ex ey in
  let a := (shl_align mx ex ez).1 in
  let b := (shl_align my ey ez).1 in
  (inject_Z (Z.pos a) * pow2 ez == vx)%Q /\ (inject_Z (Z.pos b) * pow2 ez == vy)%Q
  /\ 2 ^ 52 <= Z.pos a /\ 2 ^ 52 <= Z.pos b
  /\ Z.pos a < 2 ^ (53 + Z.max ex ey - ez)
  /\ Z.pos b < 2 ^ (53 + Z.max ex ey - ez).
Proof.
  intros ez a b.
  destruct (shl_align_spec mx ex ez ltac:(lia)) as [Ha _]. fold a in Ha.
  destruct (shl_align_spec my ey ez ltac:(lia)) as [Hb _]. fold b in Hb.
  pose proof (F64Facts.digits2_pos_bounds mx) as [Hxlo Hxhi].
  pose proof (F64Facts.digits2_pos_bounds my) as [Hylo Hyhi].
  rewrite Hdx in Hxlo, Hxhi. rewrite Hdy in Hylo, Hyhi.
  change (2 ^ (53 - 1)) with (2 ^ 52) in *.
  assert (0 < 2 ^ (ex - ez)) by (apply Z.pow_pos_nonneg; lia).
  assert (0 < 2 ^ (ey - ez)) by (apply Z.pow_pos_nonneg; lia).
  assert (2 ^ (ex - ez) <= 2 ^ (Z.max ex ey - ez)) by (apply Z.pow_le_mono_r; lia).
  assert (2 ^ (ey - ez) <= 2 ^ (Z.max ex ey - ez)) by (apply Z.pow_le_mono_r; lia).
  assert (Hp : 2 ^ (53 + Z.max ex ey - ez) = 2 ^ 53 * 2 ^ (Z.max ex ey - ez)).
  { rewrite <- Z.pow_add_r by lia. f_equal. lia. }
  split; [|split; [|split; [|split; [|split]]]].
  - rewrite Ha, scale_shift by lia. unfold vx.
    replace (ez + (ex - ez)) with ex by lia. reflexivity.
  - rewrite Hb, scale_shift by lia. unfold vy.
    replace (ez + (ey - ez)) with ey by lia. reflexivity.
  - rewrite Ha. nia.
  - rewrite Hb. nia.
  - rewrite Ha, Hp. nia.
  - rewrite Hb, Hp. nia.
Qed.

Lemma SFadd_rounds :
  -1022 <= ex <= 968 -> -1022 <= ey <= 968 ->
  rounds_to (SFadd prec emax (S754_finite false mx ex) (S754_finite false my ey))
    false (vx + vy).
Proof.
  intros Hex Hey. cbn [SFadd cond_Zopp].
  destruct aligned_values as (Hva & Hvb & Ha & Hb & Ha' & Hb').
  set (ez := Z.min ex ey) in *.
  set (a := (shl_align mx ex ez).1) in *. set (b := (shl_align my ey ez).1) in *.
  change (Z.pos a + Z.pos b) with (Z.pos (a + b)). cbn [binary_normalize].
  eapply rounds_to_proper; [|apply rounds_to_round].
  - rewrite Pos2Z.inj_add, inject_Z_plus. rewrite <- Hva, <- Hvb. ring.
  - pose proof (digits2_pos_ge (a + b) 52 ltac:(lia)). lia.
  - assert (Z.pos (a + b) < 2 ^ (54 + Z.max ex ey - ez)).
    { replace (54 + Z.max ex ey - ez) with (Z.succ (53 + Z.max ex ey - ez)) by lia.
      rewrite Z.pow_succ_r by lia. lia. }
    pose proof (digits2_pos_le (a + b) (54 + Z.max ex ey - ez) ltac:(lia) ltac:(done)).
    lia.
Qed.

Lemma SFsub_rounds :
  -1022 <= ex <= 968 -> -1022 <= ey <= 968 ->
  let r := SFsub prec emax (S754_finite false mx ex) (S754_finite false my ey) in
  ((vx == vy)%Q -> r = S754_zero false)
  /\ ((vy < vx)%Q -> rounds_to r false (vx - vy))
  /\ ((vx < vy)%Q -> rounds_to r true (vy - vx)).
Proof.
  intros Hex Hey r. unfold r. cbn [SFsub cond_Zopp].
  destruct aligned_values as (Hva & Hvb & Ha & Hb & Ha' & Hb').
  set (ez := Z.min ex ey) in *.
  set (a := (shl_align mx ex ez).1) in *. set (b := (shl_align my ey ez).1) in *.
  assert (Hrange : forall m : positive, Z.pos m <= Z.max (Z.pos a) (Z.pos b) ->
            -1074 <= Z.pos (digits2_pos m) + ez - 53
            /\ Z.pos (digits2_pos m) + ez - 53 + 1 <= 971).
  { intros m Hm.
    pose proof (digits2_pos_le m (53 + Z.max ex ey - ez) ltac:(lia) ltac:(lia)).
    assert (0 < Z.pos (digits2_pos m)) by lia. lia. }
  destruct (Z.pos a - Z.pos b) as [|m|m] eqn:Em; cbn [binary_normalize].
  - split; [done|]. assert (Z.pos a = Z.pos b) as Heq by lia.
    assert (vx == vy)%Q by (rewrite <- Hva, <- Hvb, Heq; reflexivity).
    split; intros; lra.
  - assert (Hv : (inject_Z (Z.pos m) * pow2 ez == vx - vy)%Q).
    { rewrite <- Em. unfold Z.sub. rewrite inject_Z_plus, inject_Z_opp.
      rewrite <- Hva, <- Hvb. ring. }
    assert (0 < inject_Z (Z.pos m) * pow2 ez)%Q.
    { apply Qmult_lt_0_compat; [by rewrite <- (Zlt_Qlt 0) | apply pow2_pos]. }
    split; [intros; lra|]. split; [|intros; lra]. intros _.
    eapply rounds_to_proper; [exact Hv|].
    destruct (Hrange m ltac:(lia)). by apply rounds_to_round.
  - assert (Hv : (inject_Z (Z.pos m) * pow2 ez == vy - vx)%Q).
    { replace (Z.pos m) with (Z.pos b - Z.pos a) by lia.
      unfold Z.sub. rewrite inject_Z_plus, inject_Z_opp.
      rewrite <- Hva, <- Hvb. ring. }
    assert (0 < inject_Z (Z.pos m) * pow2 ez)%Q.
    { apply Qmult_lt_0_compat; [by rewrite <- (Zlt_Qlt 0) | apply pow2_pos]. }
    split; [intros; lra|]. split; [intros; lra|]. intros _.
    eapply rounds_to_proper; [exact Hv|].
    destruct (Hrange m ltac:(lia)). by apply rounds_to_round.
Qed.

Lemma SFdiv_rounds :
  -1000 <= ex - ey <= 900 ->
  rounds_to (SFdiv prec emax (S754_finite false mx ex) (S754_finite false my ey))
    false (vx / vy).
Proof.
  intros Hexy. cbn [SFdiv xorb]. unfold SFdiv_core_binary, Zdigits2.
  rewrite Hdx, Hdy.
  assert (He' : Z.min (fexp prec emax (53 + ex - (53 + ey))) (ex - ey)
                = ex - ey - 53).
  { unfold fexp, emin, prec, emax. lia. }
  rewrite He'. replace (ex - ey - (ex - ey - 53)) with 53 by lia.
  rewrite Z.shiftl_mul_pow2 by lia.
  pose proof (F64Facts.digits2_pos_bounds mx) as [Hxlo Hxhi].
  pose proof (F64Facts.digits2_pos_bounds my) as [Hylo Hyhi].
  rewrite Hdx in Hxlo, Hxhi. rewrite Hdy in Hylo, Hyhi.
  change (2 ^ (53 - 1)) with (2 ^ 52) in *.
  pose proof (Z_div_mod (Z.pos mx * 2 ^ 53) (Z.pos my) ltac:(lia)) as Hdm.
  destruct (Z.div_eucl (Z.pos mx * 2 ^ 53) (Z.pos my)) as [q r].
  destruct Hdm as [Hq Hr].
  assert (Hq52 : 2 ^ 52 <= q) by nia.
  assert (Hq54 : q < 2 ^ 54) by nia.
  destruct q as [|qp|qp]; [lia | | lia].
  pose proof (digits2_pos_ge qp 52 Hq52).
  pose proof (digits2_pos_le qp 54 ltac:(lia) Hq54).
  assert (Hvy : (0 < vy)%Q).
  { apply Qmult_lt_0_compat; [by rewrite <- (Zlt_Qlt 0) | apply pow2_pos]. }
  assert (Hw : (vx / vy * inject_Z (Z.pos my)
                == inject_Z (Z.pos mx * 2 ^ 53) * pow2 (ex - ey - 53))%Q).
  { rewrite scale_shift by lia. replace (ex - ey - 53 + 53) with (ex + - ey) by lia.
    rewrite pow2_add. unfold vx, vy.
    assert (Hinv : (pow2 (- ey) == / pow2 ey)%Q) by apply Qpower_opp.
    rewrite Hinv. field. split.
    - pose proof (pow2_pos ey). lra.
    - intros Hz. assert (0 < inject_Z (Z.pos my))%Q by (by rewrite <- (Zlt_Qlt 0)).
      lra. }
  assert (Hmy : (0 < inject_Z (Z.pos my))%Q) by (by rewrite <- (Zlt_Qlt 0)).
  apply rounds_to_aux; try lia.
  - apply (Qmult_le_r _ _ (inject_Z (Z.pos my))); [done|]. rewrite Hw.
    rewrite (Qmult_comm (inject_Z (Z.pos qp) * _)), Qmult_assoc.
    rewrite <- inject_Z_mult. apply scale_le. lia.
  - apply (Qmult_le_r _ _ (inject_Z (Z.pos my))); [done|]. rewrite Hw.
    rewrite (Qmult_comm (inject_Z (Z.pos qp + 1) * _)), Qmult_assoc.
    rewrite <- inject_Z_mult. apply scale_le. lia.
Qed.

End Operations.

(** *** Comparing floats by their values *)

Definition normal53 (x : spec_float) : Prop :=
  match x with
  | S754_zero _ => True
  | S754_finite _ m _ => Z.pos (digits2_pos m) = 53
  | _ => False
  end.

Lemma mantissa_pos m e : (0 < inject_Z (Z.pos m) * pow2 e)%Q.
Proof.
  apply Qmult_lt_0_compat; [by rewrite <- (Zlt_Qlt 0) | apply pow2_pos].
Qed.

Lemma normal_lt m1 e1 m2 e2 :
  Z.pos (digits2_pos m1) = 53 -> Z.pos (digits2_pos m2) = 53 -> e1 < e2 ->
  (inject_Z (Z.pos m1) * pow2 e1 < inject_Z (Z.pos m2) * pow2 e2)%Q.
Proof.
  intros H1 H2 He.
  pose proof (F64Facts.digits2_pos_bounds m1) as [_ Hhi1].
  pose proof (F64Facts.digits2_pos_bounds m2) as [Hlo2 _].
  rewrite H1 in Hhi1. rewrite H2 in Hlo2. change (2 ^ (53 - 1)) with (2 ^ 52) in Hlo2.
  apply Qlt_le_trans with (inject_Z (2 ^ 53) * pow2 e1)%Q.
  - apply Qmult_lt_compat_r; [apply pow2_pos | by rewrite <- Zlt_Qlt].
  - apply Qle_trans with (inject_Z (2 ^ 52) * pow2 (e1 + 1))%Q.
    + rewrite <- (scale_shift (2 ^ 52) e1 1) by lia.
      change (2 ^ 52 * 2 ^ 1) with (2 ^ 53). apply Qle_refl.
    + apply Qle_trans with (inject_Z (2 ^ 52) * pow2 e2)%Q.
      * apply Qmult_le_l; [reflexivity | apply pow2_le; lia].
      * by apply scale_le.
Qed.

Lemma SFltb_of_Q x y :
  normal53 x -> normal53 y -> (SF2Q x < SF2Q y)%Q -> SFltb x y = true.
Proof.
  unfold SFltb.
  destruct x as [sx | sx | | sx mx ex], y as [sy | sy | | sy my ey];
    cbn [normal53 SF2Q SFcompare]; try done; intros Hx Hy Hlt.
  - pose proof (mantissa_pos my ey). destruct sy; [lra | done].
  - pose proof (mantissa_pos mx ex). destruct sx; [done | lra].
  - pose proof (mantissa_pos mx ex). pose proof (mantissa_pos my ey).
    destruct sx, sy; try done; try lra.
    + destruct (Z.compare_spec ex ey) as [-> | He | He].
      * assert (Hm : Z.pos my < Z.pos mx).
        { rewrite Zlt_Qlt. apply (Qmult_lt_r _ _ (pow2 ey)); [apply pow2_pos|].
          lra. }
        rewrite Pos.compare_cont_spec. cbn [Pos.switch_Eq].
        assert (Hc : (mx ?= my)%positive = Gt) by (apply Pos.compare_gt_iff; lia).
        by rewrite Hc.
      * pose proof (normal_lt mx ex my ey Hx Hy He). lra.
      * done.
    + destruct (Z.compare_spec ex ey) as [-> | He | He].
      * assert (Hm : Z.pos mx < Z.pos my).
        { rewrite Zlt_Qlt. apply (Qmult_lt_r _ _ (pow2 ey)); [apply pow2_pos|].
          lra. }
        rewrite Pos.compare_cont_spec. cbn [Pos.switch_Eq].
        assert (Hc : (mx ?= my)%positive = Lt) by (apply Pos.compare_lt_iff; lia).
        by rewrite Hc.
      * done.
      * pose proof (normal_lt my ey mx ex Hy Hx He). lra.
Qed.

End Rounding.

(** ** The stored offsets against the exact formula *)

(** The rational a [float64] stands for (0 for a NaN or an infinity). *)
Definition toQ (x : float) : Q := Rounding.SF2Q (Prim2SF x).

(** How far a stored offset may be from the exact one: [2^-50]. *)
Definition offset_error : Q := 1 # 1125899906842624.

Section OffsetsRounded.
Import Rounding.

Lemma of_int_normal n :
  1 <= n < 2 ^ 53 ->
  exists m e,
    Prim2SF (F64.of_int n) = S754_finite false m e
    /\ Z.pos (digits2_pos m) = 53 /\ -52 <= e <= 0
    /\ (inject_Z (Z.pos m) * pow2 e == inject_Z n)%Q.
Proof.
  intros Hn. destruct n as [|p|p]; try lia.
  rewrite F64Facts.of_int_pos by lia.
  pose proof (Prim2SF_valid (of_uint63 (Uint63.of_Z (Z.pos p)))) as Hvalid.
  destruct (F64Facts.Prim2SF_of_uint63 p ltac:(lia)) as (m & e & Hr & He & Hm).
  rewrite Hr in Hvalid. cbn [SpecFloat.valid_binary] in Hvalid.
  unfold bounded in Hvalid. apply andb_true_iff in Hvalid as [Hc _].
  unfold canonical_mantissa, fexp, emin, prec, emax in Hc.
  apply Z.eqb_eq in Hc.
  exists m, e. split; [done|]. split; [lia|]. split; [done|].
  rewrite Hm, scale_shift by lia. replace (e + - e) with 0 by lia.
  change (pow2 0) with 1%Q. ring.
Qed.

Lemma pow2_shift e n :
  0 <= n -> (pow2 (e + n) == inject_Z (2 ^ n) * pow2 e)%Q.
Proof. intros Hn. rewrite pow2_add, (pow2_Z n) by done. ring. Qed.

Lemma exp_bounds m e lo hi :
  Z.pos (digits2_pos m) = 53 ->
  (pow2 lo <= inject_Z (Z.pos m) * pow2 e)%Q ->
  (inject_Z (Z.pos m) * pow2 e < pow2 hi)%Q ->
  lo - 53 < e < hi - 52.
Proof.
  intros Hd Hlo Hhi.
  pose proof (F64Facts.digits2_pos_bounds m) as [Hmlo Hmhi].
  rewrite Hd in Hmlo, Hmhi. change (2 ^ (53 - 1)) with (2 ^ 52) in Hmlo.
  split.
  - assert (H : (pow2 lo < pow2 (e + 53))%Q); [|apply pow2_lt_inv in H; lia].
    eapply Qle_lt_trans; [exact Hlo|].
    rewrite pow2_shift by lia.
    apply Qmult_lt_compat_r; [apply pow2_pos | by rewrite <- Zlt_Qlt].
  - assert (H : (pow2 (e + 52) < pow2 hi)%Q); [|apply pow2_lt_inv in H; lia].
    eapply Qle_lt_trans; [|exact Hhi].
    rewrite pow2_shift by lia. by apply scale_le.
Qed.

Lemma half_value :
  (inject_Z (Z.pos 4503599627370496) * pow2 (-53) == 1 # 2)%Q.
Proof. reflexivity. Qed.

(** [0.5 + float64(i)], within one rounding of [1/2 + i]. *)
Lemma sum_rounds i :
  0 <= i < 2 ^ 45 ->
  rounds_to (Prim2SF (0.5 + F64.of_int i)%float) false ((1 # 2) + inject_Z i).
Proof.
  intros Hi. rewrite add_spec.
  change (Prim2SF 0.5) with (S754_finite false 4503599627370496 (-53)).
  destruct (decide (i = 0)) as [-> | Hne].
  - change (Prim2SF (F64.of_int 0)) with (S754_zero false). cbn [SFadd].
    eapply rounds_to_proper; [|by apply rounds_to_exact].
    rewrite half_value. reflexivity.
  - destruct (of_int_normal i ltac:(lia)) as (m & e & -> & Hd & He & Hv).
    eapply rounds_to_proper;
      [|apply (SFadd_rounds 4503599627370496 (-53) m e eq_refl Hd); lia].
    rewrite half_value, Hv. reflexivity.
Qed.

(** The exact offsets keep a margin of [2^-46] from the ends of the
    interval. *)
Lemma offsetQ_margin aa i :
  1 <= aa <= 2 ^ 45 -> 0 <= i < aa ->
  ((1 # 70368744177664) <= ((1 # 2) + inject_Z i) / inject_Z aa
   /\ ((1 # 2) + inject_Z i) / inject_Z aa <= 1 - (1 # 70368744177664))%Q.
Proof.
  intros Haa Hi.
  assert (Ha : (0 < inject_Z aa)%Q) by (rewrite <- (Zlt_Qlt 0); lia).
  assert (Ha' : (inject_Z aa <= 35184372088832 # 1)%Q).
  { change (35184372088832 # 1)%Q with (inject_Z (2 ^ 45)). rewrite <- Zle_Qle. lia. }
  assert (Hi0 : (0 <= inject_Z i)%Q) by (rewrite <- (Zle_Qle 0); lia).
  assert (Hi1 : (inject_Z i + 1 <= inject_Z aa)%Q).
  { change 1%Q with (inject_Z 1). rewrite <- inject_Z_plus, <- Zle_Qle. lia. }
  split.
  - apply Qle_shift_div_l; [done|]. lra.
  - apply Qle_shift_div_r; [done|]. lra.
Qed.

(** The three roundings together, on rationals: [t] the exact quotient,
    [u] the quotient of the rounded sum, [q] the rounded quotient, [w] the
    magnitude of the rounded difference. *)
Lemma quotient_bounds (t u q : Q) :
  ((1 # 70368744177664) <= t <= 1 - (1 # 70368744177664))%Q ->
  (t * (1 - eps) <= u <= t * (1 + eps))%Q ->
  (u * (1 - eps) <= q <= u * (1 + eps))%Q ->
  ((1 # 281474976710656) <= q < 2)%Q.
Proof. unfold eps. intros Ht Hu Hq. split; lra. Qed.

Lemma difference_bounds (t u q w : Q) :
  ((1 # 70368744177664) <= t <= 1 - (1 # 70368744177664))%Q ->
  (t * (1 - eps) <= u <= t * (1 + eps))%Q ->
  (u * (1 - eps) <= q <= u * (1 + eps))%Q ->
  ((q == 1 # 2 /\ w == 0)
   \/ ((1 # 2) < q /\ (q - (1 # 2)) * (1 - eps) <= w <= (q - (1 # 2)) * (1 + eps))
   \/ (q < 1 # 2 /\ ((1 # 2) - q) * (1 - eps) <= - w <= ((1 # 2) - q) * (1 + eps)))%Q ->
  (t - (1 # 2) - offset_error <= w <= t - (1 # 2) + offset_error)%Q.
Proof.
  unfold eps, offset_error. intros Ht Hu Hq [[H1 H2] | [[H1 H2] | [H1 H2]]];
    split; lra.
Qed.

(** A stored offset is zero or a normal float, and lies within [2^-50] of
    the exact offset. *)
Lemma offset_rounded aa i :
  1 <= aa <= 2 ^ 45 -> 0 <= i < aa ->
  normal53 (Prim2SF (subpixOffset aa i))
  /\ (offsetQ aa i - offset_error <= toQ (subpixOffset aa i)
      <= offsetQ aa i + offset_error)%Q.
Proof.
  intros Haa Hi. unfold toQ, subpixOffset. rewrite sub_spec, div_spec.
  unfold SF64sub, SF64div.
  destruct (sum_rounds i ltac:(lia)) as (mX & eX & -> & HdX & HbX).
  destruct (of_int_normal aa ltac:(lia)) as (mA & eA & -> & HdA & HeA & HvA).
  change (Prim2SF 0.5) with (S754_finite false 4503599627370496 (-53)).
  destruct (offsetQ_margin aa i Haa Hi) as [Htlo Hthi].
  assert (Ha : (0 < inject_Z aa)%Q) by (rewrite <- (Zlt_Qlt 0); lia).
  assert (Hi0 : (0 <= inject_Z i)%Q) by (rewrite <- (Zle_Qle 0); lia).
  assert (Hi1 : (inject_Z i <= 35184372088832 # 1)%Q).
  { change (35184372088832 # 1)%Q with (inject_Z (2 ^ 45)). rewrite <- Zle_Qle. lia. }
  (* the exponent of the sum *)
  assert (HeX : -55 < eX < -6).
  { apply (exp_bounds mX eX (-2) 46 HdX).
    - change (pow2 (-2)) with (1 # 4)%Q. unfold eps in HbX. lra.
    - assert (pow2 46 == 70368744177664 # 1)%Q as -> by reflexivity.
      unfold eps in HbX. lra. }
  (* the quotient *)
  destruct (SFdiv_rounds mX eX mA eA HdX HdA ltac:(lia))
    as (mQ & eQ & -> & HdQ & HbQ).
  set (VX := (inject_Z (Z.pos mX) * pow2 eX)%Q) in *.
  set (VQ := (inject_Z (Z.pos mQ) * pow2 eQ)%Q) in *.
  set (c := (/ inject_Z aa)%Q).
  assert (Hc : (0 < c)%Q) by (by apply Qinv_lt_0_compat).
  set (t := (((1 # 2) + inject_Z i) * c)%Q).
  set (u := (VX * c)%Q).
  assert (Hu : (t * (1 - eps) <= u <= t * (1 + eps))%Q).
  { unfold t, u. destruct HbX as [HX1 HX2]. split.
    - apply (Qmult_le_compat_r _ _ c) in HX1; [|lra].
      eapply Qle_trans; [|exact HX1]. apply Qle_lteq. right. ring.
    - apply (Qmult_le_compat_r _ _ c) in HX2; [|lra].
      eapply Qle_trans; [exact HX2|]. apply Qle_lteq. right. ring. }
  assert (HVQ : (u * (1 - eps) <= VQ <= u * (1 + eps))%Q).
  { assert (Hq : (VX / (inject_Z (Z.pos mA) * pow2 eA) == u)%Q).
    { rewrite HvA. reflexivity. }
    rewrite Hq in HbQ. exact HbQ. }
  assert (Ht : ((1 # 70368744177664) <= t <= 1 - (1 # 70368744177664))%Q)
    by (split; [exact Htlo | exact Hthi]).
  assert (Hoff : (offsetQ aa i == t - (1 # 2))%Q) by reflexivity.
  destruct (quotient_bounds t u VQ Ht Hu HVQ) as [HQlo HQhi].
  assert (HeQ : -101 < eQ < -51).
  { apply (exp_bounds mQ eQ (-48) 1 HdQ).
    - assert (pow2 (-48) == 1 # 281474976710656)%Q as -> by reflexivity.
      exact HQlo.
    - change (pow2 1) with 2%Q. exact HQhi. }
  (* the difference *)
  destruct (SFsub_rounds mQ eQ 4503599627370496 (-53) HdQ eq_refl
              ltac:(lia) ltac:(lia)) as (Hzero & Hpos & Hneg).
  fold VQ in Hzero, Hpos, Hneg.
  rewrite Hoff.
  destruct (Q_dec VQ (1 # 2)) as [[Hlt | Hgt] | Heq].
  - assert (Hlt' : (VQ < inject_Z (Z.pos 4503599627370496) * pow2 (-53))%Q)
      by (by rewrite half_value).
    assert (Hv : (inject_Z (Z.pos 4503599627370496) * pow2 (-53) - VQ
                  == (1 # 2) - VQ)%Q) by (by rewrite half_value).
    destruct (rounds_to_proper _ _ _ _ Hv (Hneg Hlt')) as (m & e & -> & Hd & Hb).
    split; [done|]. cbn [SF2Q].
    apply (difference_bounds t u VQ _ Ht Hu HVQ).
    right. right. split; [done|].
    assert ((- (- inject_Z (Z.pos m) * pow2 e) == inject_Z (Z.pos m) * pow2 e)%Q)
      as -> by ring.
    exact Hb.
  - assert (Hgt' : (inject_Z (Z.pos 4503599627370496) * pow2 (-53) < VQ)%Q)
      by (by rewrite half_value).
    assert (Hv : (VQ - inject_Z (Z.pos 4503599627370496) * pow2 (-53)
                  == VQ - (1 # 2))%Q) by (by rewrite half_value).
    destruct (rounds_to_proper _ _ _ _ Hv (Hpos Hgt')) as (m & e & -> & Hd & Hb).
    split; [done|]. cbn [SF2Q].
    apply (difference_bounds t u VQ _ Ht Hu HVQ).
    right. left. split; [done | exact Hb].
  - assert (Heq' : (VQ == inject_Z (Z.pos 4503599627370496) * pow2 (-53))%Q)
      by (by rewrite half_value).
    rewrite (Hzero Heq'). split; [done|]. cbn [SF2Q].
    apply (difference_bounds t u VQ _ Ht Hu HVQ).
    left. split; [done | reflexivity].
Qed.

End OffsetsRounded.

Section OffsetsStored.
Import Rounding.

Lemma offset_finite aa i :
  1 <= aa <= 2 ^ 45 -> 0 <= i < aa ->
  F64.is_finite (subpixOffset aa i) = true.
Proof.
  intros Haa Hi. destruct (offset_rounded aa i Haa Hi) as [Hn _].
  unfold F64.is_finite, F64.is_nan, F64.is_inf.
  by destruct (Prim2SF (subpixOffset aa i)).
Qed.

Lemma offset_inside aa i :
  1 <= aa <= 2 ^ 45 -> 0 <= i < aa -> inside_half (subpixOffset aa i) = true.
Proof.
  intros Haa Hi. destruct (offset_rounded aa i Haa Hi) as [Hn Hb].
  destruct (offsetQ_margin aa i Haa Hi) as [Hlo Hhi].
  assert (Hoff : (offsetQ aa i == ((1 # 2) + inject_Z i) / inject_Z aa - (1 # 2))%Q)
    by reflexivity.
  unfold toQ, offset_error in Hb.
  unfold inside_half. rewrite !ltb_spec. apply andb_true_intro. split.
  - apply SFltb_of_Q; [reflexivity | done |].
    change (SF2Q (Prim2SF (-0.5))) with (- inject_Z (Z.pos 4503599627370496) * pow2 (-53))%Q.
    assert ((- inject_Z (Z.pos 4503599627370496) * pow2 (-53) == - (1 # 2))%Q) as ->
      by reflexivity.
    lra.
  - apply SFltb_of_Q; [done | reflexivity |].
    change (SF2Q (Prim2SF 0.5)) with (inject_Z (Z.pos 4503599627370496) * pow2 (-53))%Q.
    rewrite half_value. lra.
Qed.

Lemma level_spacing aa :
  1 <= aa <= 2 ^ 45 -> ((1 # 35184372088832) <= 1 / inject_Z aa)%Q.
Proof.
  intros Haa.
  assert (Ha : (0 < inject_Z aa)%Q) by (rewrite <- (Zlt_Qlt 0); lia).
  assert (Ha' : (inject_Z aa <= 35184372088832 # 1)%Q).
  { change (35184372088832 # 1)%Q with (inject_Z (2 ^ 45)). rewrite <- Zle_Qle. lia. }
  apply Qle_shift_div_l; [done|]. lra.
Qed.

(** Consecutive stored offsets differ by [1/antiAlias] up to [2^-49]. *)
Lemma offset_spacing aa i :
  1 <= aa <= 2 ^ 45 -> 0 <= i -> i + 1 < aa ->
  (1 / inject_Z aa - 2 * offset_error
   <= toQ (subpixOffset aa (i + 1)) - toQ (subpixOffset aa i)
   <= 1 / inject_Z aa + 2 * offset_error)%Q.
Proof.
  intros Haa Hi Hi1.
  destruct (offset_rounded aa i Haa ltac:(lia)) as [_ Hb].
  destruct (offset_rounded aa (i + 1) Haa ltac:(lia)) as [_ Hb'].
  pose proof (offsetQ_spacing aa i ltac:(lia)) as Hs.
  split; lra.
Qed.

Lemma offset_increasing aa i :
  1 <= aa <= 2 ^ 45 -> 0 <= i -> i + 1 < aa ->
  (subpixOffset aa i <? subpixOffset aa (i + 1))%float = true.
Proof.
  intros Haa Hi Hi1.
  destruct (offset_rounded aa i Haa ltac:(lia)) as [Hn _].
  destruct (offset_rounded aa (i + 1) Haa ltac:(lia)) as [Hn' _].
  pose proof (offset_spacing aa i Haa Hi Hi1) as [Hs _].
  pose proof (level_spacing aa Haa) as Hl.
  rewrite ltb_spec. apply SFltb_of_Q; [done | done |].
  unfold toQ, offset_error in Hs. lra.
Qed.

Lemma increasing_fmap (f : Z -> float) k : forall start,
  (forall i, start <= i -> i + 1 < start + Z.of_nat k ->
     (f i <? f (i + 1)%Z)%float = true) ->
  increasing (f <$> seqZ start (Z.of_nat k)) = true.
Proof.
  induction k as [|k IH]; intros start Hf; [done|].
  rewrite seqZ_cons by lia. cbn [fmap list_fmap].
  replace (Z.pred (Z.of_nat (S k))) with (Z.of_nat k) by lia.
  destruct k as [|k]; [done|].
  specialize (IH (Z.succ start)).
  rewrite seqZ_cons in IH |- * by lia. cbn [fmap list_fmap] in IH |- *.
  cbn [increasing]. apply andb_true_intro. split.
  - replace (Z.succ start) with (start + 1) by lia. apply Hf; lia.
  - apply IH. intros i Hi Hi1. apply Hf; lia.
Qed.

Lemma makeOffsets_checked aa :
  1 <= aa <= 2 ^ 45 ->
  Forall (fun o => inside_half o = true) (makeOffsets aa)
  /\ increasing (makeOffsets aa) = true.
Proof.
  intros Haa. unfold makeOffsets. split.
  - apply Forall_fmap, Forall_forall. intros i Hi.
    apply elem_of_seqZ in Hi. apply offset_inside; lia.
  - replace aa with (Z.of_nat (Z.to_nat aa)) at 2 by lia.
    apply increasing_fmap. intros i Hi Hi1. apply offset_increasing; lia.
Qed.

End OffsetsStored.

(** The formula itself needs a bound on the level: at level [2^54] the first
    quotient [0.5/2^54] is half a unit in the last place of [0.5], and the
    subtraction rounds to [-0.5] exactly. *)
Remark subpixOffset_large_level :
  subpixOffset (2 ^ 54) 0 = (-0.5)%float
  /\ inside_half (subpixOffset (2 ^ 54) 0) = false.
Proof. split; vm_compute; reflexivity. Qed.

(** C7, as the code has it. After [Init] with [AntiAlias >= 1] the offset
    slice has exactly [AntiAlias] elements, the [i]-th being the [float64]
    value of [(0.5 + i)/AntiAlias − 0.5]. In exact arithmetic that formula
    lies strictly inside (−0.5, 0.5) and consecutive values differ by exactly
    [1/AntiAlias]. For every level up to [2^45] (the longest slice of
    [float64] that [make] allocates: the Go runtime refuses more than [2^48]
    bytes) each stored offset is a finite [float64] within [2^-50] of the
    exact value and strictly inside (−0.5, 0.5), and consecutive stored
    offsets strictly increase and differ by [1/AntiAlias] up to [2^-49]. *)
Theorem Init_offsets (p : Parameters) :
  1 <= AntiAlias p ->
  let aa := AntiAlias p in
  let offs := subpixOffsets (Init p).1 in
  len offs = aa
  /\ (forall i, 0 <= i < aa ->
      offs !! Z.to_nat i
      = Some ((0.5 + F64.of_int i) / F64.of_int aa - 0.5)%float)
  /\ (forall i, 0 <= i < aa ->
      (- (1 # 2) < offsetQ aa i /\ offsetQ aa i < 1 # 2)%Q)
  /\ (forall i, 0 <= i -> i + 1 < aa ->
      (offsetQ aa (i + 1) - offsetQ aa i == 1 / inject_Z aa)%Q)
  /\ (aa <= 2 ^ 45 ->
      (forall i, 0 <= i < aa -> exists o,
         offs !! Z.to_nat i = Some o
         /\ F64.is_finite o = true
         /\ (offsetQ aa i - offset_error <= toQ o
             <= offsetQ aa i + offset_error)%Q
         /\ inside_half o = true)
      /\ (forall i, 0 <= i -> i + 1 < aa -> exists a b,
         offs !! Z.to_nat i = Some a /\ offs !! Z.to_nat (i + 1) = Some b
         /\ (a <? b)%float = true
         /\ (1 / inject_Z aa - 2 * offset_error <= toQ b - toQ a
             <= 1 / inject_Z aa + 2 * offset_error)%Q)
      /\ Forall (fun o => inside_half o = true) offs
      /\ increasing offs = true).
Proof.
  intros Haa aa offs. unfold offs, aa. rewrite Init_subpixOffsets by done.
  split; [|split; [|split; [|split]]].
  - unfold len. rewrite makeOffsets_length. lia.
  - intros i Hi. by rewrite makeOffsets_lookup.
  - intros i Hi. by apply offsetQ_bounds.
  - intros i _ _. by apply offsetQ_spacing.
  - intros Hmax. assert (Hl : 1 <= AntiAlias p <= 2 ^ 45) by lia.
    split; [|split].
    + intros i Hi. exists (subpixOffset (AntiAlias p) i).
      split; [by apply makeOffsets_lookup|].
      split; [by apply offset_finite|].
      split; [by apply offset_rounded | by apply offset_inside].
    + intros i Hi Hi1.
      exists (subpixOffset (AntiAlias p) i), (subpixOffset (AntiAlias p) (i + 1)).
      split; [apply makeOffsets_lookup; lia|].
      split; [apply makeOffsets_lookup; lia|].
      split; [by apply offset_increasing | by apply offset_spacing].
    + by apply makeOffsets_checked.
Qed.

(** Level 4: four increasing offsets, the second being
    [(0.5 + 1)/4 − 0.5 = −0.125]. *)
Lemma Init_offsets_witness :
  len (subpixOffsets (Init (Example.params 4 false)).1) = 4
  /\ subpixOffsets (Init (Example.params 4 false)).1 !! 1%nat
     = Some (-0.125)%float
  /\ increasing (subpixOffsets (Init (Example.params 4 false)).1) = true.
Proof.
  pose proof (Init_offsets (Example.params 4 false) ltac:(by vm_compute))
    as (Hlen & Hnth & _ & _ & Hfl).
  destruct (Hfl ltac:(by vm_compute)) as (_ & _ & _ & Hinc).
  split; [exact Hlen|]. split; [|exact Hinc].
  exact (Hnth 1 ltac:(by vm_compute)).
Defined.

(** C7, as the claim words it, fails on the computed values: at level 5 the
    offsets are −0.4, −0.2, 0, 0.19999999999999996, 0.4 (to seventeen
    digits), so the four spacings are not one constant, and two of them
    differ from [1/5]. *)
Lemma Init_offsets_spacing_counterexample :
  match spacings (subpixOffsets (Init (Example.params 5 false)).1) with
  | [d1; d2; d3; d4] =>
      ((d1 =? 1 / 5) && (d2 =? 1 / 5))%float = true
      /\ (d3 =? 1 / 5)%float = false
      /\ (d4 =? 1 / 5)%float = false
      /\ (d3 =? d4)%float = false
      /\ (d3 <? 1 / 5)%float = true
      /\ (1 / 5 <? d4)%float = true
  | _ => False
  end.
Proof. vm_compute. repeat split. Qed.

(** ** The scheduler *)

#[global] Instance worker_eq_dec : EqDecision worker.
Proof. solve_decision. Defined.

(** The number of workers whose goroutine has ended. *)
Definition exited (l : list worker) : nat :=
  length (filter (fun w => w = WExit) l).

(** The rows handed out so far, as a bound on the row numbers in play. *)
Definition fed (p : Parameters) (s : state) : Z :=
  match st_caller s with
  | MFeed row => row
  | _ => SizeY p
  end.

Section WorkerLists.

Lemma exited_le l : (exited l <= length l)%nat.
Proof. unfold exited. apply length_filter. Qed.

Lemma exited_all l : exited l = length l -> Forall (fun w => w = WExit) l.
Proof.
  unfold exited. induction l as [|w l IH]; [constructor|].
  rewrite filter_cons. destruct (decide (w = WExit)) as [->|Hne]; simpl.
  - intros Hlen. constructor; [done|]. apply IH. lia.
  - intros Hlen. pose proof (length_filter (fun w => w = WExit) l). lia.
Qed.

Lemma exited_insert_same l i w w' :
  l !! i = Some w -> w <> WExit -> w' <> WExit ->
  exited (<[i := w']> l) = exited l.
Proof.
  unfold exited. revert i. induction l as [|v l IH]; intros [|i] Hl Hw Hw';
    simplify_eq/=; rewrite !filter_cons.
  - by repeat case_decide.
  - destruct (decide (v = WExit)); simpl; by rewrite (IH i).
Qed.

Lemma exited_insert_exit l i w :
  l !! i = Some w -> w <> WExit ->
  exited (<[i := WExit]> l) = S (exited l).
Proof.
  unfold exited. revert i. induction l as [|v l IH]; intros [|i] Hl Hw;
    simplify_eq/=; rewrite !filter_cons.
  - by repeat case_decide.
  - destruct (decide (v = WExit)); simpl; by rewrite (IH i).
Qed.

Lemma Forall_exit_lookup l i w :
  Forall (fun w => w = WExit) l -> l !! i = Some w -> w = WExit.
Proof. intros Hall Hl. by apply (Forall_lookup_1 _ _ _ _ Hall Hl). Qed.

End WorkerLists.

#[global] Instance caller_eq_dec : EqDecision caller.
Proof. solve_decision. Defined.

(** A bound on the steps a state has left: every step lowers it. *)
Definition worker_measure (p : Parameters) (w : worker) : nat :=
  match w with
  | WReceive => 2
  | WColumn _ col => 3 + 2 * Z.to_nat (SizeX p - col)
  | WSignal => 1
  | WExit => 0
  end.

Definition caller_measure (p : Parameters) (m : caller) : nat :=
  match m with
  | MFeed row => 3 + (2 * Z.to_nat (SizeX p) + 2) * Z.to_nat (SizeY p - row)
  | MWait _ => 2
  | MLast => 1
  | MReturned => 0
  end.

Definition writer_measure (a : writer) : nat :=
  match a with AReceive => 2 | ASignal => 1 | AExit => 0 end.

Definition measure (p : Parameters) (s : state) : nat :=
  caller_measure p (st_caller s)
  + sum_list (worker_measure p <$> st_workers s)
  + length (pixelch s) + writer_measure (st_writer s).

Section SchedulerInvariant.
Context `{GoRuntime}.
Variable p : Parameters.
Variable fanout : nat.
Hypothesis Hwidth : 1 <= SizeX p.
Hypothesis Hheight : 1 <= SizeY p.
Hypothesis Hfits : 4 * SizeX p * SizeY p <= Int.max_int.
Hypothesis Hfanout : Z.of_nat fanout < Int.max_int.

(* Every lemma of the section takes the four hypotheses, used or not. *)
#[local] Set Default Proof Using "All".

(** The place of pixel [(col, row)] in the buffer. *)
Definition index_of (col row : Z) : nat := Z.to_nat (row * SizeX p + col).

Definition pixel_ok (px : pixel) : Prop :=
  0 <= pixel_x px < SizeX p /\ 0 <= pixel_y px < SizeY p
  /\ CalcPixel p (pixel_x px) (pixel_y px) = Ok (pixel_color px).

Definition worker_ok (s : state) (w : worker) : Prop :=
  match w with
  | WReceive => True
  | WColumn row col => 0 <= col <= SizeX p /\ 0 <= row < fed p s
  | WSignal | WExit => rows_closed s = true
  end.

Definition caller_ok (s : state) : Prop :=
  match st_caller s with
  | MFeed row =>
      0 <= row <= SizeY p /\ rows_closed s = false /\ pixelch_closed s = false
  | MWait i =>
      i = Z.of_nat (exited (st_workers s)) /\ rows_closed s = true
      /\ pixelch_closed s = false
  | MLast =>
      rows_closed s = true /\ pixelch_closed s = true
      /\ Forall (fun w => w = WExit) (st_workers s)
  | MReturned =>
      rows_closed s = true /\ pixelch_closed s = true
      /\ Forall (fun w => w = WExit) (st_workers s) /\ st_writer s = AExit
  end.

(** Pixel [(col, row)] has left its worker. *)
Definition produced (s : state) (col row : Z) : Prop :=
  0 <= col < SizeX p /\ 0 <= row < fed p s
  /\ forall i c, st_workers s !! i = Some (WColumn row c) -> col < c.

(** Pixel [(col, row)] is in the channel or on the canvas. *)
Definition delivered (s : state) (col row : Z) : Prop :=
  (exists c, mkPixel col row c ∈ pixelch s)
  \/ Pix (canvas s) !! index_of col row = Some (pixel_color_at p col row).

Record Inv (s : state) : Prop := {
  inv_bounds : bounds (canvas s) = mkRectangle 0 0 (SizeX p) (SizeY p);
  inv_pix : length (Pix (canvas s)) = Z.to_nat (SizeX p * SizeY p);
  inv_nworkers : length (st_workers s) = fanout;
  inv_caller : caller_ok s;
  inv_workers : forall i w, st_workers s !! i = Some w -> worker_ok s w;
  inv_writer :
    st_writer s <> AReceive -> pixelch s = [] /\ pixelch_closed s = true;
  inv_writer_exit : st_writer s = AExit -> st_caller s = MReturned;
  inv_queue : Forall pixel_ok (pixelch s);
  inv_delivered : forall col row, produced s col row -> delivered s col row
}.

Lemma index_of_inj col row col' row' :
  0 <= col < SizeX p -> 0 <= row -> 0 <= col' < SizeX p -> 0 <= row' ->
  index_of col row = index_of col' row' -> col = col' /\ row = row'.
Proof.
  unfold index_of. intros Hc Hr Hc' Hr' Heq.
  assert (row * SizeX p + col = row' * SizeX p + col') by nia.
  assert (row = row') by nia. split; nia.
Qed.

Lemma index_of_lt col row :
  0 <= col < SizeX p -> 0 <= row < SizeY p ->
  (index_of col row < Z.to_nat (SizeX p * SizeY p))%nat.
Proof. unfold index_of. intros Hc Hr. nia. Qed.

Lemma Inv_start s0 : Generate_start p fanout = Ok s0 -> Inv s0.
Proof.
  unfold Generate_start. destruct (negb _); [done|].
  destruct (SizeX p <? 0) eqn:E; [done|].
  unfold NewNRGBA, Rect.
  replace (SizeX p <? 0) with false by done.
  replace (SizeY p <? 0) with false by (symmetry; apply Z.ltb_ge; lia).
  unfold Dx, Dy. cbn [minX maxX minY maxY].
  rewrite !Z.sub_0_r.
  destruct (Int.max_int <? 4 * SizeX p * SizeY p) eqn:E2; [lia|].
  cbn [mbind result_bind]. intros [= <-].
  split; cbn [canvas bounds Pix st_workers st_caller st_writer pixelch
                pixelch_closed rows_closed].
  - done.
  - by rewrite length_replicate.
  - by rewrite length_replicate.
  - unfold caller_ok. simpl. lia.
  - intros i w Hw. apply lookup_replicate in Hw as [-> _]. done.
  - done.
  - done.
  - constructor.
  - intros col row (_ & Hrow & _). unfold fed in Hrow. simpl in Hrow. lia.
Qed.


Lemma height_in_range z : 0 <= z <= SizeY p -> Int.add z 1 = z + 1.
Proof.
  intros Hz. apply IntFacts.add_id.
  unfold Int.in_range, Int.min_int, Int.max_int in *. nia.
Qed.

Lemma width_in_range z : 0 <= z <= SizeX p -> Int.add z 1 = z + 1.
Proof.
  intros Hz. apply IntFacts.add_id.
  unfold Int.in_range, Int.min_int, Int.max_int in *. nia.
Qed.

Lemma height_or_width_add z :
  0 <= z < SizeX p \/ 0 <= z < SizeY p -> Int.add z 1 = z + 1.
Proof.
  intros Hz. apply IntFacts.add_id.
  unfold Int.in_range, Int.min_int, Int.max_int in *. nia.
Qed.

Lemma worker_ok_fed s s' w :
  rows_closed s' = rows_closed s -> fed p s <= fed p s' ->
  worker_ok s w -> worker_ok s' w.
Proof.
  intros Hclosed Hfed. destruct w; cbn [worker_ok]; try done; [lia | congruence..].
Qed.

Lemma Inv_feed s row i :
  Inv s -> st_caller s = MFeed row -> row < SizeY p ->
  st_workers s !! i = Some WReceive ->
  Inv (set_worker (set_caller s (MFeed (Int.add row 1))) i (WColumn row 0)).
Proof.
  intros HI Hcaller Hrow Hi.
  pose proof (inv_caller s HI) as Hc. unfold caller_ok in Hc.
  rewrite Hcaller in Hc. destruct Hc as (Hr & Hrc & Hpc).
  rewrite height_in_range by lia.
  assert (Hfed : fed p s = row) by (unfold fed; by rewrite Hcaller).
  split; simpl.
  - apply (inv_bounds s HI).
  - apply (inv_pix s HI).
  - rewrite length_insert. apply (inv_nworkers s HI).
  - unfold caller_ok. simpl. split_and!; try done; lia.
  - intros j w Hj. apply list_lookup_insert_Some in Hj as [(<- & <- & _) | (Hne & Hj)].
    + simpl. unfold fed. simpl. lia.
    + eapply worker_ok_fed; [| |apply (inv_workers s HI j w Hj)]; [done|].
      unfold fed at 2. simpl. lia.
  - apply (inv_writer s HI).
  - intros Hw. apply (inv_writer_exit s HI) in Hw. congruence.
  - apply (inv_queue s HI).
  - intros col r (Hcol & Hr' & Hworkers). unfold fed in Hr'. simpl in Hr'.
    assert (r <> row).
    { intros ->. specialize (Hworkers i 0). simpl in Hworkers.
      rewrite list_lookup_insert_eq in Hworkers
        by (by apply lookup_lt_Some in Hi).
      specialize (Hworkers eq_refl). lia. }
    destruct (inv_delivered s HI col r) as [Hq | Hp].
    + split; [done|]. split; [lia|]. intros j c Hj.
      apply (Hworkers j c). simpl.
      rewrite list_lookup_insert_ne; [done|]. intros <-. congruence.
    + by left.
    + by right.
Qed.


Lemma fed_le s : Inv s -> fed p s <= SizeY p.
Proof.
  intros HI. pose proof (inv_caller s HI) as Hc. unfold caller_ok, fed in *.
  destruct (st_caller s); lia.
Qed.

(** While a worker has not ended, [pixelch] is open. *)
Lemma working_open s i w :
  Inv s -> st_workers s !! i = Some w -> w <> WExit -> pixelch_closed s = false.
Proof.
  intros HI Hi Hw. pose proof (inv_caller s HI) as Hc. unfold caller_ok in Hc.
  destruct (st_caller s); try (by destruct Hc as (_ & _ & ?)).
  - destruct Hc as (_ & _ & Hall). by apply (Forall_exit_lookup _ i w) in Hall.
  - destruct Hc as (_ & _ & Hall & _). by apply (Forall_exit_lookup _ i w) in Hall.
Qed.

Lemma working_writer s i w :
  Inv s -> st_workers s !! i = Some w -> w <> WExit -> st_writer s = AReceive.
Proof.
  intros HI Hi Hw. destruct (st_writer s) eqn:Ew; [done| |].
  - destruct (inv_writer s HI) as [_ Hc]; [congruence|].
    by rewrite (working_open s i w HI Hi Hw) in Hc.
  - destruct (inv_writer s HI) as [_ Hc]; [congruence|].
    by rewrite (working_open s i w HI Hi Hw) in Hc.
Qed.

(** Replacing a worker that has not ended by another that has not ended
    leaves the caller's view unchanged. *)
Lemma caller_ok_insert s s' i w w' :
  Inv s -> st_workers s !! i = Some w -> w <> WExit -> w' <> WExit ->
  st_caller s' = st_caller s -> st_workers s' = <[i := w']> (st_workers s) ->
  rows_closed s' = rows_closed s -> pixelch_closed s' = pixelch_closed s ->
  caller_ok s'.
Proof.
  intros HI Hi Hw Hw' Ecaller Eworkers Erows Epix.
  pose proof (inv_caller s HI) as Hc. unfold caller_ok in *.
  rewrite Ecaller, Eworkers, Erows, Epix.
  destruct (st_caller s).
  - done.
  - by rewrite (exited_insert_same _ i w w').
  - destruct Hc as (_ & _ & Hall). by apply (Forall_exit_lookup _ i w) in Hall.
  - destruct Hc as (_ & _ & Hall & _). by apply (Forall_exit_lookup _ i w) in Hall.
Qed.

Lemma Inv_close_rows s row :
  Inv s -> st_caller s = MFeed row -> ~ row < SizeY p ->
  Inv (set_caller (close_rows s) (MWait 0)).
Proof.
  intros HI Hcaller Hrow.
  pose proof (inv_caller s HI) as Hc. unfold caller_ok in Hc.
  rewrite Hcaller in Hc. destruct Hc as (Hr & Hrc & Hpc).
  assert (Hfed : fed p s = SizeY p) by (unfold fed; rewrite Hcaller; lia).
  split; simpl.
  - apply (inv_bounds s HI).
  - apply (inv_pix s HI).
  - apply (inv_nworkers s HI).
  - unfold caller_ok. simpl. split_and!; try done.
    assert (Hnone : Forall (fun w => w <> WExit) (st_workers s)).
    { apply Forall_lookup. intros i w Hi ->.
      pose proof (inv_workers s HI i WExit Hi) as Hw. simpl in Hw. congruence. }
    unfold exited. clear -Hnone. induction Hnone as [|w l Hw _ IH]; [done|].
    rewrite filter_cons. by rewrite decide_False.
  - intros j w Hj. pose proof (inv_workers s HI j w Hj) as Hw.
    destruct w; simpl in *; try done. unfold fed. simpl. lia.
  - apply (inv_writer s HI).
  - intros Hw. apply (inv_writer_exit s HI) in Hw. congruence.
  - apply (inv_queue s HI).
  - intros col r (Hcol & Hr' & Hworkers). unfold fed in Hr'. simpl in Hr'.
    apply (inv_delivered s HI col r). split; [done|]. split; [lia|]. done.
Qed.

Lemma Inv_pixel s i row col c :
  Inv s -> st_workers s !! i = Some (WColumn row col) -> col < SizeX p ->
  CalcPixel p col row = Ok c ->
  Inv (set_worker (send_pixel s (mkPixel col row c)) i
         (WColumn row (Int.add col 1))).
Proof.
  intros HI Hi Hcol Hcalc.
  pose proof (inv_workers s HI i _ Hi) as (Hc & Hr). 
  pose proof (fed_le s HI) as Hfed.
  rewrite width_in_range by lia.
  split; simpl.
  - apply (inv_bounds s HI).
  - apply (inv_pix s HI).
  - rewrite length_insert. apply (inv_nworkers s HI).
  - by apply (caller_ok_insert s _ i (WColumn row col) (WColumn row (col + 1))).
  - intros j w Hj. apply list_lookup_insert_Some in Hj as [(<- & <- & _) | (Hne & Hj)].
    + simpl. split; [lia|]. done.
    + eapply worker_ok_fed; [| |apply (inv_workers s HI j w Hj)]; done.
  - intros Hw. by rewrite (working_writer s i _ HI Hi) in Hw.
  - apply (inv_writer_exit s HI).
  - apply Forall_app. split; [apply (inv_queue s HI)|].
    constructor; [|constructor]. unfold pixel_ok. simpl. split_and!; try done; lia.
  - intros col0 row0 (Hcol0 & Hrow0 & Hworkers). simpl in Hworkers.
    change (fed p (set_worker (send_pixel s (mkPixel col row c)) i
                     (WColumn row (col + 1)))) with (fed p s) in Hrow0.
    destruct (decide (col0 = col /\ row0 = row)) as [[-> ->] | Hne].
    { left. exists c. simpl. apply elem_of_app. right. by apply list_elem_of_singleton. }
    destruct (inv_delivered s HI col0 row0) as [[c' Hq] | Hp].
    + split; [done|]. split; [done|]. intros j c' Hj.
      destruct (decide (j = i)) as [-> | Hji].
      * rewrite Hi in Hj. injection Hj as <- <-.
        specialize (Hworkers i (col + 1)).
        rewrite list_lookup_insert_eq in Hworkers by (by apply lookup_lt_Some in Hi).
        specialize (Hworkers eq_refl). lia.
      * apply (Hworkers j c'). by rewrite list_lookup_insert_ne.
    + left. exists c'. simpl. apply elem_of_app. by left.
    + by right.
Qed.


(** A worker that leaves the column loop, or learns that [rows] is closed,
    hands over no pixel: what was produced stays so. *)
Lemma Inv_worker_moves s i w w' :
  Inv s -> st_workers s !! i = Some w -> w <> WExit -> w' <> WExit ->
  worker_ok s w' ->
  (forall row col, w = WColumn row col -> ~ col < SizeX p) ->
  (forall row col, w' <> WColumn row col) ->
  Inv (set_worker s i w').
Proof.
  intros HI Hi Hw Hw' Hok Hleft Hnocol.
  split; simpl.
  - apply (inv_bounds s HI).
  - apply (inv_pix s HI).
  - rewrite length_insert. apply (inv_nworkers s HI).
  - by apply (caller_ok_insert s _ i w w').
  - intros j v Hj. apply list_lookup_insert_Some in Hj as [(<- & <- & _) | (Hne & Hj)].
    + eapply worker_ok_fed; [| |exact Hok]; done.
    + eapply worker_ok_fed; [| |apply (inv_workers s HI j v Hj)]; done.
  - apply (inv_writer s HI).
  - apply (inv_writer_exit s HI).
  - apply (inv_queue s HI).
  - intros col0 row0 (Hcol0 & Hrow0 & Hworkers). simpl in Hworkers.
    change (fed p (set_worker s i w')) with (fed p s) in Hrow0.
    apply (inv_delivered s HI col0 row0).
    split; [done|]. split; [done|]. intros j c Hj.
    destruct (decide (j = i)) as [-> | Hji].
    + rewrite Hi in Hj. injection Hj as ->.
      specialize (Hleft row0 c eq_refl). lia.
    + apply (Hworkers j c). by rewrite list_lookup_insert_ne.
Qed.

Lemma Inv_worker_done s i m :
  Inv s -> st_workers s !! i = Some WSignal ->
  caller_received fanout (st_caller s) = Some m ->
  Inv (set_worker (set_caller s m) i WExit).
Proof.
  intros HI Hi Hrecv.
  pose proof (inv_caller s HI) as Hc. unfold caller_ok in Hc.
  pose proof (inv_workers s HI i _ Hi) as Hclosed. simpl in Hclosed.
  destruct (st_caller s) as [row | k | |] eqn:Hcaller; simpl in Hrecv; try done.
  2:{ destruct Hc as (_ & _ & Hall). by apply (Forall_exit_lookup _ i WSignal) in Hall. }
  destruct (k <? Z.of_nat fanout) eqn:Hk; [|done]. injection Hrecv as <-.
  destruct Hc as (Hexited & Hrc & Hpc).
  assert (Hadd : Int.add k 1 = k + 1).
  { apply IntFacts.add_id. unfold Int.in_range, Int.min_int, Int.max_int in *. lia. }
  rewrite Hadd.
  assert (Hfed : fed p s = SizeY p) by (unfold fed; by rewrite Hcaller).
  split; simpl.
  - apply (inv_bounds s HI).
  - apply (inv_pix s HI).
  - rewrite length_insert. apply (inv_nworkers s HI).
  - unfold caller_ok. simpl. split_and!; try done.
    rewrite (exited_insert_exit _ i WSignal) by done. lia.
  - intros j v Hj. apply list_lookup_insert_Some in Hj as [(<- & <- & _) | (Hne & Hj)].
    + done.
    + eapply worker_ok_fed; [| |apply (inv_workers s HI j v Hj)]; [done|].
      rewrite Hfed. unfold fed. simpl. lia.
  - apply (inv_writer s HI).
  - intros Hw. apply (inv_writer_exit s HI) in Hw. congruence.
  - apply (inv_queue s HI).
  - intros col0 row0 (Hcol0 & Hrow0 & Hworkers). simpl in Hworkers.
    unfold fed in Hrow0. simpl in Hrow0.
    apply (inv_delivered s HI col0 row0).
    split; [done|]. split; [by rewrite Hfed|]. intros j c Hj.
    apply (Hworkers j c). rewrite list_lookup_insert_ne; [done|].
    intros <-. congruence.
Qed.

Lemma Inv_close_pixelch s i :
  Inv s -> st_caller s = MWait i -> ~ i < Z.of_nat fanout ->
  Inv (set_caller (close_pixelch s) MLast).
Proof.
  intros HI Hcaller Hi.
  pose proof (inv_caller s HI) as Hc. unfold caller_ok in Hc.
  rewrite Hcaller in Hc. destruct Hc as (Hexited & Hrc & Hpc).
  assert (Hfed : fed p s = SizeY p) by (unfold fed; by rewrite Hcaller).
  split; simpl.
  - apply (inv_bounds s HI).
  - apply (inv_pix s HI).
  - apply (inv_nworkers s HI).
  - unfold caller_ok. simpl. split_and!; try done.
    apply exited_all. pose proof (exited_le (st_workers s)).
    rewrite (inv_nworkers s HI) in *. lia.
  - intros j v Hj. eapply worker_ok_fed; [| |apply (inv_workers s HI j v Hj)]; [done|].
    rewrite Hfed. unfold fed. simpl. lia.
  - intros Hw. destruct (inv_writer s HI Hw) as [_ Hclosed]. congruence.
  - intros Hw. apply (inv_writer_exit s HI) in Hw. congruence.
  - apply (inv_queue s HI).
  - intros col0 row0 (Hcol0 & Hrow0 & Hworkers). simpl in Hworkers.
    unfold fed in Hrow0. simpl in Hrow0.
    apply (inv_delivered s HI col0 row0). split; [done|]. by rewrite Hfed.
Qed.

Lemma pixel_color_at_ok col row c :
  CalcPixel p col row = Ok c -> pixel_color_at p col row = c.
Proof. intros Hc. unfold pixel_color_at. by rewrite Hc. Qed.

Lemma Inv_write s px rest :
  Inv s -> st_writer s = AReceive -> pixelch s = px :: rest ->
  Inv (write_pixel s px rest).
Proof.
  intros HI Hw Hq.
  pose proof (inv_queue s HI) as Hqueue. rewrite Hq in Hqueue.
  apply Forall_cons_1 in Hqueue as [(Hx & Hy & Hcolor) Hrest].
  assert (Hin : In_rect (pixel_x px) (pixel_y px) (bounds (canvas s)) = true).
  { rewrite (inv_bounds s HI). unfold In_rect. simpl.
    repeat (apply andb_true_intro; split); lia. }
  assert (Hoff : Z.to_nat (PixOffset (canvas s) (pixel_x px) (pixel_y px))
                 = index_of (pixel_x px) (pixel_y px)).
  { unfold PixOffset, index_of, Dx. rewrite (inv_bounds s HI). simpl.
    f_equal. lia. }
  assert (Hcanvas : Canvas_Set (canvas s) (pixel_x px) (pixel_y px) (pixel_color px)
            = mkCanvas (bounds (canvas s))
                (<[index_of (pixel_x px) (pixel_y px) := pixel_color px]>
                   (Pix (canvas s)))).
  { unfold Canvas_Set. by rewrite Hin, Hoff. }
  split; unfold write_pixel; cbn [canvas st_caller st_workers st_writer
    rows_closed pixelch pixelch_closed]; rewrite ?Hcanvas; cbn [bounds Pix].
  - apply (inv_bounds s HI).
  - rewrite length_insert. apply (inv_pix s HI).
  - apply (inv_nworkers s HI).
  - apply (inv_caller s HI).
  - apply (inv_workers s HI).
  - congruence.
  - apply (inv_writer_exit s HI).
  - exact Hrest.
  - intros col0 row0 Hprod.
    pose proof Hprod as (Hcol0 & Hrow0 & _).
    pose proof (fed_le s HI) as Hfed.
    change (fed p (mkState (st_caller s) (st_workers s) (st_writer s)
              (rows_closed s) rest (pixelch_closed s)
              (mkCanvas (bounds (canvas s))
                 (<[index_of (pixel_x px) (pixel_y px) := pixel_color px]>
                    (Pix (canvas s)))))) with (fed p s) in Hrow0.
    unfold delivered. cbn [pixelch canvas Pix].
    destruct (decide (index_of col0 row0 = index_of (pixel_x px) (pixel_y px)))
      as [Heq | Hne].
    { right. rewrite Heq, list_lookup_insert_eq.
      - apply index_of_inj in Heq as [-> ->]; try lia.
        by rewrite (pixel_color_at_ok _ _ _ Hcolor).
      - rewrite (inv_pix s HI). apply index_of_lt; lia. }
    destruct (inv_delivered s HI col0 row0 Hprod) as [[c Hc] | Hp].
    + rewrite Hq in Hc. apply elem_of_cons in Hc as [Heq | Hc].
      * subst px. by simpl in Hne.
      * left. by exists c.
    + right. by rewrite list_lookup_insert_ne.
Qed.

Lemma Inv_pixelch_closed s :
  Inv s -> st_writer s = AReceive -> pixelch s = [] -> pixelch_closed s = true ->
  Inv (set_writer s ASignal).
Proof.
  intros HI Hw Hq Hclosed.
  split; simpl.
  - apply (inv_bounds s HI).
  - apply (inv_pix s HI).
  - apply (inv_nworkers s HI).
  - pose proof (inv_caller s HI) as Hc. unfold caller_ok in *. simpl.
    destruct (st_caller s); try done.
    destruct Hc as (_ & _ & _ & Ha). congruence.
  - apply (inv_workers s HI).
  - done.
  - done.
  - apply (inv_queue s HI).
  - apply (inv_delivered s HI).
Qed.

Lemma Inv_writer_done s m :
  Inv s -> st_writer s = ASignal ->
  caller_received fanout (st_caller s) = Some m ->
  Inv (set_writer (set_caller s m) AExit).
Proof.
  intros HI Hw Hrecv.
  destruct (inv_writer s HI) as [Hq Hclosed]; [congruence|].
  pose proof (inv_caller s HI) as Hc. unfold caller_ok in Hc.
  destruct (st_caller s) as [row | k | |] eqn:Hcaller; simpl in Hrecv; try done.
  { destruct Hc as (_ & _ & Hpc). congruence. }
  injection Hrecv as <-. destruct Hc as (Hrc & _ & Hall).
  assert (Hfed : fed p s = SizeY p) by (unfold fed; by rewrite Hcaller).
  split; simpl.
  - apply (inv_bounds s HI).
  - apply (inv_pix s HI).
  - apply (inv_nworkers s HI).
  - unfold caller_ok. simpl. done.
  - intros j v Hj. eapply worker_ok_fed; [| |apply (inv_workers s HI j v Hj)]; [done|].
    rewrite Hfed. unfold fed. simpl. lia.
  - done.
  - done.
  - apply (inv_queue s HI).
  - intros col0 row0 (Hcol0 & Hrow0 & Hworkers). simpl in Hworkers.
    unfold fed in Hrow0. simpl in Hrow0.
    apply (inv_delivered s HI col0 row0). split; [done|]. by rewrite Hfed.
Qed.

Lemma Inv_step s s' : Inv s -> step p fanout s s' -> Inv s'.
Proof.
  intros HI Hstep. destruct Hstep.
  - by apply Inv_feed.
  - by apply (Inv_close_rows s row).
  - by apply Inv_pixel.
  - apply (Inv_worker_moves s i (WColumn row col) WReceive); try done.
    by intros ? ? [= <- <-].
  - apply (Inv_worker_moves s i WReceive WSignal); try done.
  - by apply Inv_worker_done.
  - by apply (Inv_close_pixelch s i).
  - by apply Inv_write.
  - by apply Inv_pixelch_closed.
  - by apply Inv_writer_done.
Qed.

Lemma Inv_reachable s : reachable p fanout s -> Inv s.
Proof.
  intros (s0 & Hstart & Hrun).
  apply (rtc_ind_r (R := step p fanout) (fun s => Inv s) s0);
    [by apply Inv_start | | exact Hrun].
  intros s1 s2 _ Hstep IH. by apply (Inv_step s1).
Qed.

(** The canvas at the return: every pixel is the sampler's. *)
Lemma Inv_returned s : Inv s -> st_caller s = MReturned -> canvas s = rendered p.
Proof.
  intros HI Hret.
  pose proof (inv_caller s HI) as Hc. unfold caller_ok in Hc. rewrite Hret in Hc.
  destruct Hc as (_ & _ & Hall & Hwriter).
  destruct (inv_writer s HI) as [Hq _]; [congruence|].
  destruct (canvas s) as [b pix] eqn:Hcanvas. unfold rendered.
  pose proof (inv_bounds s HI) as Hb. pose proof (inv_pix s HI) as Hlen.
  rewrite Hcanvas in Hb, Hlen. simpl in Hb, Hlen. subst b. f_equal.
  apply (list_eq_same_length _ _ (Z.to_nat (SizeX p * SizeY p))).
  - rewrite length_fmap, length_seqZ. done.
  - done.
  - intros k x y Hk Hx Hy.
    rewrite list_lookup_fmap, (lookup_seqZ_lt 0 _ k) in Hy by lia.
    simpl in Hy. rewrite Z.add_0_l in Hy. injection Hy as <-.
    set (col := Z.of_nat k mod SizeX p). set (row := Z.of_nat k / SizeX p).
    assert (Hcol : 0 <= col < SizeX p) by (apply Z.mod_pos_bound; lia).
    assert (Hrow : 0 <= row < SizeY p).
    { split; [apply Z.div_pos; lia|]. apply Z.div_lt_upper_bound; lia. }
    assert (Hidx : index_of col row = k).
    { unfold index_of, col, row.
      pose proof (Z.div_mod (Z.of_nat k) (SizeX p) ltac:(lia)). lia. }
    destruct (inv_delivered s HI col row) as [[c Hin] | Hp].
    + split; [done|]. split; [unfold fed; rewrite Hret; lia|].
      intros i c Hi. by apply (Forall_exit_lookup _ i _ Hall) in Hi.
    + rewrite Hq in Hin. by apply elem_of_nil in Hin.
    + rewrite Hcanvas in Hp. simpl in Hp. rewrite Hidx in Hp. congruence.
Qed.

(** *** No deadlock *)

Hypothesis Hcalc : forall col row,
  0 <= col < SizeX p -> 0 <= row < SizeY p -> exists c, CalcPixel p col row = Ok c.

(** A worker inside the column loop can move, or the writer can. *)
Lemma column_progress s i row col :
  Inv s -> st_workers s !! i = Some (WColumn row col) ->
  exists s', step p fanout s s'.
Proof.
  intros HI Hi.
  pose proof (inv_workers s HI i _ Hi) as (Hcol & Hrow).
  pose proof (fed_le s HI) as Hfed.
  destruct (decide (col < SizeX p)) as [Hlt | Hge].
  - destruct (Hcalc col row ltac:(lia) ltac:(lia)) as [c Hc].
    destruct (decide (len (pixelch s) < SizeX p)) as [Hroom | Hfull].
    + eexists. by apply (step_pixel p fanout s i row col c).
    + destruct (pixelch s) as [|px rest] eqn:Hq.
      { unfold len in Hfull. simpl in Hfull. lia. }
      eexists. apply (step_write p fanout s px rest); [|done].
      by apply (working_writer s i (WColumn row col)).
  - eexists. by apply (step_row_done p fanout s i row col).
Qed.

Lemma exited_some_left l :
  (exited l < length l)%nat -> exists i w, l !! i = Some w /\ w <> WExit.
Proof.
  unfold exited. induction l as [|v l IH]; simpl; [lia|].
  rewrite filter_cons. destruct (decide (v = WExit)) as [->|Hne]; simpl.
  - intros Hlt. destruct IH as (i & w & Hi & Hw); [lia|].
    by exists (S i), w.
  - intros _. by exists 0%nat, v.
Qed.

Lemma progress s :
  (1 <= fanout)%nat -> Inv s -> st_caller s <> MReturned ->
  exists s', step p fanout s s'.
Proof.
  intros Hpool HI Hrun.
  pose proof (inv_caller s HI) as Hc. unfold caller_ok in Hc.
  destruct (st_caller s) as [row | k | |] eqn:Hcaller; [| | |done].
  - destruct Hc as (Hr & Hrc & Hpc).
    destruct (decide (row < SizeY p)) as [Hlt | Hge].
    + destruct (st_workers s !! 0%nat) as [w|] eqn:H0.
      2:{ apply lookup_ge_None in H0. rewrite (inv_nworkers s HI) in H0. lia. }
      pose proof (inv_workers s HI _ _ H0) as Hw.
      destruct w as [| r c | |]; simpl in Hw; try congruence.
      * eexists. by apply (step_feed p fanout s row 0%nat).
      * by apply (column_progress s 0%nat r c).
    + eexists. by apply (step_close_rows p fanout s row).
  - destruct Hc as (Hexited & Hrc & Hpc).
    destruct (decide (k < Z.of_nat fanout)) as [Hlt | Hge].
    + destruct (exited_some_left (st_workers s)) as (i & w & Hi & Hw).
      { rewrite (inv_nworkers s HI). lia. }
      destruct w as [| r c | |]; [| | |done].
      * eexists. by apply (step_rows_closed p fanout s i).
      * by apply (column_progress s i r c).
      * eexists. apply (step_worker_done p fanout s i (MWait (Int.add k 1))); [done|].
        rewrite Hcaller. simpl. by apply Z.ltb_lt in Hlt as ->.
    + eexists. by apply (step_close_pixelch p fanout s k).
  - destruct Hc as (Hrc & Hpc & Hall).
    destruct (st_writer s) eqn:Hw.
    + destruct (pixelch s) as [|px rest] eqn:Hq.
      * eexists. by apply (step_pixelch_closed p fanout s).
      * eexists. by apply (step_write p fanout s px rest).
    + eexists. apply (step_writer_done p fanout s MReturned); [done|].
      by rewrite Hcaller.
    + apply (inv_writer_exit s HI) in Hw. congruence.
Qed.

Lemma no_crash s : Inv s -> ~ crashes p s.
Proof.
  intros HI (i & row & col & msg & Hi & Hcol & Hpanic).
  pose proof (inv_workers s HI i _ Hi) as (Hc & Hr).
  pose proof (fed_le s HI).
  destruct (Hcalc col row ltac:(lia) ltac:(lia)) as [c Hc']. congruence.
Qed.


(** *** Termination *)

Lemma sum_list_insert (f : worker -> nat) l i w w' :
  l !! i = Some w ->
  (sum_list (f <$> <[i := w']> l) + f w = sum_list (f <$> l) + f w')%nat.
Proof.
  revert i. induction l as [|v l IH]; intros [|i] Hi; simplify_eq/=; [lia|].
  specialize (IH i Hi). lia.
Qed.

Lemma step_measure s s' :
  Inv s -> step p fanout s s' -> (measure p s' < measure p s)%nat.
Proof.
  intros HI Hstep.
  destruct Hstep as [s row i Hcaller Hrow Hi | s row Hcaller Hrow
    | s i row col c Hi Hcol Hcalc' Hroom | s i row col Hi Hcol | s i Hi Hclosed
    | s i m Hi Hrecv | s i Hcaller Hi | s px rest Hw Hq | s Hw Hq Hclosed
    | s m Hw Hrecv]; unfold measure; simpl.
  - pose proof (sum_list_insert (worker_measure p) _ i _ (WColumn row 0) Hi) as Hs.
    pose proof (inv_caller s HI) as Hc. unfold caller_ok in Hc.
    rewrite Hcaller in *. destruct Hc as (Hr & _). simpl in *.
    rewrite height_or_width_add by lia.
    replace (Z.to_nat (SizeY p - row)) with (S (Z.to_nat (SizeY p - (row + 1)))) by lia.
    rewrite Z.sub_0_r in Hs. lia.
  - rewrite Hcaller. simpl. lia.
  - pose proof (sum_list_insert (worker_measure p) _ i _
                  (WColumn row (Int.add col 1)) Hi) as Hs.
    pose proof (inv_workers s HI i _ Hi) as (Hc & _).
    rewrite length_app. simpl in *.
    rewrite height_or_width_add in Hs |- * by lia.
    replace (Z.to_nat (SizeX p - col)) with (S (Z.to_nat (SizeX p - (col + 1)))) in Hs by lia.
    lia.
  - pose proof (sum_list_insert (worker_measure p) _ i _ WReceive Hi) as Hs.
    simpl in *. lia.
  - pose proof (sum_list_insert (worker_measure p) _ i _ WSignal Hi) as Hs.
    simpl in *. lia.
  - pose proof (sum_list_insert (worker_measure p) _ i _ WExit Hi) as Hs.
    simpl in *.
    destruct (st_caller s) as [row | k | |]; simpl in Hrecv; try done.
    + destruct (k <? Z.of_nat fanout); [|done]. injection Hrecv as <-. simpl. lia.
    + injection Hrecv as <-. simpl. lia.
  - rewrite Hcaller. simpl. lia.
  - rewrite Hw, Hq. simpl. lia.
  - rewrite Hw. simpl. lia.
  - rewrite Hw. simpl.
    destruct (st_caller s) as [row | k | |]; simpl in Hrecv; try done.
    + destruct (k <? Z.of_nat fanout); [|done]. injection Hrecv as <-. simpl. lia.
    + injection Hrecv as <-. simpl. lia.
Qed.

(** No run is longer than the measure of the state it starts from. *)
Lemma run_bounded n s s' :
  Inv s -> nsteps (step p fanout) n s s' ->
  (n + measure p s' <= measure p s)%nat.
Proof.
  intros HI Hrun. induction Hrun as [|n s1 s2 s3 Hstep _ IH]; [lia|].
  pose proof (step_measure _ _ HI Hstep).
  specialize (IH (Inv_step _ _ HI Hstep)). lia.
Qed.

(** From every state of a run some schedule leads to the return. *)
Lemma run_completes s :
  (1 <= fanout)%nat -> Inv s ->
  exists s', rtc (step p fanout) s s' /\ st_caller s' = MReturned.
Proof.
  intros Hpool. remember (measure p s) as n eqn:Hn. revert s Hn.
  induction n as [n IH] using lt_wf_ind. intros s -> HI.
  destruct (decide (st_caller s = MReturned)) as [Hret | Hrun].
  { exists s. split; [apply rtc_refl | done]. }
  destruct (progress s Hpool HI Hrun) as [s1 Hstep].
  destruct (IH (measure p s1) (step_measure _ _ HI Hstep) s1 eq_refl
              (Inv_step _ _ HI Hstep)) as (s' & Hrun' & Hret).
  exists s'. split; [|done]. by eapply rtc_l.
Qed.

End SchedulerInvariant.

Section GenerateClaims.
Context `{GoRuntime}.

Lemma Generate_start_ok p fanout :
  Valid p -> Initialised p -> 4 * SizeX p * SizeY p <= Int.max_int ->
  exists s0, Generate_start p fanout = Ok s0.
Proof.
  intros Hv Hi Hfits. unfold Generate_start.
  pose proof (valid_width p Hv). pose proof (valid_height p Hv).
  rewrite (Initialised_len p Hi (valid_antialias p Hv)), Z.eqb_refl. cbn [negb].
  destruct (SizeX p <? 0) eqn:E; [lia|].
  unfold NewNRGBA, Rect. rewrite E.
  replace (SizeY p <? 0) with false by (symmetry; apply Z.ltb_ge; lia).
  unfold Dx, Dy. cbn [minX maxX minY maxY]. rewrite !Z.sub_0_r.
  destruct (Int.max_int <? 4 * SizeX p * SizeY p) eqn:E2; [lia|].
  cbn [mbind result_bind]. by eexists.
Qed.

Lemma rendered_at p col row c :
  0 <= col < SizeX p -> 0 <= row < SizeY p -> CalcPixel p col row = Ok c ->
  Canvas_At (rendered p) col row = c.
Proof.
  intros Hcol Hrow Hc. unfold Canvas_At, rendered, In_rect, PixOffset, Dx.
  cbn [bounds Pix minX minY maxX maxY].
  replace ((0 <=? col) && (col <? SizeX p) && (0 <=? row) && (row <? SizeY p))
    with true by (symmetry; repeat (apply andb_true_intro; split); lia).
  rewrite !Z.sub_0_r, list_lookup_fmap.
  rewrite (lookup_seqZ_lt 0 _ (Z.to_nat (row * SizeX p + col))) by nia.
  cbn [fmap option_fmap option_map default]. rewrite Z.add_0_l, Z2Nat.id by nia.
  rewrite Z.add_comm, Z.mod_add, Z.div_add, Z.mod_small, Z.div_small by lia.
  rewrite Z.add_0_l. unfold pixel_color_at. by rewrite Hc.
Qed.

(** C8. For valid, initialised parameters whose image fits the buffer, and
    for every number of workers: whatever the schedule, a canvas that
    [Generate] returns is the rendered image, so two invocations return
    equal canvases, also with pools of different sizes; some schedule does
    return; no reachable state is stuck short of the return and none calls a
    panicking [CalcPixel]; every run from the start has at most
    [measure] steps; and the pixel of the rendered image at each [(col, row)]
    is [CalcPixel(col, row)]. *)
Theorem Generate_deterministic (p : Parameters) (fanout fanout' : nat) :
  Valid p -> Limits p -> Initialised p ->
  4 * SizeX p * SizeY p <= Int.max_int ->
  (1 <= fanout)%nat -> Z.of_nat fanout < Int.max_int ->
  (1 <= fanout')%nat -> Z.of_nat fanout' < Int.max_int ->
  (forall c c', returns p fanout c -> returns p fanout' c' -> c = c')
  /\ (forall c, returns p fanout c -> c = rendered p)
  /\ returns p fanout (rendered p)
  /\ (forall s, reachable p fanout s ->
        st_caller s = MReturned \/ exists s', step p fanout s s')
  /\ (forall s, reachable p fanout s -> ~ crashes p s)
  /\ (forall s0 n s, Generate_start p fanout = Ok s0 ->
        nsteps (step p fanout) n s0 s -> (n <= measure p s0)%nat)
  /\ (forall col row, 0 <= col < SizeX p -> 0 <= row < SizeY p ->
        CalcPixel p col row = Ok (Canvas_At (rendered p) col row)).
Proof.
  intros Hv Hl Hi Hfits Hpool Hmax Hpool' Hmax'.
  pose proof (valid_width p Hv) as Hw. pose proof (valid_height p Hv) as Hh.
  pose proof (fun col row => CalcPixel_total p col row Hv Hl Hi) as Hcalc.
  assert (Hret : forall f c, Z.of_nat f < Int.max_int ->
            returns p f c -> c = rendered p).
  { intros f c Hf (s & Hreach & Hcaller & <-).
    apply (Inv_returned p f Hw Hh Hfits Hf); [|done].
    by apply (Inv_reachable p f Hw Hh Hfits Hf). }
  split; [|split; [|split; [|split; [|split; [|split]]]]].
  - intros c c' Hc Hc'.
    by rewrite (Hret fanout c Hmax Hc), (Hret fanout' c' Hmax' Hc').
  - intros c. by apply Hret.
  - destruct (Generate_start_ok p fanout Hv Hi Hfits) as [s0 Hstart].
    pose proof (Inv_start p fanout Hw Hh Hfits Hmax s0 Hstart) as HI0.
    destruct (run_completes p fanout Hw Hh Hfits Hmax Hcalc s0 Hpool HI0)
      as (s & Hrun & Hcaller).
    exists s. split; [by exists s0|]. split; [done|].
    apply (Inv_returned p fanout Hw Hh Hfits Hmax); [|done].
    apply (Inv_reachable p fanout Hw Hh Hfits Hmax). by exists s0.
  - intros s Hreach.
    pose proof (Inv_reachable p fanout Hw Hh Hfits Hmax s Hreach) as HI.
    destruct (decide (st_caller s = MReturned)) as [Hr | Hr]; [by left|].
    right. by apply (progress p fanout Hw Hh Hfits Hmax Hcalc).
  - intros s Hreach.
    apply (no_crash p fanout Hw Hh Hfits Hmax Hcalc).
    by apply (Inv_reachable p fanout Hw Hh Hfits Hmax).
  - intros s0 n s Hstart Hrun.
    pose proof (Inv_start p fanout Hw Hh Hfits Hmax s0 Hstart) as HI0.
    pose proof (run_bounded p fanout Hw Hh Hfits Hmax Hcalc n s0 s HI0 Hrun). lia.
  - intros col row Hcol Hrow.
    destruct (Hcalc col row Hcol Hrow) as [c Hc].
    by rewrite (rendered_at p col row c).
Qed.

End GenerateClaims.

Lemma Generate_deterministic_witness :
  returns (H := Example.runtime) example_initialised 2
    (rendered (H := Example.runtime) example_initialised).
Proof.
  destruct example_initialised_ok as (Hv & Hl & Hi).
  pose proof (Generate_deterministic (H := Example.runtime) example_initialised
                2 3 Hv Hl Hi ltac:(by vm_compute) ltac:(lia)
                ltac:(by vm_compute) ltac:(lia) ltac:(by vm_compute))
    as (_ & _ & Hreturns & _).
  exact Hreturns.
Defined.

(** ** Calls before [Init] *)

Section BeforeInit.
Context `{GoRuntime}.

(** Before [Init] the offset slice is nil. With an antialiasing level other
    than zero both entry points panic at their check. *)
Lemma uninitialised_panics p fanout col row :
  subpixOffsets p = [] -> AntiAlias p <> 0 ->
  Generate_start p fanout = Panic "Generate cannot be called before Init"
  /\ CalcPixel p col row = Panic "CalcPixel cannot be called before Init".
Proof.
  intros Hnil Haa. unfold Generate_start, CalcPixel. rewrite Hnil.
  change (len []) with 0.
  destruct (0 =? AntiAlias p) eqn:E; [lia | done].
Qed.

(** With the level zero the check of [CalcPixel] passes, no sample is taken,
    and the division by [AntiAlias]² panics. *)
Lemma CalcPixel_uninitialised_zero p col row :
  subpixOffsets p = [] -> AntiAlias p = 0 ->
  CalcPixel p col row = Panic "runtime error: integer divide by zero".
Proof.
  intros Hnil Haa. unfold CalcPixel. rewrite Hnil, Haa. reflexivity.
Qed.

End BeforeInit.

(** The zero value of [Parameters], as [new(Parameters)] gives it. *)
Definition zero_Parameters : Parameters :=
  mkParameters 0 0 0 0 0 0 0 false [] (mkNRGBA 0 0 0 0) [].

(** C9 at the zero value, never initialised: the check of [Generate]
    compares [len(nil) = 0] with [AntiAlias = 0] and passes, no row is fed,
    and the call returns an empty canvas; [CalcPixel] passes its check too
    and panics only at the division by zero. *)
Theorem Generate_before_Init_returns :
  subpixOffsets zero_Parameters = []
  /\ returns (H := Example.runtime) zero_Parameters 1
       (mkCanvas (mkRectangle 0 0 0 0) [])
  /\ CalcPixel (H := Example.runtime) zero_Parameters 0 0
     = Panic "runtime error: integer divide by zero".
Proof.
  split; [done|]. split; [|reflexivity].
  eexists. split; [|split].
  - eexists. split; [reflexivity|].
    eapply rtc_l.
    { apply (step_close_rows _ _ _ 0); [reflexivity | simpl; lia]. }
    eapply rtc_l.
    { apply (step_rows_closed _ _ _ 0%nat); reflexivity. }
    eapply rtc_l.
    { apply (step_worker_done _ _ _ 0%nat (MWait (Int.add 0 1))); reflexivity. }
    eapply rtc_l.
    { apply (step_close_pixelch _ _ _ (Int.add 0 1)); [reflexivity|].
      vm_compute. congruence. }
    eapply rtc_l.
    { apply step_pixelch_closed; reflexivity. }
    eapply rtc_l.
    { apply (step_writer_done _ _ _ MReturned); reflexivity. }
    apply rtc_refl.
  - reflexivity.
  - reflexivity.
Qed.

(** ** The single-file program agrees with the package *)

Section LegacyAgrees.
Context `{GoRuntime}.

Lemma Legacy_offsets antialias : Legacy.offsets antialias = makeOffsets antialias.
Proof. reflexivity. Qed.

Lemma Legacy_mandel_loop g x y k : forall iters a b,
  Legacy.mandel_loop g x y k iters a b
  = mandel_loop x y (Legacy.continuous g) k iters a b.
Proof.
  induction k as [|k IH]; intros iters a b; [done|].
  cbn [Legacy.mandel_loop mandel_loop]. unfold bailout, escape_value.
  rewrite IH. by destruct (Legacy.continuous g).
Qed.

Lemma Legacy_mandel g x y :
  Legacy.mandel g x y
  = mandel (Legacy.iterations g) x y (Legacy.continuous g).
Proof. apply Legacy_mandel_loop. Qed.

Lemma Legacy_getColor g sizeX sizeY centerX centerY magnification iters :
  Legacy.getColor g iters
  = getColor (Legacy.as_Parameters g sizeX sizeY centerX centerY magnification)
      iters.
Proof. reflexivity. Qed.

Lemma Legacy_loop_x g col row sizeX sizeY cx cy m yoffset xs : forall acc,
  Legacy.loop_x g col row sizeX sizeY cx cy m
    (if sizeY <? sizeX then sizeY else sizeX) yoffset xs acc
  = loop_x (Legacy.as_Parameters g sizeX sizeY cx cy m) col row yoffset xs acc.
Proof.
  induction xs as [|xo xs IH]; intros acc; [done|].
  cbn [Legacy.loop_x loop_x]. unfold sampleColor, plane_x, plane_y, minsize.
  cbn [Legacy.as_Parameters CenterX CenterY Magnification SizeX SizeY
         MaxIterations Continuous].
  rewrite Legacy_mandel.
  rewrite (Legacy_getColor g sizeX sizeY cx cy m).
  destruct (getColor _ _) as [[[rs gs] bs]|msg]; cbn [mbind result_bind]; [|done].
  destruct acc as [[r0 g0] b0]. cbn [accumulate]. apply IH.
Qed.

Lemma Legacy_loop_y g col row sizeX sizeY cx cy m ys : forall acc,
  Legacy.loop_y g col row sizeX sizeY cx cy m
    (if sizeY <? sizeX then sizeY else sizeX) ys acc
  = loop_y (Legacy.as_Parameters g sizeX sizeY cx cy m) col row ys acc.
Proof.
  induction ys as [|yo ys IH]; intros acc; [done|].
  cbn [Legacy.loop_y loop_y]. rewrite Legacy_loop_x.
  cbn [Legacy.as_Parameters subpixOffsets].
  destruct (loop_x _ _ _ _ _ _) as [acc'|msg]; cbn [mbind result_bind]; [|done].
  apply IH.
Qed.

(** Once [main] has filled the offsets, [calcPixel] is [CalcPixel] on the
    corresponding parameters. *)
Lemma Legacy_calcPixel g col row sizeX sizeY cx cy m :
  len (Legacy.subpixOffsets g) = Legacy.antialias g ->
  Legacy.calcPixel g col row sizeX sizeY cx cy m
  = CalcPixel (Legacy.as_Parameters g sizeX sizeY cx cy m) col row.
Proof.
  intros Hlen. unfold Legacy.calcPixel, CalcPixel.
  cbn [Legacy.as_Parameters subpixOffsets AntiAlias].
  rewrite Hlen, Z.eqb_refl. cbn [negb]. rewrite Legacy_loop_y.
  cbn [Legacy.as_Parameters subpixOffsets]. done.
Qed.

End LegacyAgrees.

(** * Further properties of the code *)

(** ** [Parameters.Init] *)

Section InitProperties.

(** X1. [Init] returns [nil] exactly when [AntiAlias >= 1] and the palette
    is not empty. The antialiasing level is checked first: when it fails
    nothing is written. The palette is checked after the offsets are stored:
    when it fails the offsets are already those of [AntiAlias]. *)
Theorem Init_outcome (p : Parameters) :
  ((Init p).2 = None <-> 1 <= AntiAlias p /\ Palette p <> [])
  /\ (AntiAlias p < 1 ->
      (Init p).2 = Some "anti-aliasing level must be 1 or higher"%string
      /\ (Init p).1 = p)
  /\ (1 <= AntiAlias p -> Palette p = [] ->
      (Init p).2 = Some "palette must not be empty"%string
      /\ len (subpixOffsets (Init p).1) = AntiAlias p).
Proof.
  assert (Hlen : forall pal : list NRGBA,
            (len pal <? 1) = match pal with [] => true | _ => false end).
  { intros [|c pal]; [done|]. apply Z.ltb_ge. unfold len. simpl. lia. }
  unfold Init. split; [|split].
  - destruct (AntiAlias p <? 1) eqn:E; simpl.
    + split; [done | lia].
    + rewrite Hlen. destruct (Palette p) as [|c pal]; simpl.
      * split; [done | intros [_ ?]; done].
      * split; [intros _; split; [lia | done] | done].
  - intros Haa. apply Z.ltb_lt in Haa as ->. done.
  - intros Haa Hpal. destruct (AntiAlias p <? 1) eqn:E; [lia|].
    simpl. rewrite Hpal. simpl. split; [done|].
    unfold len. rewrite makeOffsets_length. lia.
Qed.

(** X2. [Init] writes the offsets only, every other field keeps its value,
    and a second call gives the same parameters and the same error value as
    the first. *)
Theorem Init_idempotent (p : Parameters) :
  Init (Init p).1 = Init p
  /\ CenterX (Init p).1 = CenterX p /\ CenterY (Init p).1 = CenterY p
  /\ Magnification (Init p).1 = Magnification p
  /\ MaxIterations (Init p).1 = MaxIterations p
  /\ SizeX (Init p).1 = SizeX p /\ SizeY (Init p).1 = SizeY p
  /\ AntiAlias (Init p).1 = AntiAlias p /\ Continuous (Init p).1 = Continuous p
  /\ Palette (Init p).1 = Palette p /\ InsideColor (Init p).1 = InsideColor p.
Proof.
  unfold Init. destruct (AntiAlias p <? 1) eqn:E; simpl.
  - rewrite E. done.
  - destruct (len (Palette p) <? 1) eqn:E2; simpl; rewrite E, E2; done.
Qed.

End InitProperties.

(** ** The evaluator *)

Section MandelProperties.
Context `{GoRuntime}.

Lemma mandel_loop_stable x y c k : forall iters a b k',
  mandel_loop x y c k iters a b <> 0%float -> (k <= k')%nat ->
  mandel_loop x y c k' iters a b = mandel_loop x y c k iters a b.
Proof.
  induction k as [|k IH]; intros iters a b k' Hne Hle; [done|].
  destruct k' as [|k']; [lia|].
  cbn [mandel_loop] in *.
  destruct (bailout c <=? a * a + b * b)%float; [done|].
  apply IH; [done | lia].
Qed.

(** X3. A result other than the sentinel is an escape value, and a larger
    iteration bound does not change it. *)
Theorem mandel_escape_stable (x y : float) (c : bool) (n m : Z) :
  mandel n x y c <> 0%float -> n <= m ->
  mandel m x y c = mandel n x y c.
Proof.
  intros Hne Hle. unfold mandel in *. apply mandel_loop_stable; [done | lia].
Qed.

Lemma orbit_period x y k i :
  orbit x y k = (x, y) -> orbit x y (i + k) = orbit x y i.
Proof.
  intros Hk. unfold orbit in *. by rewrite Nat.iter_add, Hk.
Qed.

(** X4. A point whose orbit comes back to the point itself after [k >= 1]
    steps, none of them reaching the bailout, never escapes: the result is
    the sentinel for every iteration bound below the largest [int]. (At
    that bound the counter of the loop wraps and the loop of the code does
    not end.) The origin and (−1, 0) are such points. *)
Theorem mandel_periodic (x y : float) (c : bool) (k : nat) (maxIters : Z) :
  maxIters < Int.max_int ->
  (1 <= k)%nat -> orbit x y k = (x, y) ->
  (forall i, (i < k)%nat -> exceeds (bailout c) (orbit x y i) = false) ->
  mandel maxIters x y c = 0%float.
Proof.
  intros _ Hk Hper Hin. apply mandel_none. intros n _.
  generalize (Z.to_nat (n - 1)). clear n. intros n.
  induction n as [n IH] using lt_wf_ind.
  destruct (decide (n < k)%nat) as [Hlt | Hge]; [by apply Hin|].
  replace n with ((n - k) + k)%nat by lia.
  rewrite orbit_period by done. apply IH. lia.
Qed.

End MandelProperties.

Lemma one_not_zero : 1%float <> 0%float.
Proof. intros Heq. assert (Hb : (1 =? 1)%float = (1 =? 0)%float) by (by rewrite Heq). done. Qed.

Lemma mandel_escape_stable_witness :
  mandel (H := Example.runtime) 1000 2 0 false
  = mandel (H := Example.runtime) 1 2 0 false.
Proof.
  apply (mandel_escape_stable (H := Example.runtime) 2 0 false 1 1000).
  - change (mandel 1 2 0 false) with 1%float. exact one_not_zero.
  - lia.
Defined.

Lemma mandel_periodic_witness :
  mandel (H := Example.runtime) 1000000 (-1) 0 true = 0%float.
Proof.
  apply (mandel_periodic (H := Example.runtime) (-1) 0 true 2 1000000).
  - unfold Int.max_int. lia.
  - lia.
  - reflexivity.
  - intros [|[|i]] Hi; [reflexivity | reflexivity | lia].
Defined.

Module NaNFacts.
Import F64.

Lemma mul_nan_l x y : is_nan x = true -> is_nan (x * y)%float = true.
Proof.
  unfold is_nan. rewrite mul_spec.
  destruct (Prim2SF x), (Prim2SF y); done.
Qed.

Lemma mul_nan_r x y : is_nan y = true -> is_nan (x * y)%float = true.
Proof.
  unfold is_nan. rewrite mul_spec.
  destruct (Prim2SF x), (Prim2SF y); done.
Qed.

Lemma add_nan_l x y : is_nan x = true -> is_nan (x + y)%float = true.
Proof.
  unfold is_nan. rewrite add_spec.
  destruct (Prim2SF x), (Prim2SF y); done.
Qed.

Lemma add_nan_r x y : is_nan y = true -> is_nan (x + y)%float = true.
Proof.
  unfold is_nan. rewrite add_spec.
  destruct (Prim2SF x), (Prim2SF y); done.
Qed.

Lemma sub_nan_l x y : is_nan x = true -> is_nan (x - y)%float = true.
Proof.
  unfold is_nan. rewrite sub_spec.
  destruct (Prim2SF x), (Prim2SF y); done.
Qed.

Lemma sub_nan_r x y : is_nan y = true -> is_nan (x - y)%float = true.
Proof.
  unfold is_nan. rewrite sub_spec.
  destruct (Prim2SF x), (Prim2SF y); done.
Qed.

(** No comparison with a NaN holds. *)
Lemma leb_nan_r x y : is_nan y = true -> (x <=? y)%float = false.
Proof.
  unfold is_nan. rewrite leb_spec.
  destruct (Prim2SF x), (Prim2SF y); done.
Qed.

End NaNFacts.

Section MandelNaN.
Context `{GoRuntime}.

Lemma mandel_loop_nan x y c k : forall iters a b,
  F64.is_nan a = true \/ F64.is_nan b = true ->
  mandel_loop x y c k iters a b = 0%float.
Proof.
  induction k as [|k IH]; intros iters a b Hnan; [done|].
  cbn [mandel_loop].
  assert (Hsum : F64.is_nan (a * a + b * b)%float = true).
  { destruct Hnan as [Ha | Hb].
    - by apply NaNFacts.add_nan_l, NaNFacts.mul_nan_l.
    - by apply NaNFacts.add_nan_r, NaNFacts.mul_nan_l. }
  rewrite (NaNFacts.leb_nan_r _ _ Hsum).
  apply IH. left. apply NaNFacts.add_nan_l.
  destruct Hnan as [Ha | Hb].
  - by apply NaNFacts.sub_nan_l, NaNFacts.mul_nan_l.
  - by apply NaNFacts.sub_nan_r, NaNFacts.mul_nan_l.
Qed.

Lemma mandel_of_nan (x y : float) (c : bool) (maxIters : Z) :
  F64.is_nan x = true \/ F64.is_nan y = true ->
  mandel maxIters x y c = 0%float.
Proof. intros Hnan. by apply mandel_loop_nan. Qed.

(** X5. A NaN coordinate never escapes: every comparison with the bailout
    fails, and the result is the sentinel in both modes, for every
    iteration bound below the largest [int]. (At that bound the counter of
    the loop wraps and the loop of the code does not end.) *)
Theorem mandel_nan (x y : float) (c : bool) (maxIters : Z) :
  maxIters < Int.max_int ->
  F64.is_nan x = true \/ F64.is_nan y = true ->
  mandel maxIters x y c = 0%float.
Proof. intros _. apply mandel_of_nan. Qed.

End MandelNaN.

Lemma mandel_nan_witness :
  mandel (H := Example.runtime) 1000000 nan 0.5 false = 0%float.
Proof.
  apply (mandel_nan (H := Example.runtime));
    [unfold Int.max_int; lia | by left].
Defined.

(** ** The colour mapper *)

Section GetColorProperties.
Context `{GoRuntime}.

Lemma getColor_no_palette p iters :
  Palette p = [] -> (iters =? 0)%float = false ->
  getColor p iters = Panic "runtime error: integer divide by zero".
Proof.
  intros Hpal Hnz. unfold getColor. rewrite Hnz, Hpal.
  by destruct (Continuous p), (F64.to_int (F64.Floor iters) <? 1).
Qed.

(** X6. In discrete mode the colours repeat with the length of the
    palette: the counts [n] and [n + len(palette)] get the same colour. *)
Theorem getColor_discrete_cycle (p : Parameters) (n : Z) :
  Continuous p = false -> Palette p <> [] ->
  1 <= n -> n + len (Palette p) < 2 ^ 53 ->
  getColor p (F64.of_int (n + len (Palette p))) = getColor p (F64.of_int n).
Proof.
  intros Hc Hpal Hn Hbound. pose proof (len_pos _ Hpal) as Hlen.
  destruct (lookup_mod (Palette p) n Hpal) as [c Hl].
  rewrite (getColor_discrete_at p (F64.of_int n) n c); try done.
  - apply (getColor_discrete_at p _ (n + len (Palette p)) c); try done.
    + apply F64Facts.trunc_of_int. lia.
    + unfold Int.max_int. lia.
    + rewrite <- (Z.mul_1_l (len (Palette p))) at 1.
      by rewrite Z.mod_add by lia.
  - apply F64Facts.trunc_of_int. lia.
  - unfold Int.max_int. lia.
Qed.

(** X7. With an empty palette every escape value other than the sentinel
    makes [getColor] panic on the remainder by [len(p.Palette) = 0], in both
    modes. *)
Theorem getColor_empty_palette (p : Parameters) (iters : float) :
  Palette p = [] -> (iters =? 0)%float = false ->
  getColor p iters = Panic "runtime error: integer divide by zero".
Proof. apply getColor_no_palette. Qed.

(** X8. In discrete mode a negative escape value whose integer part is not
    a multiple of the palette length gives a negative index, and [getColor]
    panics: Go's remainder has the sign of the dividend. *)
Theorem getColor_discrete_negative (p : Parameters) (iters : float) (m : Z) :
  Continuous p = false -> Palette p <> [] ->
  F64.trunc iters = Some m -> Int.min_int <= m < 0 ->
  Z.rem m (len (Palette p)) <> 0 ->
  getColor p iters = Panic "runtime error: index out of range".
Proof.
  intros Hc Hpal Ht Hm Hrem. unfold getColor.
  rewrite (F64Facts.trunc_nonzero iters m Ht) by lia.
  rewrite Hc. cbn [negb].
  rewrite (to_int_trunc iters m Ht)
    by (unfold Int.in_range, Int.max_int in *; lia).
  pose proof (len_pos _ Hpal) as Hlen.
  unfold Int.rem. destruct (len (Palette p) =? 0) eqn:E; [lia|].
  cbn [mbind result_bind]. unfold index.
  pose proof (Z.rem_nonpos m (len (Palette p)) ltac:(lia) ltac:(lia)).
  destruct (Z.rem m (len (Palette p)) <? 0) eqn:E2; [done | lia].
Qed.

(** X13. In continuous mode with a non-empty palette [getColor] returns
    for every [float64], NaN and the infinities included: the clamp keeps
    both indices inside the palette. Each channel is an [int]. *)
Theorem getColor_continuous_never_panics (p : Parameters) (iters : float) :
  Continuous p = true -> Palette p <> [] -> wf_color (InsideColor p) ->
  exists s, getColor p iters = Ok s
            /\ Int.in_range (chanR s) /\ Int.in_range (chanG s)
            /\ Int.in_range (chanB s).
Proof. apply getColor_continuous_total. Qed.

End GetColorProperties.

Lemma getColor_discrete_cycle_witness :
  getColor (H := Example.runtime) (Example.params 1 false) (F64.of_int 10)
  = getColor (H := Example.runtime) (Example.params 1 false) (F64.of_int 7).
Proof.
  exact (getColor_discrete_cycle (H := Example.runtime) (Example.params 1 false) 7
           eq_refl ltac:(done) ltac:(lia) ltac:(by vm_compute)).
Defined.

Lemma getColor_empty_palette_witness :
  getColor (H := Example.runtime)
    (mkParameters 0 0 0.5 50 64 48 1 true [] Example.black [0%float]) 2.5%float
  = Panic "runtime error: integer divide by zero".
Proof.
  by apply (getColor_empty_palette (H := Example.runtime)).
Defined.

Lemma getColor_discrete_negative_witness :
  getColor (H := Example.runtime) (Example.params 1 false) (-4)%float
  = Panic "runtime error: index out of range".
Proof.
  apply (getColor_discrete_negative (H := Example.runtime) _ _ (-4));
    try done; vm_compute; congruence.
Defined.

Lemma getColor_continuous_never_panics_witness :
  exists s, getColor (H := Example.runtime) (Example.params 1 true) nan = Ok s
            /\ Int.in_range (chanR s) /\ Int.in_range (chanG s)
            /\ Int.in_range (chanB s).
Proof.
  by apply (getColor_continuous_never_panics (H := Example.runtime)).
Defined.

(** ** The pixel sampler *)

Section CalcPixelProperties.
Context `{GoRuntime}.

(** X9. Whatever the parameters, a colour that [CalcPixel] returns is fully
    opaque and its channels are [uint8] values. *)
Theorem CalcPixel_opaque (p : Parameters) (col row : Z) (c : NRGBA) :
  CalcPixel p col row = Ok c -> A c = 255 /\ wf_color c.
Proof.
  unfold CalcPixel. destruct (negb _); [done|].
  destruct (loop_y _ _ _ _ _) as [[[r g] b]|]; cbn [mbind result_bind]; [|done].
  destruct (Int.div r _) as [r'|]; cbn [mbind result_bind]; [|done].
  destruct (Int.div g _) as [g'|]; cbn [mbind result_bind]; [|done].
  destruct (Int.div b _) as [b'|]; cbn [mbind result_bind]; [|done].
  intros [= <-]. split; [done|].
  unfold wf_color, uint8_range, Int.to_uint8. simpl.
  pose proof (Z.mod_pos_bound r' 256 ltac:(lia)).
  pose proof (Z.mod_pos_bound g' 256 ltac:(lia)).
  pose proof (Z.mod_pos_bound b' 256 ltac:(lia)). lia.
Qed.

End CalcPixelProperties.

Lemma CalcPixel_opaque_witness :
  CalcPixel (H := Example.runtime) example_initialised 20 20
  = Ok (mkNRGBA 191 0 32 255)
  /\ wf_color (mkNRGBA 191 0 32 255).
Proof.
  assert (Hc : CalcPixel (H := Example.runtime) example_initialised 20 20
               = Ok (mkNRGBA 191 0 32 255)) by reflexivity.
  split; [exact Hc|].
  exact (proj2 (CalcPixel_opaque (H := Example.runtime) _ _ _ _ Hc)).
Defined.

Section SinglePixel.
Context `{GoRuntime}.

(** X10. A one-pixel image without antialiasing is the inside colour: the
    only sample has the coordinate 0/0, a NaN, which never escapes. This
    holds for every centre, finite magnification, mode and palette, and
    every iteration bound below the largest [int]. *)
Theorem CalcPixel_single_pixel (p : Parameters) :
  SizeX p = 1 -> SizeY p = 1 -> AntiAlias p = 1 -> Initialised p ->
  MaxIterations p < Int.max_int ->
  (0 <? Magnification p)%float = true ->
  F64.is_finite (Magnification p) = true ->
  wf_color (InsideColor p) ->
  CalcPixel p 0 0
  = Ok (mkNRGBA (R (InsideColor p)) (G (InsideColor p)) (B (InsideColor p)) 255).
Proof.
  intros Hx Hy Haa Hi _ Hpos Hfin (HR & HG & HB & _).
  assert (Hoffs : subpixOffsets p = [0%float]) by (by rewrite Hi, Haa).
  assert (Hnan : F64.is_nan (plane_x p 0 0) = true).
  { unfold plane_x, minsize. rewrite Hx, Hy.
    apply F64Class.add_zero_div_zero_nan; [|reflexivity].
    change (F64.of_int (Int.sub (if 1 <? 1 then 1 else 1) 1)) with 0%float.
    rewrite mul_spec.
    destruct (F64Class.positive_finite _ Hpos Hfin) as (m & e & ->).
    reflexivity. }
  unfold CalcPixel. rewrite Hoffs, Haa.
  change (negb (len [0%float] =? 1)) with false. cbn [loop_y].
  rewrite Hoffs. cbn [loop_x].
  unfold sampleColor. rewrite mandel_of_nan by (by left).
  change (getColor p 0) with (Ok (rgb (InsideColor p)) : result (Z * Z * Z)).
  cbn [mbind result_bind accumulate rgb].
  unfold uint8_range in *.
  rewrite !IntFacts.add_id
    by (unfold Int.in_range, Int.min_int, Int.max_int; lia).
  change (Int.mul 1 1) with 1.
  rewrite !IntFacts.div_pos
    by (unfold Int.in_range, Int.min_int, Int.max_int; lia).
  cbn [mbind result_bind]. rewrite !Z.quot_1_r.
  by rewrite !IntFacts.to_uint8_id by lia.
Qed.

End SinglePixel.

Lemma CalcPixel_single_pixel_witness :
  CalcPixel (H := Example.runtime) example_single_pixel 0 0
  = Ok (mkNRGBA 0 0 0 255).
Proof.
  apply (CalcPixel_single_pixel (H := Example.runtime) example_single_pixel);
    try reflexivity.
  repeat split; vm_compute; congruence.
Defined.

(** ** [Init], then the sampler and the scheduler *)

Section InitCompositions.
Context `{GoRuntime}.

Lemma Init_success p :
  1 <= AntiAlias p -> Palette p <> [] ->
  Init p = (set_subpixOffsets p (makeOffsets (AntiAlias p)), None).
Proof.
  intros Haa Hpal. unfold Init.
  destruct (AntiAlias p <? 1) eqn:E; [lia|].
  pose proof (len_pos _ Hpal).
  destruct (len (Palette (set_subpixOffsets p _)) <? 1) eqn:E2; [|done].
  simpl in E2. lia.
Qed.

Lemma Valid_set_subpixOffsets p offs : Valid p -> Valid (set_subpixOffsets p offs).
Proof. intros [? ? ? ? ? ?]. by split. Qed.

Lemma Limits_set_subpixOffsets p offs :
  Limits p -> Limits (set_subpixOffsets p offs).
Proof. intros [? ? ? ? ? ?]. by split. Qed.

(** X11. [Init] followed by [Generate], as the command does: for
    parameters that satisfy the invariants, whatever the offsets held before,
    [Init] returns [nil], and on the initialised parameters [Generate]
    returns, under every schedule, the image whose pixel at [(col, row)] is
    [CalcPixel(col, row)]. *)
Theorem Init_then_Generate (p : Parameters) (fanout : nat) :
  Valid p -> Limits p -> 4 * SizeX p * SizeY p <= Int.max_int ->
  (1 <= fanout)%nat -> Z.of_nat fanout < Int.max_int ->
  (Init p).2 = None
  /\ returns (Init p).1 fanout (rendered (Init p).1)
  /\ (forall c, returns (Init p).1 fanout c -> c = rendered (Init p).1)
  /\ (forall col row, 0 <= col < SizeX p -> 0 <= row < SizeY p ->
        CalcPixel (Init p).1 col row
        = Ok (Canvas_At (rendered (Init p).1) col row)).
Proof.
  intros Hv Hl Hfits Hpool Hmax.
  rewrite (Init_success p (valid_antialias p Hv) (valid_palette p Hv)).
  cbn [fst snd].
  set (p' := set_subpixOffsets p (makeOffsets (AntiAlias p))).
  assert (Hv' : Valid p') by (by apply Valid_set_subpixOffsets).
  assert (Hl' : Limits p') by (by apply Limits_set_subpixOffsets).
  assert (Hi' : Initialised p') by reflexivity.
  assert (Hfits' : 4 * SizeX p' * SizeY p' <= Int.max_int) by done.
  pose proof (valid_width p' Hv') as Hw. pose proof (valid_height p' Hv') as Hh.
  pose proof (fun col row => CalcPixel_total p' col row Hv' Hl' Hi') as Hcalc.
  split; [done|]. split; [|split].
  - destruct (Generate_start_ok p' fanout Hv' Hi' Hfits') as [s0 Hstart].
    pose proof (Inv_start p' fanout Hw Hh Hfits' Hmax s0 Hstart) as HI0.
    destruct (run_completes p' fanout Hw Hh Hfits' Hmax Hcalc s0 Hpool HI0)
      as (s & Hrun & Hcaller).
    exists s. split; [by exists s0|]. split; [done|].
    apply (Inv_returned p' fanout Hw Hh Hfits' Hmax); [|done].
    apply (Inv_reachable p' fanout Hw Hh Hfits' Hmax). by exists s0.
  - intros c (s & Hreach & Hcaller & <-).
    apply (Inv_returned p' fanout Hw Hh Hfits' Hmax); [|done].
    by apply (Inv_reachable p' fanout Hw Hh Hfits' Hmax).
  - intros col row Hcol Hrow.
    destruct (Hcalc col row Hcol Hrow) as [c Hc].
    by rewrite (rendered_at p' col row c).
Qed.

Lemma makeOffsets_cons aa :
  1 <= aa ->
  makeOffsets aa = subpixOffset aa 0 :: (subpixOffset aa <$> seqZ 1 (aa - 1)).
Proof.
  intros Haa. unfold makeOffsets. rewrite (seqZ_cons 0 aa) by lia.
  cbn [fmap list_fmap]. do 3 f_equal. 
Qed.

(** The very first sample panics: so does the pixel. *)
Lemma loop_y_first_panic p col row yoffset ys acc xoffset xs msg :
  subpixOffsets p = xoffset :: xs ->
  sampleColor p col row xoffset yoffset = Panic msg ->
  loop_y p col row (yoffset :: ys) acc = Panic msg.
Proof.
  intros Hoffs Hs. cbn [loop_y]. rewrite Hoffs. cbn [loop_x]. by rewrite Hs.
Qed.

(** X12. When the palette is empty [Init] reports it, but the offsets are
    stored by then, so the checks of [CalcPixel] and [Generate] pass on the
    parameters it leaves: a pixel whose first sample escapes then panics
    with a division by zero in [getColor]. *)
Theorem Init_palette_error_ignored (p : Parameters) (col row : Z) :
  1 <= AntiAlias p -> Palette p = [] ->
  let p' := (Init p).1 in
  let first := subpixOffset (AntiAlias p) 0 in
  (Init p).2 = Some "palette must not be empty"%string
  /\ ((mandel (MaxIterations p) (plane_x p' col first) (plane_y p' row first)
         (Continuous p) =? 0)%float = false ->
      CalcPixel p' col row = Panic "runtime error: integer divide by zero").
Proof.
  intros Haa Hpal. unfold Init.
  destruct (AntiAlias p <? 1) eqn:E; [lia|].
  cbn [Palette set_subpixOffsets]. rewrite Hpal.
  change (len [] <? 1) with true. cbn [fst snd].
  split; [done|]. intros Hesc. unfold CalcPixel.
  cbn [subpixOffsets AntiAlias set_subpixOffsets].
  replace (len (makeOffsets (AntiAlias p)) =? AntiAlias p) with true
    by (symmetry; apply Z.eqb_eq; unfold len; rewrite makeOffsets_length; lia).
  cbn [negb]. rewrite (makeOffsets_cons (AntiAlias p) Haa) at 2.
  rewrite (loop_y_first_panic _ col row _ _ _ (subpixOffset (AntiAlias p) 0)
             (subpixOffset (AntiAlias p) <$> seqZ 1 (AntiAlias p - 1))
             "runtime error: integer divide by zero"); [done | |].
  - cbn [subpixOffsets set_subpixOffsets]. by apply makeOffsets_cons.
  - unfold sampleColor. cbn [MaxIterations Continuous set_subpixOffsets].
    by apply getColor_no_palette.
Qed.

End InitCompositions.

Lemma Init_then_Generate_witness :
  (Init (Example.params 2 false)).2 = None
  /\ returns (H := Example.runtime) (Init (Example.params 2 false)).1 3
       (rendered (H := Example.runtime) (Init (Example.params 2 false)).1).
Proof.
  destruct example_initialised_ok as (Hv & Hl & _).
  pose proof (Init_then_Generate (H := Example.runtime) (Example.params 2 false) 3)
    as Hgen.
  destruct Hgen as (Hnil & Hret & _).
  - by destruct Hv.
  - by destruct Hl.
  - by vm_compute.
  - lia.
  - by vm_compute.
  - by split.
Defined.

(** Red, white, navy dropped from the palette; the first sample of pixel
    (0, 0) escapes at once. *)
Lemma Init_palette_error_ignored_witness :
  CalcPixel (H := Example.runtime)
    (Init (mkParameters (-0.75) 0 0.5 50 64 48 2 false [] Example.black [])).1 0 0
  = Panic "runtime error: integer divide by zero".
Proof.
  apply (Init_palette_error_ignored (H := Example.runtime)
           (mkParameters (-0.75) 0 0.5 50 64 48 2 false [] Example.black []) 0 0).
  - by vm_compute.
  - done.
  - reflexivity.
Defined.

(** ** The command: the palette and the parameters *)

Section CommandProperties.
Import Command.
Context `{Files}.

Lemma appendColors_returns colors : forall palette pal,
  appendColors colors palette = Returns pal ->
  exists new, pal = palette ++ new
              /\ Forall2 (fun c col => color_of c = Some col) colors new.
Proof.
  induction colors as [|c colors IH]; intros palette pal Hret.
  - injection Hret as <-. exists []. by rewrite app_nil_r.
  - cbn [appendColors] in Hret.
    destruct c as [|c0 [|c1 [|c2 [|c3 [|c4 c]]]]]; try done.
    destruct (IH _ _ Hret) as (new & -> & Hnew).
    exists (mkNRGBA c0 c1 c2 c3 :: new). split; [by rewrite <- app_assoc|].
    by constructor.
Qed.

Lemma appendColors_all colors : forall palette new,
  Forall2 (fun c col => color_of c = Some col) colors new ->
  appendColors colors palette = Returns (palette ++ new).
Proof.
  induction colors as [|c colors IH]; intros palette new Hall.
  - apply Forall2_nil_inv_l in Hall as ->. by rewrite app_nil_r.
  - apply Forall2_cons_inv_l in Hall as (col & new' & Hc & Hall & ->).
    cbn [appendColors].
    destruct c as [|c0 [|c1 [|c2 [|c3 [|c4 c]]]]]; try done.
    injection Hc as <-. rewrite (IH _ new' Hall). by rewrite <- app_assoc.
Qed.

(** The entry reported is the first whose length is not 4. *)
Lemma appendColors_exits colors : forall palette c,
  appendColors colors palette = Exits (ColorLength c) <->
  exists before after,
    colors = before ++ c :: after
    /\ Forall (fun c' => length c' = 4%nat) before /\ length c <> 4%nat.
Proof.
  induction colors as [|c0 colors IH]; intros palette c.
  - split; [done|]. intros (before & after & Heq & _). by destruct before.
  - cbn [appendColors]. split.
    + intros Hexit.
      destruct (decide (length c0 = 4%nat)) as [H4 | Hn4].
      * destruct c0 as [|a0 [|a1 [|a2 [|a3 [|a4 c0]]]]]; try done.
        apply IH in Hexit as (before & after & -> & Hall & Hlen).
        exists ([a0; a1; a2; a3] :: before), after. split; [done|].
        split; [by constructor | done].
      * exists [], colors.
        destruct c0 as [|a0 [|a1 [|a2 [|a3 [|a4 c0]]]]]; try done;
          injection Hexit as <-; done.
    + intros (before & after & Heq & Hall & Hlen).
      destruct before as [|b before]; simplify_eq/=.
      * destruct c as [|a0 [|a1 [|a2 [|a3 [|a4 c]]]]]; done.
      * apply Forall_cons_1 in Hall as [Hb Hall].
        destruct b as [|a0 [|a1 [|a2 [|a3 [|a4 b]]]]]; try done.
        apply IH. by exists before, after.
Qed.

Lemma loadPalette_returns_colors (filename : string) (pal : list NRGBA) :
  loadPalette filename = Returns pal ->
  exists colors,
    readColors filename = Returns colors
    /\ Forall2 (fun c col => c = [R col; G col; B col; A col]) colors pal
    /\ (filename <> ""%string -> pal <> []).
Proof.
  unfold loadPalette. destruct (readColors filename) as [colors|f] eqn:Hread;
    cbn [mbind run_bind]; [|done].
  intros Hret. apply appendColors_returns in Hret as (new & -> & Hnew).
  exists colors. split; [done|]. split.
  - simpl. eapply Forall2_impl; [exact Hnew|].
    intros c col Hc. destruct c as [|c0 [|c1 [|c2 [|c3 [|c4 c]]]]]; try done.
    by injection Hc as <-.
  - intros Hname. unfold readColors in Hread.
    destruct (String.eqb filename "") eqn:E; [by apply String.eqb_eq in E|].
    destruct (ReadFile filename); [|done].
    destruct (Unmarshal s) as [cs|]; [|done].
    destruct (len cs <? 1) eqn:Elen; [done|]. injection Hread as ->.
    destruct colors; [done|].
    apply Forall2_cons_inv_l in Hnew as (col & new' & _ & _ & ->). done.
Qed.

(** X14. A palette that [loadPalette] returns has one colour for each
    entry read, in the same order, each entry having exactly the four
    elements red, green, blue, alpha of its colour; read from a file it is
    not empty. *)
Theorem loadPalette_returns (filename : string) (pal : list NRGBA) :
  loadPalette filename = Returns pal ->
  exists colors,
    readColors filename = Returns colors
    /\ Forall2 (fun c col => c = [R col; G col; B col; A col]) colors pal
    /\ (filename <> ""%string -> pal <> []).
Proof. apply loadPalette_returns_colors. Qed.

(** X15. [loadPalette] ends the program over the length of an entry
    exactly when some entry has a length other than 4, and the entry it
    reports is the first such one. *)
Theorem loadPalette_bad_color (filename : string) (colors : list (list Z))
    (c : list Z) :
  readColors filename = Returns colors ->
  (loadPalette filename = Exits (ColorLength c) <->
   exists before after,
     colors = before ++ c :: after
     /\ Forall (fun c' => length c' = 4%nat) before /\ length c <> 4%nat).
Proof.
  intros Hread. unfold loadPalette. rewrite Hread. cbn [mbind run_bind].
  apply appendColors_exits.
Qed.

(** X16. When the command gets as far as calling [Generate], the
    antialiasing level is at least 1, the palette is the loaded one and not
    empty, and the offsets are those of the level: the checks of [Generate]
    and [CalcPixel] pass. Only the palette and the offsets differ from the
    flags. *)
Theorem prepare_returns (flags : Parameters) (palettefile : string)
    (p : Parameters) :
  prepare flags palettefile = Returns p ->
  1 <= AntiAlias p /\ Palette p <> [] /\ Initialised p
  /\ len (subpixOffsets p) = AntiAlias p
  /\ loadPalette palettefile = Returns (Palette p)
  /\ p = set_subpixOffsets (set_Palette flags (Palette p))
           (makeOffsets (AntiAlias flags)).
Proof.
  unfold prepare. destruct (AntiAlias flags <? 1) eqn:Eaa; [done|].
  destruct (loadPalette palettefile) as [pal|f]; cbn [mbind run_bind]; [|done].
  unfold Init. cbn [AntiAlias set_Palette]. rewrite Eaa.
  cbn [Palette set_subpixOffsets set_Palette].
  destruct (len pal <? 1) eqn:Elen; [done|]. intros [= <-].
  cbn [AntiAlias Palette set_subpixOffsets set_Palette].
  split; [lia|]. split; [by intros ->|]. split; [done|].
  split; [|done]. unfold len. cbn [subpixOffsets set_subpixOffsets set_Palette].
  rewrite makeOffsets_length. apply Z.ltb_ge in Eaa. lia.
Qed.

(** X17. The command ends over an error of [Init] only when the built-in
    colour table is used and is empty: the antialiasing error of [Init]
    cannot occur, the flag was checked before, and a palette read from a
    file is never empty. *)
Theorem prepare_Init_error (flags : Parameters) (palettefile : string)
    (msg : string) :
  prepare flags palettefile = Exits (InitError msg) ->
  palettefile = ""%string /\ defaultColors = []
  /\ msg = "palette must not be empty"%string.
Proof.
  unfold prepare. destruct (AntiAlias flags <? 1) eqn:Eaa; [done|].
  destruct (loadPalette palettefile) as [pal|f] eqn:Hload;
    cbn [mbind run_bind]; [|].
  2:{ intros [= ->]. unfold loadPalette in Hload.
      destruct (readColors palettefile) as [colors|f'] eqn:Hread;
        cbn [mbind run_bind] in Hload.
      - assert (Hno : forall cs pal0 m, appendColors cs pal0 <> Exits (InitError m)).
        { induction cs as [|c0 cs IH]; intros pal0 m; [done|]. cbn [appendColors].
          destruct c0 as [|a0 [|a1 [|a2 [|a3 [|a4 c0]]]]]; try done; apply IH. }
        by apply Hno in Hload.
      - injection Hload as ->. unfold readColors in Hread.
        destruct (String.eqb palettefile ""); [done|].
        destruct (ReadFile palettefile); [|done].
        destruct (Unmarshal s) as [cs|]; [|done].
        by destruct (len cs <? 1). }
  unfold Init. cbn [AntiAlias set_Palette]. rewrite Eaa.
  cbn [Palette set_subpixOffsets set_Palette].
  destruct (len pal <? 1) eqn:Elen; [|done]. intros [= <-].
  destruct pal as [|c pal];
    [|apply Z.ltb_lt in Elen; unfold len in Elen; simpl in Elen; lia].
  destruct (loadPalette_returns_colors palettefile [] Hload) as (colors & Hread & Hall & Hne).
  apply Forall2_nil_inv_r in Hall as ->.
  destruct (string_dec palettefile "") as [-> | Hname].
  - unfold readColors in Hread. simpl in Hread. by injection Hread as ->.
  - by destruct (Hne Hname).
Qed.

Lemma loadPalette_global_returns (filename : string)
    (palette pal : list NRGBA) :
  loadPalette_global filename palette = Returns pal <->
  exists new, loadPalette filename = Returns new /\ pal = palette ++ new.
Proof.
  unfold loadPalette_global, loadPalette.
  destruct (readColors filename) as [colors|f]; cbn [mbind run_bind].
  - split.
    + intros Hret. apply appendColors_returns in Hret as (new & -> & Hnew).
      exists new. split; [|done]. by rewrite (appendColors_all _ [] new).
    + intros (new & Hret & ->).
      apply appendColors_returns in Hret as (new' & -> & Hnew).
      by apply appendColors_all.
  - split; [done|]. by intros (new & ? & _).
Qed.

(** X18. The loader of the single-file program, which appends to the
    package variable [palette], returns exactly when the command's loader
    does, with the colours of the latter after those already there. *)
Theorem loadPalette_global_appends (filename : string)
    (palette pal : list NRGBA) :
  loadPalette_global filename palette = Returns pal <->
  exists new, loadPalette filename = Returns new /\ pal = palette ++ new.
Proof. apply loadPalette_global_returns. Qed.

End CommandProperties.

(** A file system for the worked examples: two palette files, one of them
    with a short entry. *)
Module ExampleFiles.
Import Command.

Definition two_colors : string := "[[0,0,0,255],[255,255,255,255]]".
Definition short_entry : string := "[[0,0,0,255],[1,2,3]]".

#[export] Instance files : Files := {|
  defaultColors := [[255; 0; 0; 255]; [255; 255; 255; 255]; [0; 0; 128; 255]];
  ReadFile := fun name =>
    if String.eqb name "two.json" then Some two_colors
    else if String.eqb name "short.json" then Some short_entry
    else None;
  Unmarshal := fun raw =>
    if String.eqb raw two_colors then Some [[0; 0; 0; 255]; [255; 255; 255; 255]]
    else if String.eqb raw short_entry then Some [[0; 0; 0; 255]; [1; 2; 3]]
    else None
|}.

(** The same with an empty built-in table. *)
Definition no_default : Files := {|
  defaultColors := [];
  ReadFile := fun _ => None;
  Unmarshal := fun _ => None
|}.

(** The flags [-a 2 -px 64 -py 48 -i 50 -m 0.5]. *)
Definition flags : Parameters :=
  mkParameters (-0.75) 0 0.5 50 64 48 2 false [] (mkNRGBA 0 0 0 0) [].

End ExampleFiles.

Lemma loadPalette_returns_witness :
  exists colors,
    Command.readColors (H := ExampleFiles.files) "two.json" = Command.Returns colors
    /\ Forall2 (fun c col => c = [R col; G col; B col; A col]) colors
         [mkNRGBA 0 0 0 255; mkNRGBA 255 255 255 255]
    /\ ("two.json"%string <> ""%string ->
        [mkNRGBA 0 0 0 255; mkNRGBA 255 255 255 255] <> []).
Proof.
  exact (loadPalette_returns (H := ExampleFiles.files) "two.json"
           [mkNRGBA 0 0 0 255; mkNRGBA 255 255 255 255] eq_refl).
Defined.

Lemma loadPalette_bad_color_witness :
  Command.loadPalette (H := ExampleFiles.files) "short.json"
  = Command.Exits (Command.ColorLength [1; 2; 3]).
Proof.
  apply (loadPalette_bad_color (H := ExampleFiles.files) "short.json"
           [[0; 0; 0; 255]; [1; 2; 3]] [1; 2; 3] eq_refl).
  exists [[0; 0; 0; 255]], []. split; [done|]. split; [|done].
  by repeat constructor.
Defined.

Lemma prepare_returns_witness :
  exists p,
    Command.prepare (H := ExampleFiles.files) ExampleFiles.flags "two.json"
    = Command.Returns p
    /\ AntiAlias p = 2 /\ len (subpixOffsets p) = AntiAlias p.
Proof.
  eexists. split; [reflexivity|]. split; [reflexivity|].
  by destruct (prepare_returns (H := ExampleFiles.files) ExampleFiles.flags
                 "two.json" _ eq_refl) as (_ & _ & _ & Hlen & _).
Defined.

Lemma prepare_Init_error_witness :
  Command.defaultColors (Files := ExampleFiles.no_default) = [].
Proof.
  by destruct (prepare_Init_error (H := ExampleFiles.no_default)
                 ExampleFiles.flags "" "palette must not be empty" eq_refl)
    as (_ & Hnone & _).
Defined.

(** ** The program with four fixed samples *)

Module QuarterFacts.
Local Open Scope float_scope.

Lemma add_neg_quarter x : x + -0.25 = x - 0.25.
Proof.
  apply Prim2SF_inj. rewrite add_spec, sub_spec.
  change (Prim2SF (-0.25)) with (S754_finite true 4503599627370496 (-54)).
  change (Prim2SF 0.25) with (S754_finite false 4503599627370496 (-54)).
  by destruct (Prim2SF x) as [[]|[]| |[] m e].
Qed.

Lemma sub_neg_quarter x : x - -0.25 = x + 0.25.
Proof.
  apply Prim2SF_inj. rewrite add_spec, sub_spec.
  change (Prim2SF (-0.25)) with (S754_finite true 4503599627370496 (-54)).
  change (Prim2SF 0.25) with (S754_finite false 4503599627370496 (-54)).
  by destruct (Prim2SF x) as [[]|[]| |[] m e].
Qed.

Lemma sub_zero x : x - 0 = x.
Proof.
  apply Prim2SF_inj. rewrite sub_spec.
  change (Prim2SF 0) with (S754_zero false).
  by destruct (Prim2SF x) as [[]|[]| |[] m e].
Qed.

Lemma add_zero x : Prim2SF x <> S754_zero true -> x + 0 = x.
Proof.
  intros Hx. apply Prim2SF_inj. rewrite add_spec.
  change (Prim2SF 0) with (S754_zero false).
  by destruct (Prim2SF x) as [[]|[]| |[] m e].
Qed.

(** A converted [int] is never the negative zero. *)
Lemma of_int_not_neg_zero z :
  (Z.abs z < 2 ^ 53)%Z -> Prim2SF (F64.of_int z) <> S754_zero true.
Proof.
  intros Hz. destruct z as [|m|m].
  - done.
  - assert (Hm : (Z.pos m < 2 ^ 53)%Z) by lia.
    rewrite F64Facts.of_int_pos by lia.
    by destruct (F64Facts.Prim2SF_of_uint63 m Hm) as (m' & e & -> & _).
  - assert (Hm : (Z.pos m < 2 ^ 53)%Z) by lia.
    unfold F64.of_int.
    destruct (Z.neg m =? Int.min_int)%Z eqn:E1;
      [apply Z.eqb_eq in E1; unfold Int.min_int in E1; lia|].
    change (- Z.neg m)%Z with (Z.pos m).
    change (Z.neg m <? 0)%Z with true. cbv iota. rewrite opp_spec.
    by destruct (F64Facts.Prim2SF_of_uint63 m Hm) as (m' & e & -> & _).
Qed.

End QuarterFacts.

Section FourSamplesAgree.
Context `{GoRuntime}.

Lemma makeOffsets_1 : makeOffsets 1 = [0%float].
Proof. reflexivity. Qed.

Lemma makeOffsets_2 : makeOffsets 2 = [(-0.25)%float; 0.25%float].
Proof. reflexivity. Qed.

Lemma FourSamples_sample g sizeX sizeY cx cy m x y :
  FourSamples.getColor g (FourSamples.mandel g x y)
  = getColor (FourSamples.as_Parameters g sizeX sizeY cx cy m)
      (mandel (FourSamples.iterations g) x y (FourSamples.continuous g)).
Proof.
  unfold FourSamples.getColor, FourSamples.mandel. by rewrite Legacy_mandel.
Qed.

Lemma add_zero_add a b : Int.add (Int.add 0 a) b = Int.add a b.
Proof. unfold Int.add. by rewrite IntFacts.wrap_add_wrap. Qed.

Lemma to_uint8_wrap z : Int.to_uint8 (Int.wrap z) = Int.to_uint8 z.
Proof.
  unfold Int.to_uint8, Int.wrap.
  rewrite (Z.mod_eq (z + 2 ^ 63) (2 ^ 64)) by lia.
  replace (z + 2 ^ 63 - 2 ^ 64 * ((z + 2 ^ 63) / 2 ^ 64) - 2 ^ 63)
    with (z + (- (2 ^ 56 * ((z + 2 ^ 63) / 2 ^ 64))) * 256) by lia.
  by rewrite Z.mod_add.
Qed.

Lemma div_one_uint8 z :
  Int.div (Int.add 0 z) 1 ≫= (fun q => Ok (Int.to_uint8 q))
  = Ok (Int.to_uint8 z).
Proof.
  unfold Int.div, Int.add. cbn [Z.eqb mbind result_bind]. rewrite Z.quot_1_r.
  by rewrite !to_uint8_wrap.
Qed.

(** X19. The pixel function of the program with four fixed samples is
    [CalcPixel] of the package: with the antialiasing switched on it is the
    package at level 2, where [Init] stores the offsets -0.25 and 0.25 (the
    same four samples in the same order, the same sums, the same division
    by 4); switched off it is the package at level 1, for a column less than
    [2^53] away from the centre column. The results agree also when a
    sample panics. *)
Theorem calcPixel_four_samples (g : FourSamples.Globals)
    (col row sizeX sizeY : Z) (cx cy m : float) :
  (FourSamples.antialias g = false ->
   Z.abs (Int.sub col (Z.quot sizeX 2)) < 2 ^ 53) ->
  FourSamples.calcPixel g col row sizeX sizeY cx cy m
  = CalcPixel (FourSamples.as_Parameters g sizeX sizeY cx cy m) col row.
Proof.
  intros Hcol. unfold FourSamples.calcPixel, CalcPixel.
  rewrite !(FourSamples_sample g sizeX sizeY cx cy m).
  set (p := FourSamples.as_Parameters g sizeX sizeY cx cy m).
  assert (Hoffs : subpixOffsets p = makeOffsets (FourSamples.level g)) by done.
  assert (Haa : AntiAlias p = FourSamples.level g) by done.
  assert (Hx : forall xo,
            plane_x p col xo
            = (cx + (F64.of_int (Int.sub col (Z.quot sizeX 2)) + xo)
                    / (m * F64.of_int
                             (Int.sub (if (sizeY <? sizeX)%Z then sizeY else sizeX)
                                1)))%float) by done.
  assert (Hy : forall yo,
            plane_y p row yo
            = (cy - (F64.of_int (Int.sub row (Z.quot sizeY 2)) - yo)
                    / (m * F64.of_int
                             (Int.sub (if (sizeY <? sizeX)%Z then sizeY else sizeX)
                                1)))%float) by done.
  assert (Hit : MaxIterations p = FourSamples.iterations g) by done.
  assert (Hco : Continuous p = FourSamples.continuous g) by done.
  rewrite Haa, Hoffs. clearbody p. unfold FourSamples.level in *.
  destruct (FourSamples.antialias g); cbn [negb].
  - rewrite makeOffsets_2 in *.
    change (negb (len [(-0.25)%float; 0.25%float] =? 2)) with false.
    cbn [loop_y].
    rewrite Hoffs. cbn [loop_x]. unfold sampleColor.
    rewrite !Hx, !Hy, Hit, Hco.
    rewrite !QuarterFacts.add_neg_quarter, !QuarterFacts.sub_neg_quarter.
    set (x1 := (cx + (_ - 0.25) / _)%float).
    set (x2 := (cx + (_ + 0.25) / _)%float).
    set (y1 := (cy - (_ + 0.25) / _)%float).
    set (y2 := (cy - (_ - 0.25) / _)%float).
    destruct (getColor p (mandel _ x1 y1 _)) as [[[r1 g1] b1]|msg];
      cbn [mbind result_bind]; [|done].
    destruct (getColor p (mandel _ x2 y1 _)) as [[[r2 g2] b2]|msg];
      cbn [mbind result_bind]; [|done].
    destruct (getColor p (mandel _ x1 y2 _)) as [[[r3 g3] b3]|msg];
      cbn [mbind result_bind]; [|done].
    destruct (getColor p (mandel _ x2 y2 _)) as [[[r4 g4] b4]|msg];
      cbn [mbind result_bind]; [|done].
    cbn [accumulate]. rewrite !add_zero_add. done.
  - rewrite makeOffsets_1 in *.
    change (negb (len [0%float] =? 1)) with false.
    cbn [loop_y].
    rewrite Hoffs. cbn [loop_x]. unfold sampleColor.
    rewrite !Hx, !Hy, Hit, Hco.
    rewrite QuarterFacts.sub_zero.
    rewrite QuarterFacts.add_zero
      by (apply QuarterFacts.of_int_not_neg_zero; auto).
    destruct (getColor p _) as [[[r1 g1] b1]|msg]; cbn [mbind result_bind];
      [|done].
    cbn [accumulate]. change (Int.mul 1 1) with 1.
    unfold Int.div, Int.add. cbn [Z.eqb mbind result_bind Z.add].
    rewrite !Z.quot_1_r, !to_uint8_wrap. done.
Qed.

End FourSamplesAgree.

Lemma calcPixel_four_samples_witness :
  FourSamples.calcPixel (H := Example.runtime)
    (FourSamples.mkGlobals 50 false false
       [Example.red; Example.white; Example.navy])
    3 2 8 6 (-0.75) 0 0.5
  = CalcPixel (H := Example.runtime)
      (FourSamples.as_Parameters
         (FourSamples.mkGlobals 50 false false
            [Example.red; Example.white; Example.navy])
         8 6 (-0.75) 0 0.5) 3 2.
Proof.
  apply (calcPixel_four_samples (H := Example.runtime)).
  intros _. vm_compute. reflexivity.
Defined.

(** ** The program that fills the canvas row by row *)

(** A canvas whose buffer has one cell for each point of its bounds, as
    [image.NewNRGBA] makes it. *)
Definition canvas_sized (c : Canvas) : Prop :=
  length (Pix c) = Z.to_nat (Dx (bounds c) * Dy (bounds c)).

Section CanvasFacts.

Lemma Canvas_Set_bounds c x y px : bounds (Canvas_Set c x y px) = bounds c.
Proof. unfold Canvas_Set. by destruct (In_rect x y (bounds c)). Qed.

Lemma Canvas_Set_length c x y px :
  length (Pix (Canvas_Set c x y px)) = length (Pix c).
Proof.
  unfold Canvas_Set. destruct (In_rect x y (bounds c)); [|done].
  cbn [Pix]. by rewrite length_insert.
Qed.

Lemma Canvas_Set_sized c x y px :
  canvas_sized c -> canvas_sized (Canvas_Set c x y px).
Proof.
  unfold canvas_sized. by rewrite Canvas_Set_length, Canvas_Set_bounds.
Qed.

Lemma In_rect_spec x y r :
  In_rect x y r = true <-> minX r <= x < maxX r /\ minY r <= y < maxY r.
Proof. unfold In_rect. rewrite !andb_true_iff. lia. Qed.

Lemma PixOffset_bounds c x y :
  In_rect x y (bounds c) = true ->
  0 <= PixOffset c x y < Dx (bounds c) * Dy (bounds c).
Proof.
  intros Hin%In_rect_spec. unfold PixOffset, Dx, Dy in *. nia.
Qed.

Lemma PixOffset_inj c x y x' y' :
  In_rect x y (bounds c) = true -> In_rect x' y' (bounds c) = true ->
  PixOffset c x y = PixOffset c x' y' -> x = x' /\ y = y'.
Proof.
  intros Hin%In_rect_spec Hin'%In_rect_spec. unfold PixOffset, Dx in *.
  intros Heq.
  assert (y = y') as ->; [|lia].
  destruct (Z.lt_trichotomy y y') as [Hlt | [-> | Hgt]]; [nia | done | nia].
Qed.

Lemma Canvas_At_Set_same c x y px :
  canvas_sized c -> In_rect x y (bounds c) = true ->
  Canvas_At (Canvas_Set c x y px) x y = px.
Proof.
  intros Hsz Hin. pose proof (PixOffset_bounds c x y Hin) as Hoff.
  unfold Canvas_At, Canvas_Set. rewrite Hin. cbn [bounds Pix]. rewrite Hin.
  replace (PixOffset {| bounds := bounds c; Pix := _ |} x y)
    with (PixOffset c x y) by done.
  rewrite list_lookup_insert_eq; [done|]. rewrite Hsz. lia.
Qed.

Lemma Canvas_At_Set_other c x y px x' y' :
  (x, y) <> (x', y') ->
  Canvas_At (Canvas_Set c x y px) x' y' = Canvas_At c x' y'.
Proof.
  intros Hne. unfold Canvas_At, Canvas_Set.
  destruct (In_rect x y (bounds c)) eqn:Hin; [|done]. cbn [bounds Pix].
  destruct (In_rect x' y' (bounds c)) eqn:Hin'; [|done].
  replace (PixOffset {| bounds := bounds c; Pix := _ |} x' y')
    with (PixOffset c x' y') by done.
  rewrite list_lookup_insert_ne; [done|].
  pose proof (PixOffset_bounds c x y Hin).
  pose proof (PixOffset_bounds c x' y' Hin').
  intros Heq. apply Hne.
  destruct (PixOffset_inj c x y x' y' Hin Hin') as [-> ->]; [lia | done].
Qed.

Lemma Canvas_Set_commute c x y px x' y' px' :
  (x, y) <> (x', y') ->
  Canvas_Set (Canvas_Set c x y px) x' y' px'
  = Canvas_Set (Canvas_Set c x' y' px') x y px.
Proof.
  intros Hne. unfold Canvas_Set.
  destruct (In_rect x y (bounds c)) eqn:Hin,
           (In_rect x' y' (bounds c)) eqn:Hin';
    cbn [bounds Pix]; rewrite ?Hin, ?Hin'; try done.
  f_equal.
  pose proof (PixOffset_bounds c x y Hin).
  pose proof (PixOffset_bounds c x' y' Hin').
  pose proof (PixOffset_inj c x y x' y' Hin Hin') as Hinj.
  unfold PixOffset in *. cbn [bounds Pix] in *.
  apply list_insert_insert_ne.
  intros Heq. apply Hne. destruct Hinj as [-> ->]; [lia | done].
Qed.

End CanvasFacts.

Section RowProgramProperties.
Context `{GoRuntime}.

Lemma calcRow_loop_bounds g y row k : forall col canvas x canvas',
  RowProgram.calcRow_loop g k col canvas x y row = Ok canvas' ->
  bounds canvas' = bounds canvas.
Proof.
  induction k as [|k IH]; intros col canvas x canvas' Hrun.
  - by injection Hrun as <-.
  - cbn [RowProgram.calcRow_loop] in Hrun.
    destruct (RowProgram.calcPixel g x y) as [px|msg];
      cbn [mbind result_bind] in Hrun; [|done].
    rewrite (IH _ _ _ _ Hrun). apply Canvas_Set_bounds.
Qed.

Lemma calcRow_loop_spec g y row k : forall col canvas x canvas',
  0 <= col -> col + Z.of_nat k <= Int.max_int ->
  RowProgram.calcRow_loop g k col canvas x y row = Ok canvas' ->
  (canvas_sized canvas -> canvas_sized canvas')
  /\ (forall c r, ~ (r = row /\ col <= c < col + Z.of_nat k) ->
        Canvas_At canvas' c r = Canvas_At canvas c r)
  /\ (canvas_sized canvas -> forall c,
        col <= c < col + Z.of_nat k -> In_rect c row (bounds canvas) = true ->
        RowProgram.calcPixel g
          (Nat.iter (Z.to_nat (c - col))
             (fun x => (x + RowProgram.pixelSize g)%float) x) y
        = Ok (Canvas_At canvas' c row)).
Proof.
  induction k as [|k IH]; intros col canvas x canvas' Hcol Hmax Hrun.
  - injection Hrun as <-. split; [done|]. split; [done|]. intros _ c Hc. lia.
  - cbn [RowProgram.calcRow_loop] in Hrun.
    destruct (RowProgram.calcPixel g x y) as [px|msg] eqn:Hpx;
      cbn [mbind result_bind] in Hrun; [|done].
    rewrite IntFacts.add_id in Hrun
      by (unfold Int.in_range, Int.min_int, Int.max_int in *; lia).
    destruct (IH (col + 1) _ _ _ ltac:(lia) ltac:(lia) Hrun)
      as (Hsz & Hout & Hin).
    split; [|split].
    + intros Hc. by apply Hsz, Canvas_Set_sized.
    + intros c r Hcr. rewrite Hout by lia.
      apply Canvas_At_Set_other. intros [= -> ->]. lia.
    + intros Hc c Hrange Hrect.
      destruct (decide (c = col)) as [-> | Hne].
      * rewrite Z.sub_diag. cbn [Z.to_nat Nat.iter].
        rewrite Hout by lia. by rewrite Canvas_At_Set_same.
      * replace (Z.to_nat (c - col)) with (S (Z.to_nat (c - (col + 1)))) by lia.
        rewrite Nat.iter_succ_r.
        apply Hin; [by apply Canvas_Set_sized | lia |].
        by rewrite Canvas_Set_bounds.
Qed.

(** X20. A call of [calcRow] that returns leaves the bounds and the size
    of the buffer as they were, changes no pixel of another row and none
    left of column 0, and sets each pixel [(c, row)] of the canvas with
    [0 <= c] to what [calcPixel] returns at the abscissa reached from [x]
    by [c] additions of the pixel size. *)
Theorem calcRow_fills (g : RowProgram.Globals) (canvas canvas' : Canvas)
    (x y : float) (row : Z) :
  canvas_sized canvas -> maxX (bounds canvas) <= Int.max_int ->
  RowProgram.calcRow g canvas x y row = Ok canvas' ->
  bounds canvas' = bounds canvas /\ canvas_sized canvas'
  /\ (forall c r, r <> row \/ c < 0 ->
        Canvas_At canvas' c r = Canvas_At canvas c r)
  /\ (forall c, 0 <= c -> In_rect c row (bounds canvas) = true ->
        RowProgram.calcPixel g (RowProgram.abscissa g x c) y
        = Ok (Canvas_At canvas' c row)).
Proof.
  intros Hsz Hmax Hrun. unfold RowProgram.calcRow in Hrun.
  assert (Hfit : 0 + Z.of_nat (Z.to_nat (maxX (bounds canvas))) <= Int.max_int)
    by (unfold Int.max_int in *; lia).
  destruct (calcRow_loop_spec g y row _ 0 canvas x canvas' ltac:(lia)
              Hfit Hrun) as (Hsz' & Hout & Hin).
  split; [by eapply calcRow_loop_bounds|]. split; [by apply Hsz'|].
  split.
  - intros c r Hcr. apply Hout. lia.
  - intros c Hc Hrect. unfold RowProgram.abscissa.
    specialize (Hin Hsz c). rewrite Z.sub_0_r in Hin. apply Hin; [|done].
    apply In_rect_spec in Hrect. lia.
Qed.

(** A pixel set in another row before the loop can as well be set after
    it. *)
Lemma calcRow_loop_frame g y row c' r' px k : forall col canvas x,
  r' <> row ->
  RowProgram.calcRow_loop g k col (Canvas_Set canvas c' r' px) x y row
  = (cv ← RowProgram.calcRow_loop g k col canvas x y row;
     Ok (Canvas_Set cv c' r' px)).
Proof.
  induction k as [|k IH]; intros col canvas x Hne; [done|].
  cbn [RowProgram.calcRow_loop].
  destruct (RowProgram.calcPixel g x y) as [px0|msg];
    cbn [mbind result_bind]; [|done].
  rewrite Canvas_Set_commute by (intros [= _ ?]; done).
  by apply IH.
Qed.

Lemma calcRow_loops_commute g y1 row1 y2 row2 k2 col2 x2 k1 :
  forall col1 canvas x1 c,
  row1 <> row2 ->
  (c1 ← RowProgram.calcRow_loop g k1 col1 canvas x1 y1 row1;
   RowProgram.calcRow_loop g k2 col2 c1 x2 y2 row2) = Ok c ->
  (c2 ← RowProgram.calcRow_loop g k2 col2 canvas x2 y2 row2;
   RowProgram.calcRow_loop g k1 col1 c2 x1 y1 row1) = Ok c.
Proof.
  induction k1 as [|k1 IH]; intros col1 canvas x1 c Hne Hrun.
  - cbn [RowProgram.calcRow_loop mbind result_bind] in *. rewrite Hrun. done.
  - cbn [RowProgram.calcRow_loop] in *.
    destruct (RowProgram.calcPixel g x1 y1) as [px|msg] eqn:Hpx;
      cbn [mbind result_bind] in Hrun; [|done].
    apply IH in Hrun; [|done].
    rewrite calcRow_loop_frame in Hrun by done.
    destruct (RowProgram.calcRow_loop g k2 col2 canvas x2 y2 row2) as [c2|msg];
      cbn [mbind result_bind] in *; [|done].
    exact Hrun.
Qed.

Lemma calcRow_commute_1 g canvas x1 y1 row1 x2 y2 row2 c :
  row1 <> row2 ->
  (c1 ← RowProgram.calcRow g canvas x1 y1 row1;
   RowProgram.calcRow g c1 x2 y2 row2) = Ok c ->
  (c2 ← RowProgram.calcRow g canvas x2 y2 row2;
   RowProgram.calcRow g c2 x1 y1 row1) = Ok c.
Proof.
  intros Hne Hrun. unfold RowProgram.calcRow in *.
  destruct (RowProgram.calcRow_loop g _ 0 canvas x1 y1 row1) as [c1|msg]
    eqn:H1; cbn [mbind result_bind] in Hrun; [|done].
  rewrite (calcRow_loop_bounds _ _ _ _ _ _ _ _ H1) in Hrun.
  pose proof (calcRow_loops_commute g y1 row1 y2 row2
                (Z.to_nat (maxX (bounds canvas))) 0 x2
                (Z.to_nat (maxX (bounds canvas))) 0 canvas x1 c Hne) as Hcomm.
  rewrite H1 in Hcomm. specialize (Hcomm Hrun).
  destruct (RowProgram.calcRow_loop g _ 0 canvas x2 y2 row2) as [c2|msg]
    eqn:H2; cbn [mbind result_bind] in *; [|done].
  by rewrite (calcRow_loop_bounds _ _ _ _ _ _ _ _ H2).
Qed.

(** X21. Two calls of [calcRow] for different rows give the same canvas
    in either order: the rows that the workers fill do not interfere. *)
Theorem calcRow_rows_commute (g : RowProgram.Globals) (canvas c : Canvas)
    (x1 y1 x2 y2 : float) (row1 row2 : Z) :
  row1 <> row2 ->
  (c1 ← RowProgram.calcRow g canvas x1 y1 row1;
   RowProgram.calcRow g c1 x2 y2 row2) = Ok c <->
  (c2 ← RowProgram.calcRow g canvas x2 y2 row2;
   RowProgram.calcRow g c2 x1 y1 row1) = Ok c.
Proof.
  intros Hne. split; apply calcRow_commute_1; congruence.
Qed.

End RowProgramProperties.

(** A canvas of two rows of three pixels and the variables of a run with
    the antialiasing on. *)
Module ExampleRows.

Definition canvas : Canvas :=
  mkCanvas (mkRectangle 0 0 3 2) (replicate 6 transparent).

Definition variables : RowProgram.Globals :=
  RowProgram.mkGlobals 0.5 0.125 20 true false
    [Example.red; Example.white; Example.navy].

End ExampleRows.

Lemma calcRow_fills_witness :
  exists canvas',
    RowProgram.calcRow (H := Example.runtime) ExampleRows.variables
      ExampleRows.canvas (-1.5) 0.5 1 = Ok canvas'
    /\ bounds canvas' = bounds ExampleRows.canvas
    /\ Canvas_At canvas' 2 0 = transparent
    /\ RowProgram.calcPixel (H := Example.runtime) ExampleRows.variables
         (RowProgram.abscissa ExampleRows.variables (-1.5) 2) 0.5
       = Ok (Canvas_At canvas' 2 1).
Proof.
  destruct (RowProgram.calcRow (H := Example.runtime) ExampleRows.variables
              ExampleRows.canvas (-1.5) 0.5 1) as [canvas'|msg] eqn:Hrun;
    [|vm_compute in Hrun; discriminate].
  exists canvas'. split; [reflexivity|].
  destruct (calcRow_fills (H := Example.runtime) ExampleRows.variables
              ExampleRows.canvas canvas' (-1.5) 0.5 1 eq_refl
              ltac:(vm_compute; discriminate) Hrun)
    as (Hbounds & _ & Hother & Hrow).
  split; [exact Hbounds|]. split.
  - rewrite Hother by (left; lia). reflexivity.
  - apply Hrow; [lia | reflexivity].
Defined.

Lemma calcRow_rows_commute_witness :
  exists c,
    (c2 ← RowProgram.calcRow (H := Example.runtime) ExampleRows.variables
            ExampleRows.canvas (-1.5) 0 1;
     RowProgram.calcRow (H := Example.runtime) ExampleRows.variables c2
       (-1.5) 0.5 0) = Ok c.
Proof.
  destruct (c1 ← RowProgram.calcRow (H := Example.runtime)
                   ExampleRows.variables ExampleRows.canvas (-1.5) 0.5 0;
            RowProgram.calcRow (H := Example.runtime) ExampleRows.variables c1
              (-1.5) 0 1) as [c|msg] eqn:Hrun;
    [|vm_compute in Hrun; discriminate].
  exists c.
  apply (calcRow_rows_commute (H := Example.runtime) ExampleRows.variables
           ExampleRows.canvas c (-1.5) 0.5 (-1.5) 0 0 1); [lia | exact Hrun].
Defined.

(** ** The single-file program and the command *)

Section SingleFileAgrees.
Context `{GoRuntime} `{Command.Files}.

(** The inside colour counts through its red, green and blue only. *)
Lemma getColor_inside_rgb p inside iters :
  rgb inside = rgb (InsideColor p) ->
  getColor
    (mkParameters (CenterX p) (CenterY p) (Magnification p) (MaxIterations p)
       (SizeX p) (SizeY p) (AntiAlias p) (Continuous p) (Palette p) inside
       (subpixOffsets p)) iters
  = getColor p iters.
Proof. intros Hrgb. unfold getColor. cbn [InsideColor]. by rewrite Hrgb. Qed.

Lemma loop_x_inside_rgb p inside col row yoffset xs : forall acc,
  rgb inside = rgb (InsideColor p) ->
  loop_x
    (mkParameters (CenterX p) (CenterY p) (Magnification p) (MaxIterations p)
       (SizeX p) (SizeY p) (AntiAlias p) (Continuous p) (Palette p) inside
       (subpixOffsets p)) col row yoffset xs acc
  = loop_x p col row yoffset xs acc.
Proof.
  intros acc Hrgb. revert acc.
  induction xs as [|xo xs IH]; intros acc; [done|].
  cbn [loop_x]. unfold sampleColor. rewrite getColor_inside_rgb by done.
  change (plane_x (mkParameters _ _ _ _ _ _ _ _ _ _ _) col xo)
    with (plane_x p col xo).
  change (plane_y (mkParameters _ _ _ _ _ _ _ _ _ _ _) row yoffset)
    with (plane_y p row yoffset).
  cbn [MaxIterations Continuous].
  destruct (getColor p _) as [s|msg]; cbn [mbind result_bind]; [|done].
  apply IH.
Qed.

Lemma loop_y_inside_rgb p inside col row ys : forall acc,
  rgb inside = rgb (InsideColor p) ->
  loop_y
    (mkParameters (CenterX p) (CenterY p) (Magnification p) (MaxIterations p)
       (SizeX p) (SizeY p) (AntiAlias p) (Continuous p) (Palette p) inside
       (subpixOffsets p)) col row ys acc
  = loop_y p col row ys acc.
Proof.
  intros acc Hrgb. revert acc.
  induction ys as [|yo ys IH]; intros acc; [done|].
  cbn [loop_y]. cbn [subpixOffsets]. rewrite loop_x_inside_rgb by done.
  destruct (loop_x p _ _ _ _ _) as [acc'|msg]; cbn [mbind result_bind]; [|done].
  apply IH.
Qed.

Lemma CalcPixel_inside_rgb p inside col row :
  rgb inside = rgb (InsideColor p) ->
  CalcPixel
    (mkParameters (CenterX p) (CenterY p) (Magnification p) (MaxIterations p)
       (SizeX p) (SizeY p) (AntiAlias p) (Continuous p) (Palette p) inside
       (subpixOffsets p)) col row
  = CalcPixel p col row.
Proof.
  intros Hrgb. unfold CalcPixel. cbn [subpixOffsets AntiAlias].
  by rewrite loop_y_inside_rgb.
Qed.

(** X22. When [main] of the single-file program reaches its workers with
    a palette that is not empty, the command started with the same flags
    reaches [Generate] with the same palette and the same offsets, and
    [calcPixel] of the program is [CalcPixel] of the command's parameters
    at every pixel, panics included. *)
Theorem single_file_as_command (iterations antialias sizeX sizeY : Z)
    (continuous : bool) (cx cy m : float) (palettefile : string)
    (g : Legacy.Globals) :
  SingleFile.prepare iterations antialias continuous palettefile
  = Command.Returns g ->
  Legacy.palette g <> [] ->
  exists p,
    Command.prepare
      (mkParameters cx cy m iterations sizeX sizeY antialias continuous []
         (mkNRGBA 0 0 0 0) []) palettefile = Command.Returns p
    /\ Palette p = Legacy.palette g
    /\ subpixOffsets p = Legacy.subpixOffsets g
    /\ forall col row,
         Legacy.calcPixel g col row sizeX sizeY cx cy m = CalcPixel p col row.
Proof.
  unfold SingleFile.prepare, Command.prepare. cbn [AntiAlias].
  destruct (antialias <? 1) eqn:Eaa; [done|]. apply Z.ltb_ge in Eaa.
  destruct (Command.loadPalette_global palettefile []) as [pal|f] eqn:Hload;
    cbn [mbind Command.run_bind]; [|done].
  intros [= <-]. cbn [Legacy.palette Legacy.subpixOffsets]. intros Hpal.
  apply loadPalette_global_returns in Hload as (new & Hload & ->).
  rewrite Hload. cbn [mbind Command.run_bind app].
  rewrite Init_success by done. eexists. split; [reflexivity|].
  split; [done|]. split; [done|]. intros col row.
  rewrite Legacy_calcPixel.
  2:{ cbn [Legacy.subpixOffsets Legacy.antialias]. unfold len.
      rewrite Legacy_offsets, makeOffsets_length. lia. }
  symmetry.
  apply (CalcPixel_inside_rgb
           (Legacy.as_Parameters
              (Legacy.mkGlobals iterations antialias continuous new
                 (Legacy.offsets antialias)) sizeX sizeY cx cy m)
           (mkNRGBA 0 0 0 0)).
  reflexivity.
Qed.

End SingleFileAgrees.

Lemma single_file_as_command_witness :
  exists p,
    Command.prepare (H := ExampleFiles.files)
      (mkParameters (-0.75) 0 0.5 50 64 48 2 false [] (mkNRGBA 0 0 0 0) [])
      "two.json" = Command.Returns p
    /\ Legacy.calcPixel (H := Example.runtime)
         (Legacy.mkGlobals 50 2 false
            [mkNRGBA 0 0 0 255; mkNRGBA 255 255 255 255] (Legacy.offsets 2))
         3 2 64 48 (-0.75) 0 0.5
       = CalcPixel (H := Example.runtime) p 3 2.
Proof.
  destruct (single_file_as_command (H := Example.runtime)
              (H0 := ExampleFiles.files) 50 2 64 48 false (-0.75) 0 0.5
              "two.json"
              (Legacy.mkGlobals 50 2 false
                 [mkNRGBA 0 0 0 255; mkNRGBA 255 255 255 255]
                 (Legacy.offsets 2))
              eq_refl ltac:(done)) as (p & Hp & _ & _ & Hpix).
  exists p. split; [exact Hp | apply Hpix].
Defined.

(** ** The colour mapper at whole escape values *)

Module WholeFacts.
Import F64.

Lemma Floor_of_int n : 0 <= n < 2 ^ 53 -> Floor (of_int n) = of_int n.
Proof.
  intros Hn. destruct n as [|m|m]; [done | | lia].
  rewrite F64Facts.of_int_pos by lia. unfold Floor.
  destruct (F64Facts.Prim2SF_of_uint63 m ltac:(lia)) as (m' & e & -> & He & Hm').
  destruct (0 <=? e) eqn:E; [done|].
  assert (Hq : Z.shiftr (Z.pos m') (- e) = Z.pos m).
  { rewrite Z.shiftr_div_pow2 by lia. rewrite Hm'.
    apply Z.div_mul. apply Z.pow_nonzero; lia. }
  rewrite Hq. rewrite Z.shiftl_mul_pow2 by lia. rewrite <- Hm'.
  by rewrite Z.eqb_refl.
Qed.

(** A finite value less itself is the positive zero. *)
Lemma sub_self_of_int n : 0 <= n < 2 ^ 53 -> (of_int n - of_int n = 0)%float.
Proof.
  intros Hn. apply Prim2SF_inj. rewrite sub_spec.
  destruct n as [|m|m]; [done | | lia].
  rewrite F64Facts.of_int_pos by lia.
  destruct (F64Facts.Prim2SF_of_uint63 m ltac:(lia)) as (m' & e & -> & _ & _).
  unfold SF64sub, SFsub, cond_Zopp. by rewrite Z.sub_diag.
Qed.

End WholeFacts.

Section GetColorWhole.
Context `{GoRuntime}.

(** With the weight 0 a channel of the gradient is the first colour's. *)
Definition blend_first_ok (c1 : Z) : bool :=
  forallb (fun c2 => blend c1 c2 0 =? c1) (seqZ 0 256).

Lemma blend_first_all : forallb blend_first_ok (seqZ 0 256) = true.
Proof. vm_compute. reflexivity. Qed.

Lemma blend_first c1 c2 :
  uint8_range c1 -> uint8_range c2 -> blend c1 c2 0 = c1.
Proof.
  unfold uint8_range. intros H1 H2.
  pose proof blend_first_all as Hall. rewrite forallb_forall in Hall.
  specialize (Hall c1). unfold blend_first_ok in Hall.
  rewrite forallb_forall in Hall.
  apply Z.eqb_eq, Hall; apply list_elem_of_In, elem_of_seqZ; lia.
Qed.

(** X24. Continuous mode at a whole escape value [n] from 1 up: the weight
    is 0 and the colour is exactly the palette entry at [(n - 1) mod length],
    the entry before the one discrete mode gives for the same value. *)
Theorem getColor_continuous_whole (p : Parameters) (n : Z) :
  Continuous p = true -> Palette p <> [] -> Forall wf_color (Palette p) ->
  1 <= n < 2 ^ 53 ->
  exists c,
    Palette p !! Z.to_nat ((n - 1) mod len (Palette p)) = Some c
    /\ getColor p (F64.of_int n) = Ok (rgb c).
Proof.
  intros Hc Hpal Hwf Hn.
  destruct (lookup_mod (Palette p) (n - 1) Hpal) as [c1 Hl1].
  destruct (lookup_mod (Palette p) n Hpal) as [c2 Hl2].
  exists c1. split; [done|].
  rewrite (getColor_continuous_at p (F64.of_int n) n (n - 1) n c1 c2); try done.
  - rewrite WholeFacts.Floor_of_int, WholeFacts.sub_self_of_int by lia.
    pose proof (Forall_lookup_1 _ _ _ _ Hwf Hl1) as (? & ? & ? & _).
    pose proof (Forall_lookup_1 _ _ _ _ Hwf Hl2) as (? & ? & ? & _).
    unfold rgb. by rewrite !blend_first.
  - apply F64Facts.of_int_nonzero. lia.
  - rewrite WholeFacts.Floor_of_int by lia. apply F64Facts.trunc_of_int. lia.
  - unfold Int.min_int, Int.max_int. lia.
  - destruct (n <? 1) eqn:E; [apply Z.ltb_lt in E; lia | done].
Qed.

End GetColorWhole.

Lemma getColor_continuous_whole_witness :
  exists c,
    Palette (Example.params 1 true)
      !! Z.to_nat ((4 - 1) mod len (Palette (Example.params 1 true))) = Some c
    /\ getColor (H := Example.runtime) (Example.params 1 true) (F64.of_int 4)
       = Ok (rgb c).
Proof.
  apply (getColor_continuous_whole (H := Example.runtime)
           (Example.params 1 true) 4); [reflexivity | done | | lia].
  repeat constructor; unfold uint8_range; simpl; lia.
Defined.

(** ** The start of [Generate] *)

Section GenerateStart.
Context `{GoRuntime}.


End GenerateStart.


(** ** The row workers *)

Section RowWorkersProperties.
Context `{GoRuntime}.

Lemma workRows_swap g sizeX sizeY cx cy r1 r2 rows canvas c :
  r1 <> r2 ->
  RowWorkers.workRows g sizeX sizeY cx cy (r1 :: r2 :: rows) canvas = Ok c ->
  RowWorkers.workRows g sizeX sizeY cx cy (r2 :: r1 :: rows) canvas = Ok c.
Proof.
  intros Hne. cbn [RowWorkers.workRows]. unfold RowWorkers.workRow.
  set (x := (cx + _ * _)%float).
  set (y1 := (cy - F64.of_int (Int.sub r1 _) * _)%float).
  set (y2 := (cy - F64.of_int (Int.sub r2 _) * _)%float).
  intros Hrun.
  destruct (c1 ← RowProgram.calcRow g canvas x y1 r1;
            RowProgram.calcRow g c1 x y2 r2) as [c12|msg] eqn:H12.
  - pose proof (calcRow_commute_1 g canvas x y1 r1 x y2 r2 c12 Hne H12) as H21.
    destruct (RowProgram.calcRow g canvas x y1 r1) as [c1|msg1];
      cbn [mbind result_bind] in *; [|done].
    rewrite H12 in Hrun. cbn [mbind result_bind] in Hrun.
    destruct (RowProgram.calcRow g canvas x y2 r2) as [c2|msg2];
      cbn [mbind result_bind] in *; [|done].
    rewrite H21. done.
  - destruct (RowProgram.calcRow g canvas x y1 r1) as [c1|msg1];
      cbn [mbind result_bind] in *; [|done].
    rewrite H12 in Hrun. done.
Qed.

Lemma workRows_permutation g sizeX sizeY cx cy rows rows' :
  rows ≡ₚ rows' -> NoDup rows ->
  forall canvas c,
    RowWorkers.workRows g sizeX sizeY cx cy rows canvas = Ok c ->
    RowWorkers.workRows g sizeX sizeY cx cy rows' canvas = Ok c.
Proof.
  induction 1 as [|r l l' Hperm IH|r1 r2 l|l1 l2 l3 H12 IH12 H23 IH23];
    intros Hnd canvas c Hrun.
  - done.
  - cbn [RowWorkers.workRows] in *.
    destruct (RowWorkers.workRow g sizeX sizeY cx cy canvas r) as [c1|msg];
      cbn [mbind result_bind] in *; [|done].
    apply IH; [by apply NoDup_cons_1_2 in Hnd | done].
  - apply workRows_swap; [|done].
    apply NoDup_cons_1_1 in Hnd. intros ->. apply Hnd. by left.
  - apply IH23; [by rewrite <- H12|]. by apply IH12.
Qed.

(** X25. Rows worked one after the other give the same canvas in every
    order: for a list of distinct rows and any rearrangement of it, one
    order returns a canvas exactly when the other returns it. With one
    worker the order is that of the feeding loop. *)
Theorem workRows_any_order (g : RowProgram.Globals) (sizeX sizeY : Z)
    (cx cy : float) (rows rows' : list Z) (canvas c : Canvas) :
  NoDup rows -> rows ≡ₚ rows' ->
  RowWorkers.workRows g sizeX sizeY cx cy rows canvas = Ok c <->
  RowWorkers.workRows g sizeX sizeY cx cy rows' canvas = Ok c.
Proof.
  intros Hnd Hperm. split.
  - by apply workRows_permutation.
  - apply workRows_permutation; [done | by rewrite <- Hperm].
Qed.

End RowWorkersProperties.

Lemma workRows_any_order_witness :
  exists c,
    RowWorkers.workRows (H := Example.runtime) ExampleRows.variables 3 2
      (-0.75) 0 [1; 0] ExampleRows.canvas = Ok c.
Proof.
  destruct (RowWorkers.workRows (H := Example.runtime) ExampleRows.variables 3 2
              (-0.75) 0 [0; 1] ExampleRows.canvas) as [c|msg] eqn:Hrun;
    [|vm_compute in Hrun; discriminate].
  exists c.
  apply (workRows_any_order (H := Example.runtime) ExampleRows.variables 3 2
           (-0.75) 0 [0; 1] [1; 0] ExampleRows.canvas c);
    [ | apply perm_swap | exact Hrun].
  apply NoDup_cons; split; [|apply NoDup_singleton].
  intros Hin. apply list_elem_of_singleton in Hin. discriminate.
Defined.
